(** * torch2trt: tracing hooks, broadcast resolver and tensor indexing

    A shallow embedding of [torch2trt/torch2trt.py] (the conversion hooks,
    [check_torch_dtype], [trt_]) and of [torch2trt/converters/getitem.py]
    ([slice_to_trt], [num_slice_types], [convert_tensor_getitem]).

    Python integers are [Z]; [//] is floor division, which is [Z.div].
    Attributes stored on host tensors ([t._trt]) live in a finite map keyed
    by the identity of the tensor object.  The TensorRT network is the list
    of layers added so far; every layer has one output. *)

From Stdlib Require Import ZArith List Bool String QArith Lia.
From stdpp Require Import gmap strings list pretty.

(** ** Host and graph data *)

(** The element types of host tensors ([torch.float] is [float32],
    [torch.long] is [int64]); [other_dtype] is any [torch.dtype] that the
    code does not name ([torch.uint8], [torch.int16], [torch.bfloat16],
    ...), by its name. *)
Inductive torch_dtype : Set :=
  | int8 | int32 | int64 | float16 | float32 | float64 | bool8
  | other_dtype (name : string).

#[global] Instance torch_dtype_eq_dec : EqDecision torch_dtype.
Proof. solve_decision. Defined.

(** A host tensor object: its identity, its shape and its element type. *)
Record tensor : Set := Tensor {
  tid : nat;
  shape : list Z;
  dtype : torch_dtype
}.

(** An [ITensor] of the network: the index of the layer that produced it and
    its shape. *)
Record trt_tensor : Set := TrtTensor {
  trt_id : nat;
  trt_shape : list Z
}.

#[global] Instance trt_tensor_eq_dec : EqDecision trt_tensor.
Proof. solve_decision. Defined.

(** A Python scalar: a float or an int. *)
Inductive scalar : Set :=
  | SFloat (v : Q)
  | SInt (v : Z).

(** What a constant layer is given as weights: the values of a host tensor
    ([t.detach().cpu().numpy()], by the identity of the tensor), or the
    product [t * torch.ones(shape, dtype=dtype).cpu().numpy()].
    [WScalar v dt] records the two factors of that product, the Python
    scalar [v] and the [dtype] argument of [torch.ones]; the element type of
    the product is numpy's choice (a float times an array of int32 is an
    array of float64) and is not part of the model. *)
Inductive weights : Set :=
  | WTensor (t : nat)
  | WScalar (v : scalar) (dt : torch_dtype).

Inductive layer : Set :=
  | LInput (dims : list Z)
  | LConstant (dims : list Z) (w : weights)
  | LShuffle (input : trt_tensor) (reshape_dims : list Z)
  | LSlice (input : trt_tensor) (starts sizes strides : list Z)
  | LGather (input indices : trt_tensor) (axis : nat).

(** The shape of the output of a layer, as TensorRT computes it: a constant
    and an input have the shape they were given, a shuffle its
    [reshape_dims], a slice its sizes, and a gather replaces dimension
    [axis] of the data by the dimensions of the indices. *)
Definition layer_output_shape (l : layer) : list Z :=
  match l with
  | LInput dims => dims
  | LConstant dims _ => dims
  | LShuffle _ dims => dims
  | LSlice _ _ sizes _ => sizes
  | LGather input indices axis =>
      take axis (trt_shape input) ++ trt_shape indices
        ++ drop (S axis) (trt_shape input)
  end.

(** ** Errors *)

Inductive exn : Set :=
  | DtypeMismatch        (* assert(dtype == t.dtype) *)
  | DtypeNotInferred     (* assert(dtype is not None) *)
  | TensorNotCreated     (* assert(trt_tensor is not None) *)
  | ZeroDivisionError
  | IndexError.

(** ** The conversion state and its monad *)

(** The part of the process that a converter reads and writes: the layers of
    [ctx.network], oldest first, and the [_trt] attribute of every host
    tensor that has one. *)
Record state : Type := State {
  network : list layer;
  trt_attr : gmap nat trt_tensor
}.

(** A computation returns a value or raises; in both cases the mutations it
    made so far stay. *)
Inductive result (A : Type) : Type :=
  | Ok (a : A) (s : state)
  | Raise (e : exn) (s : state).
Arguments Ok {A} a s.
Arguments Raise {A} e s.

Definition M (A : Type) : Type := state → result A.

Definition ret {A} (a : A) : M A := fun s => Ok a s.
Definition raise {A} (e : exn) : M A := fun s => Raise e s.
Definition bind {A B} (m : M A) (k : A → M B) : M B :=
  fun s => match m s with
           | Ok a s' => k a s'
           | Raise e s' => Raise e s'
           end.
Definition lift {A} (r : exn + A) : M A :=
  match r with inl e => raise e | inr a => ret a end.

Notation "'do' x <~ m 'in' k" := (bind m (fun x => k))
  (at level 10, x pattern, m at level 100, k at level 200, only parsing).

(** [hasattr(t, '_trt')] and [t._trt]. *)
Definition get_trt (t : tensor) : M (option trt_tensor) :=
  fun s => Ok (trt_attr s !! tid t) s.

(** [t._trt = h]. *)
Definition set_trt (t : tensor) (h : trt_tensor) : M unit :=
  fun s => Ok tt (State (network s) (<[tid t := h]> (trt_attr s))).

(** [network.add_...(...).get_output(0)]: the layer is appended and its
    output is returned. *)
Definition add_layer (l : layer) : M trt_tensor :=
  fun s => Ok (TrtTensor (length (network s)) (layer_output_shape l))
              (State (network s ++ [l]) (trt_attr s)).

(** ** torch2trt.py: the broadcast resolver *)

Module Torch2trt.

(** An argument of [check_torch_dtype] and [trt_]: a host tensor, a Python
    float or int, or anything else. *)
Inductive operand : Set :=
  | OTensor (t : tensor)
  | OScalar (v : scalar)
  | OOther.

(** First loop of [check_torch_dtype]: the first tensor fixes the type and
    every later tensor is asserted to have it. *)
Fixpoint tensors_dtype (dt : option torch_dtype) (tensors : list operand)
  : exn + option torch_dtype :=
  match tensors with
  | [] => inr dt
  | OTensor t :: rest =>
      match dt with
      | None => tensors_dtype (Some (dtype t)) rest
      | Some d =>
          if decide (d = dtype t) then tensors_dtype dt rest
          else inl DtypeMismatch
      end
  | _ :: rest => tensors_dtype dt rest
  end.

(** Second loop of [check_torch_dtype]: a scalar sets the type only while it
    is still None. *)
Fixpoint scalars_dtype (dt : option torch_dtype) (tensors : list operand)
  : option torch_dtype :=
  match tensors with
  | [] => dt
  | OScalar (SFloat _) :: rest =>
      scalars_dtype (match dt with None => Some float32 | Some _ => dt end) rest
  | OScalar (SInt _) :: rest =>
      scalars_dtype (match dt with None => Some int32 | Some _ => dt end) rest
  | _ :: rest => scalars_dtype dt rest
  end.

Definition check_torch_dtype (tensors : list operand) : exn + torch_dtype :=
  match tensors_dtype None tensors with
  | inl e => inl e
  | inr dt =>
      match scalars_dtype dt tensors with
      | None => inl DtypeNotInferred
      | Some d => inr d
      end
  end.

(** The loop of [trt_] that computes [broadcast_num_dim]. *)
Definition num_dim (s : state) (t : tensor) : nat :=
  match trt_attr s !! tid t with
  | None => length (shape t)
  | Some h => length (trt_shape h)
  end.

Fixpoint broadcast_num_dim (s : state) (b : nat) (tensors : list operand)
  : nat :=
  match tensors with
  | [] => b
  | OTensor t :: rest =>
      broadcast_num_dim s
        (if decide (b < num_dim s t) then num_dim s t else b) rest
  | _ :: rest => broadcast_num_dim s b rest
  end.

(** Body of the second loop of [trt_], first half: get the tensor of the
    network or create a constant; for a scalar the constant is the scalar
    times [torch.ones((1,), dtype=dtype)]. *)
Definition get_trt_tensor (dt : torch_dtype) (t : operand) : M trt_tensor :=
  match t with
  | OTensor t =>
      do a <~ get_trt t in
      match a with
      | Some h => ret h
      | None =>
          do h <~ add_layer (LConstant (shape t) (WTensor (tid t))) in
          do _ <~ set_trt t h in
          ret h
      end
  | OScalar v => add_layer (LConstant [1%Z] (WScalar v dt))
  | OOther => raise TensorNotCreated
  end.

(** Second half: prepend dimensions of size 1 up to [broadcast_num_dim]. *)
Definition make_broadcastable (b : nat) (h : trt_tensor) : M trt_tensor :=
  if decide (length (trt_shape h) < b) then
    let diff := b - length (trt_shape h) in
    add_layer (LShuffle h (repeat 1%Z diff ++ trt_shape h))
  else ret h.

Fixpoint trt_tensors (dt : torch_dtype) (b : nat) (tensors : list operand)
  : M (list trt_tensor) :=
  match tensors with
  | [] => ret []
  | t :: rest =>
      do h <~ get_trt_tensor dt t in
      do h' <~ make_broadcastable b h in
      do hs <~ trt_tensors dt b rest in
      ret (h' :: hs)
  end.

(** What [trt_] returns: the tensor itself for one operand, else a tuple. *)
Inductive trt_return : Set :=
  | One (h : trt_tensor)
  | Many (hs : list trt_tensor).

Definition returned (r : trt_return) : list trt_tensor :=
  match r with One h => [h] | Many hs => hs end.

(** [if len(trt_tensors) == 1: return trt_tensors[0]; else: return
    tuple(trt_tensors)] *)
Definition unwrap_single (hs : list trt_tensor) : trt_return :=
  match hs with [h] => One h | _ => Many hs end.

Definition trt_ (tensors : list operand) : M trt_return :=
  do dt <~ lift (check_torch_dtype tensors) in
  do b <~ (fun s => Ok (broadcast_num_dim s 0 tensors) s) in
  do hs <~ trt_tensors dt b tensors in
  ret (unwrap_single hs).

(** The state a computation ends in, whether it returned or raised. *)
Definition final_state {A} (r : result A) : state :=
  match r with Ok _ s => s | Raise _ s => s end.

(** The number of constant layers of a network that hold the values of the
    host tensor [t], and the number that hold a scalar. *)
Definition holds_tensor (t : nat) (l : layer) : bool :=
  match l with LConstant _ (WTensor t') => bool_decide (t' = t) | _ => false end.

Definition holds_scalar (l : layer) : bool :=
  match l with LConstant _ (WScalar _ _) => true | _ => false end.

Definition tensor_constants (t : nat) (net : list layer) : nat :=
  length (filter (fun l => holds_tensor t l) net).

Definition scalar_constants (net : list layer) : nat :=
  length (filter (fun l => holds_scalar l) net).

(** The type [check_torch_dtype] gives to a scalar when nothing before it
    fixed one. *)
Definition scalar_dtype (v : scalar) : torch_dtype :=
  match v with SFloat _ => float32 | SInt _ => int32 end.

Definition is_float (v : scalar) : bool :=
  match v with SFloat _ => true | SInt _ => false end.

(** The tensors among the operands, and the shape of the operand's own
    tensor of the network in state [s]: the shape of [t._trt] for a tensor
    that has one, the host shape for a leaf tensor, [(1,)] for a scalar. *)
Definition tensor_operands (tensors : list operand) : list tensor :=
  omap (fun o => match o with OTensor t => Some t | _ => None end) tensors.

Definition operand_shape (s : state) (o : operand) : list Z :=
  match o with
  | OTensor t =>
      match trt_attr s !! tid t with
      | Some h => trt_shape h
      | None => shape t
      end
  | OScalar _ => [1%Z]
  | OOther => []
  end.

Definition scalar_operands (tensors : list operand) : list scalar :=
  omap (fun o => match o with OScalar v => Some v | _ => None end) tensors.

(** Operands that are the same host object have the same host shape. *)
Definition same_object_same_shape (tensors : list operand) : Prop :=
  ∀ t1 t2, In (OTensor t1) tensors → In (OTensor t2) tensors →
           tid t1 = tid t2 → shape t1 = shape t2.

(** ** torch2trt.py: the conversion hooks *)

(** The arguments and outputs of a host call are opaque here. *)
Definition value : Set := nat.

(** The fields of [ConversionContext] that [attach_converter] uses, and two
    logs: the [method_str] of every converter that ran, and for every entry
    into a wrapper its [method_str] and the value of [skip] it computed. *)
Record hook_ctx : Set := HookCtx {
  lock : bool;
  method_args : option (list value);
  method_kwargs : option (list (string * value));
  method_return : option value;
  method_str : option string;
  converted : list string;
  entered : list (string * bool)
}.

(** One dynamic call of a hooked method: the registration
    ([method_str], [is_real]), the call's arguments and the outputs of the
    original method, the hooked methods that the original method calls while
    it runs, and the hooked methods that the converter calls while it
    runs. *)
#[warnings="-register-all"]
Inductive call : Set :=
  Call (name : string) (is_real : bool)
       (args : list value) (kwargs : list (string * value)) (outputs : value)
       (method_calls : list call) (converter_calls : list call).

(** The [wrapper] that [attach_converter] returns, run on one call. *)
Fixpoint wrapper (c : call) (ctx : hook_ctx) : option value * hook_ctx :=
  match c with
  | Call name is_real args kwargs outputs method_calls converter_calls =>
      let skip := lock ctx in
      let ctx :=
        if lock ctx then ctx
        else if is_real then
          HookCtx true (method_args ctx) (method_kwargs ctx)
                  (method_return ctx) (method_str ctx) (converted ctx)
                  (entered ctx)
        else ctx in
      let ctx :=
        HookCtx (lock ctx) (method_args ctx) (method_kwargs ctx)
                (method_return ctx) (method_str ctx) (converted ctx)
                (entered ctx ++ [(name, skip)]) in
      (* run original method *)
      let ctx := fold_left (fun ctx c' => snd (wrapper c' ctx)) method_calls ctx in
      if skip then (Some outputs, ctx)
      else
        let ctx :=
          HookCtx (lock ctx) (Some args) (Some kwargs) (Some outputs)
                  (Some name) (converted ctx) (entered ctx) in
        (* run the converter *)
        let ctx :=
          HookCtx (lock ctx) (method_args ctx) (method_kwargs ctx)
                  (method_return ctx) (method_str ctx)
                  (converted ctx ++ [name]) (entered ctx) in
        let ctx :=
          fold_left (fun ctx c' => snd (wrapper c' ctx)) converter_calls ctx in
        let outputs := method_return ctx in
        (outputs,
         HookCtx false None None None (method_str ctx) (converted ctx)
                 (entered ctx))
  end.

(** The number of wrappers entered under a call that is skipped: the
    converter does not run, so only the calls of the original method
    count. *)
Fixpoint skipped_calls (c : call) : nat :=
  match c with
  | Call _ _ _ _ _ method_calls _ =>
      S (list_sum (map skipped_calls method_calls))
  end.

(** Induction on a call with the hypothesis for every nested call. *)
Fixpoint call_nested_ind (P : call → Prop)
    (step : ∀ name is_real args kwargs outputs method_calls converter_calls,
        Forall P method_calls → Forall P converter_calls →
        P (Call name is_real args kwargs outputs method_calls converter_calls))
    (c : call) : P c :=
  match c with
  | Call name is_real args kwargs outputs method_calls converter_calls =>
      step name is_real args kwargs outputs method_calls converter_calls
        ((fix all (l : list call) : Forall P l :=
            match l with
            | [] => @List.Forall_nil call P
            | c' :: l' =>
                @List.Forall_cons call P c' l' (call_nested_ind P step c') (all l')
            end) method_calls)
        ((fix all (l : list call) : Forall P l :=
            match l with
            | [] => @List.Forall_nil call P
            | c' :: l' =>
                @List.Forall_cons call P c' l' (call_nested_ind P step c') (all l')
            end) converter_calls)
  end.

Definition run_calls (calls : list call) (ctx : hook_ctx) : hook_ctx :=
  fold_left (fun ctx c' => snd (wrapper c' ctx)) calls ctx.

(** What a wrapper entered while the lock is held leaves behind: nothing but
    entries in the log, all of them with [skip = True]. *)
Definition only_skips (n : nat) (ctx ctx' : hook_ctx) : Prop :=
  lock ctx' = true
  ∧ method_args ctx' = method_args ctx
  ∧ method_kwargs ctx' = method_kwargs ctx
  ∧ method_return ctx' = method_return ctx
  ∧ method_str ctx' = method_str ctx
  ∧ converted ctx' = converted ctx
  ∧ ∃ nested, entered ctx' = entered ctx ++ nested
      ∧ Forall (fun e => e.2 = true) nested ∧ length nested = n.

(** What a step leaves of a binding that exists: the binding, and the number
    of constants that hold its tensor. *)
Definition keeps (k : nat) (h : trt_tensor) (s s' : state) : Prop :=
  trt_attr s' !! k = Some h
  ∧ tensor_constants k (network s') = tensor_constants k (network s).

End Torch2trt.

(** ** getitem.py *)

Module Getitem.

Import Torch2trt.
Local Open Scope Z_scope.

(** One element of an index expression. *)
Inductive index : Set :=
  | ISlice (start stop step : option Z)
  | IInt (v : Z)
  | INone
  | IEllipsis
  | ITensor (t : tensor).

(** The second argument of [__getitem__]: a tuple or one element. *)
Inductive index_expr : Set :=
  | Single (s : index)
  | Tuple (slices : list index).

Definition full_slice : index := ISlice None None None.

(** [slice_to_trt(dim_size, dim_slice)]; the floor division raises on a
    zero stride. *)
Definition slice_to_trt (dim_size : Z) (start stop step : option Z)
  : exn + (Z * Z * Z) :=
  let start := match start with None => 0 | Some v => v end in
  let stop := match stop with None => dim_size | Some v => v end in
  let stride := match step with None => 1 | Some v => v end in
  if decide (stride = 0) then inl ZeroDivisionError
  else
    let size := (stop - start - 1) / stride + 1 in
    inr (start, size, stride).

Definition is_slice (s : index) : bool :=
  match s with ISlice _ _ _ => true | _ => false end.

Definition is_slice_or_int (s : index) : bool :=
  match s with ISlice _ _ _ | IInt _ => true | _ => false end.

Fixpoint num_slice_types (slices : list index) : Z :=
  match slices with
  | [] => 0
  | s :: rest => (if is_slice_or_int s then 1 else 0) + num_slice_types rest
  end.

(** [while num_ellipsis > 0: new_slices.append(slice(None, None, None));
    num_ellipsis -= 1], with the number of rounds bounded by [fuel]. *)
Fixpoint ellipsis_loop (fuel : nat) (num_ellipsis : Z) (new_slices : list index)
  : Z * list index :=
  match fuel with
  | O => (num_ellipsis, new_slices)
  | S fuel =>
      if decide (num_ellipsis > 0) then
        ellipsis_loop fuel (num_ellipsis - 1) (new_slices ++ [full_slice])
      else (num_ellipsis, new_slices)
  end.

(** Step 1, the loop over the elements of the expression. *)
Fixpoint replace_ellipsis (num_ellipsis : Z) (new_slices : list index)
    (slices : list index) : list index :=
  match slices with
  | [] => new_slices
  | s :: rest =>
      match s with
      | IEllipsis =>
          let '(n, new_slices) :=
            ellipsis_loop (Z.to_nat num_ellipsis) num_ellipsis new_slices in
          replace_ellipsis n new_slices rest
      | ISlice _ _ _ => replace_ellipsis num_ellipsis (new_slices ++ [s]) rest
      | INone => replace_ellipsis num_ellipsis (new_slices ++ [INone]) rest
      | IInt _ => replace_ellipsis num_ellipsis (new_slices ++ [s]) rest
      | ITensor _ =>
          replace_ellipsis num_ellipsis (new_slices ++ [full_slice]) rest
      end
  end.

(** [while num_slice_types(new_slices) < len(input.shape):
    new_slices.append(slice(None, None, None))], bounded by [fuel]. *)
Fixpoint fill_missing (fuel : nat) (rank : Z) (new_slices : list index)
  : list index :=
  match fuel with
  | O => new_slices
  | S fuel =>
      if decide (num_slice_types new_slices < rank) then
        fill_missing fuel rank (new_slices ++ [full_slice])
      else new_slices
  end.

(** What one element of the expression becomes in [new_slices], the
    ellipsis apart. *)
Definition kept (s : index) : list index :=
  match s with
  | IEllipsis => []
  | ITensor _ => [full_slice]
  | _ => [s]
  end.

Definition is_ellipsis (s : index) : bool :=
  match s with IEllipsis => true | _ => false end.

Definition is_newaxis (s : index) : bool :=
  match s with INone => true | _ => false end.

Definition tuple_of (slices : index_expr) : list index :=
  match slices with Single s => [s] | Tuple l => l end.

(** Step 1 as a whole: [new_slices] when step 2 starts. *)
Definition normalize (input_shape : list Z) (slices : list index)
  : list index :=
  let rank := Z.of_nat (length input_shape) in
  let num_ellipsis := rank - num_slice_types slices in
  fill_missing (length input_shape) rank
    (replace_ellipsis num_ellipsis [] slices).

(** Step 3, the loop that collects starts, sizes and strides. *)
Fixpoint slice_loop (input_shape : list Z) (trt_rank : nat) (input_dim : nat)
    (starts sizes strides : list Z) (new_slices : list index)
  : exn + (list Z * list Z * list Z) :=
  match new_slices with
  | [] => inr (starts, sizes, strides)
  | s :: rest =>
      if decide (trt_rank ≤ input_dim)%nat then inr (starts, sizes, strides)
      else
        match input_shape !! input_dim with
        | None => inl IndexError
        | Some input_size =>
            match s with
            | ISlice a b c =>
                match slice_to_trt input_size a b c with
                | inl e => inl e
                | inr (start, size, stride) =>
                    slice_loop input_shape trt_rank (S input_dim)
                      (starts ++ [start]) (sizes ++ [size])
                      (strides ++ [stride]) rest
                end
            | IInt v =>
                slice_loop input_shape trt_rank (S input_dim)
                  (starts ++ [v]) (sizes ++ [1]) (strides ++ [1]) rest
            | _ =>
                slice_loop input_shape trt_rank input_dim
                  starts sizes strides rest
            end
        end
  end.

(** Step 3.5: the positions in [slices] of the tensors of type int32 or
    long, with the tensors. *)
Fixpoint gather_index (e : nat) (slices : list index) : list (nat * tensor) :=
  match slices with
  | [] => []
  | ITensor t :: rest =>
      if bool_decide (dtype t = int32) || bool_decide (dtype t = int64)
      then (e, t) :: gather_index (S e) rest
      else gather_index (S e) rest
  | _ :: rest => gather_index (S e) rest
  end.

(** A call of [trt_] on one tensor whose result is used as a tensor. *)
Definition trt_1 (t : tensor) : M trt_tensor :=
  do r <~ trt_ [OTensor t] in
  match r with
  | One h => ret h
  | Many _ => raise TensorNotCreated
  end.

Fixpoint gather_loop (output_trt : trt_tensor) (gidxs : list (nat * tensor))
  : M trt_tensor :=
  match gidxs with
  | [] => ret output_trt
  | (gidx, index_tensor) :: rest =>
      do index_tensor_trt <~ trt_1 index_tensor in
      do output_trt <~ add_layer (LGather output_trt index_tensor_trt gidx) in
      gather_loop output_trt rest
  end.

Definition num_non_slice (slices : list index) : nat :=
  length (filter (fun s => negb (is_slice s)) slices).

(** [convert_tensor_getitem(ctx)], with [ctx.support_dynamic_shape],
    [ctx.method_args[0]], [ctx.method_args[1]] and [ctx.method_return] as
    arguments; the value returned is the tensor bound to [output._trt]. *)
Definition convert_tensor_getitem (support_dynamic_shape : bool)
    (input : tensor) (slices : index_expr) (output : tensor) : M trt_tensor :=
  do input_trt <~ trt_1 input in
  (* Step 1 *)
  let slices := tuple_of slices in
  let new_slices := normalize (shape input) slices in
  (* Step 2 *)
  let slices := if support_dynamic_shape then slices else drop 1 new_slices in
  (* Step 3 *)
  do (starts, sizes, strides) <~
    lift (slice_loop (shape input) (length (trt_shape input_trt)) 0
            [] [] [] new_slices) in
  do output_trt <~ add_layer (LSlice input_trt starts sizes strides) in
  (* Step 3.5 *)
  do output_trt <~ gather_loop output_trt (gather_index 0 slices) in
  (* Step 4 *)
  do output_trt <~
    (if decide (0 < num_non_slice slices)%nat then
       add_layer (LShuffle output_trt
                    (if support_dynamic_shape then shape output
                     else drop 1 (shape output)))
     else ret output_trt) in
  do _ <~ set_trt output output_trt in
  ret output_trt.

Definition is_gather (l : layer) : bool :=
  match l with LGather _ _ _ => true | _ => false end.

(** [chained data n ls final]: among the layers [ls], added to a network
    that had [n] layers, the first gather reads [data], every later gather
    reads the output of the gather before it, and [final] is the output of
    the last one ([data] if there is none). *)
Fixpoint chained (data : trt_tensor) (n : nat) (ls : list layer)
    (final : trt_tensor) : Prop :=
  match ls with
  | [] => final = data
  | LGather d i e :: rest =>
      d = data
      ∧ chained (TrtTensor n (layer_output_shape (LGather d i e))) (S n)
          rest final
  | _ :: rest => chained data (S n) rest final
  end.

End Getitem.

(** ** torch2trt.py: utility functions *)

Module Utility.

Import Torch2trt.

(** Exceptions of the functions below. *)
Inductive py_exn : Set :=
  | PyTypeError
  | PyValueError
  | PyAttributeError
  | PyNameError
  | PyIndexError.

(** The element types of TensorRT; [trt_other] is any [trt.DataType] that
    the code does not name, by its name. *)
Inductive trt_dtype : Set :=
  | trt_int8 | trt_int32 | trt_float16 | trt_float32 | trt_bool
  | trt_other (name : string).

Definition torch_dtype_to_trt (d : torch_dtype) : py_exn + trt_dtype :=
  match d with
  | int8 => inr trt_int8
  | int32 => inr trt_int32
  | float16 => inr trt_float16
  | float32 => inr trt_float32
  | _ => inl PyTypeError
  end.

Definition torch_dtype_from_trt (d : trt_dtype) : py_exn + torch_dtype :=
  match d with
  | trt_int8 => inr int8
  | trt_int32 => inr int32
  | trt_float16 => inr float16
  | trt_float32 => inr float32
  | _ => inl PyTypeError
  end.

(** A [torch.device]: its type and its index, if it has one. *)
Inductive device_type : Set := cuda | cpu | other_device.

Record device : Set := Device {
  device_kind : device_type;
  device_index : option nat
}.

(** What the two device functions return: a location, a device, or the
    [TypeError] object that their last branch returns (it is not raised). *)
Inductive TensorLocation : Set := DEVICE | HOST.

Inductive location_or_error : Set :=
  | Location (l : TensorLocation)
  | LocationTypeError.

Inductive device_or_error : Set :=
  | TorchDevice (d : device)
  | DeviceTypeError.

Definition torch_device_to_trt (d : device) : location_or_error :=
  match device_kind d with
  | cuda => Location DEVICE
  | cpu => Location HOST
  | other_device => LocationTypeError
  end.

Definition torch_device_from_trt (l : location_or_error) : device_or_error :=
  match l with
  | Location DEVICE => TorchDevice (Device cuda None)
  | Location HOST => TorchDevice (Device cpu None)
  | LocationTypeError => DeviceTypeError
  end.

(** An engine, as far as the two counting functions read it. *)
Record engine : Type := Engine {
  num_bindings : nat;
  binding_is_input : nat → bool
}.

Fixpoint count_bindings (p : nat → bool) (bindings : list nat) (count : nat)
  : nat :=
  match bindings with
  | [] => count
  | i :: rest => count_bindings p rest (if p i then S count else count)
  end.

Definition trt_num_inputs (e : engine) : nat :=
  count_bindings (binding_is_input e) (seq 0 (num_bindings e)) 0.

Definition trt_num_outputs (e : engine) : nat :=
  count_bindings (fun i => negb (binding_is_input e i))
    (seq 0 (num_bindings e)) 0.

(** The argument of [torch_dim_to_trt_axes]: one dimension or a tuple. *)
Inductive dim_arg : Set :=
  | DimInt (d : Z)
  | DimTuple (ds : list Z).

(** [1 << n]; a negative shift count raises [ValueError]. *)
Definition shift_one (n : Z) : py_exn + Z :=
  if decide (n < 0)%Z then inl PyValueError else inr (Z.shiftl 1 n).

Fixpoint axes_loop (support_dynamic_shape : bool) (axes : Z) (dim : list Z)
  : py_exn + Z :=
  match dim with
  | [] => inr axes
  | d :: rest =>
      match shift_one (if support_dynamic_shape then d else d - 1)%Z with
      | inl e => inl e
      | inr bit => axes_loop support_dynamic_shape (Z.lor axes bit) rest
      end
  end.

(** [torch_dim_to_trt_axes(dim)]; the module variable
    [support_dynamic_shape] is the first argument. *)
Definition torch_dim_to_trt_axes (support_dynamic_shape : bool) (dim : dim_arg)
  : py_exn + Z :=
  let dim := match dim with DimInt d => [d] | DimTuple ds => ds end in
  axes_loop support_dynamic_shape 0 dim.

(** [slice_shape_trt(network, shape_trt, start, size, stride)]; the
    defaults are [start=0], [size=None], [stride=1]. *)
Definition slice_shape_trt (shape_trt : trt_tensor) (start : Z)
    (size : option Z) (stride : Z) : M (option trt_tensor) :=
  match trt_shape shape_trt with
  | [] => raise IndexError
  | shape_trt_dim :: _ =>
      if bool_decide (start = 0%Z) && bool_decide (stride = 1%Z)
         && match size with
            | None => true
            | Some n => bool_decide (n = shape_trt_dim)
            end
      then ret (Some shape_trt)
      else if decide (start >= shape_trt_dim)%Z then ret None
      else if decide (size = Some 0%Z) then ret None
      else
        let size := match size with
                    | None => (shape_trt_dim - start)%Z
                    | Some n => n
                    end in
        do h <~ add_layer (LSlice shape_trt [start] [size] [stride]) in
        ret (Some h)
  end.

(** A Python dict with string keys, in insertion order. *)
Fixpoint dict_get {V} (d : list (string * V)) (k : string) : option V :=
  match d with
  | [] => None
  | (k', v) :: rest => if decide (k' = k) then Some v else dict_get rest k
  end.

(** [get_arg(ctx, name, pos, default)]. [name in None] and [len(None)]
    raise [TypeError]. *)
Definition get_arg (ctx : hook_ctx) (name : string) (pos : nat)
    (default : value) : py_exn + value :=
  match method_kwargs ctx with
  | None => inl PyTypeError
  | Some kwargs =>
      match dict_get kwargs name with
      | Some v => inr v
      | None =>
          match method_args ctx with
          | None => inl PyTypeError
          | Some args =>
              match args !! pos with
              | Some v => inr v
              | None => inr default
              end
          end
      end
  end.

End Utility.

(** ** Well-formed conversion states *)

Module Wf.

Import Torch2trt.

(** A tensor of the network is valid when it is the output of a layer that
    exists and has the shape of that output. *)
Definition valid_handle (net : list layer) (h : trt_tensor) : Prop :=
  ∃ l, net !! trt_id h = Some l ∧ layer_output_shape l = trt_shape h.

(** Every [_trt] is valid. *)
Definition wf_state (s : state) : Prop :=
  ∀ k h, trt_attr s !! k = Some h → valid_handle (network s) h.

(** The layers [trt_] can add for the operands [tensors] once the common
    type is [dt]: a constant holding a tensor operand in its host shape, a
    constant of shape [(1,)] that is a scalar operand times ones of type
    [dt], or a shuffle. *)
Definition resolver_layer (dt : torch_dtype) (tensors : list operand)
    (l : layer) : Prop :=
  match l with
  | LConstant dims (WTensor k) =>
      ∃ t, In (OTensor t) tensors ∧ tid t = k ∧ dims = shape t
  | LConstant dims (WScalar v d) =>
      dims = [1%Z] ∧ d = dt ∧ In (OScalar v) tensors
  | LShuffle _ _ => True
  | _ => False
  end.

(** [s'] keeps every [_trt] of [s]. *)
Definition keeps_attrs (s s' : state) : Prop :=
  ∀ k h, trt_attr s !! k = Some h → trt_attr s' !! k = Some h.

End Wf.

(** ** More on the conversion hooks *)

Module HookFacts.

Import Torch2trt.

Definition call_outputs (c : call) : value :=
  match c with Call _ _ _ _ outputs _ _ => outputs end.

(** The converters that run, in order, when a call is entered with the lock
    free: the converter of a real registration alone; for a registration
    that is not real, what runs under the original method, then its own
    converter, then what runs under its converter. *)
Fixpoint converted_free (c : call) : list string :=
  match c with
  | Call name is_real _ _ _ method_calls converter_calls =>
      if is_real then [name]
      else flat_map converted_free method_calls
             ++ name :: flat_map converted_free converter_calls
  end.

End HookFacts.

(** ** The indexing converter: step 2 and step 4 *)

Module GetitemSteps.

Import Torch2trt Getitem.

(** [slices] after step 2: the expression as it was written when the batch
    dimension is explicit, else the normalized expression without its
    first element. *)
Definition step2_slices (support_dynamic_shape : bool) (input_shape : list Z)
    (slices : index_expr) : list index :=
  if support_dynamic_shape then tuple_of slices
  else drop 1 (normalize input_shape (tuple_of slices)).

(** [layer.reshape_dims] of step 4. *)
Definition step4_reshape_dims (support_dynamic_shape : bool)
    (output : tensor) : list Z :=
  if support_dynamic_shape then shape output else drop 1 (shape output).

(** The elements of [new_slices] for which the loop of step 3 appends a
    triple and advances [input_dim]: the slices and the integers, in
    order. *)
Definition consuming (new_slices : list index) : list index :=
  filter (fun s => is_slice_or_int s) new_slices.

Definition is_slice_layer (l : layer) : bool :=
  match l with LSlice _ _ _ _ => true | _ => false end.

Definition is_index_tensor (s : index) : bool :=
  match s with ITensor _ => true | _ => false end.

(** The specification's count, not the code's: the elements of an index
    expression that index a dimension of the tensor are its slices, its
    integers and its index tensors.  ([num_slice_types] is what the code
    counts: slices and integers.) *)
Definition consumes_dimension (s : index) : bool :=
  match s with ISlice _ _ _ | IInt _ | ITensor _ => true | _ => false end.

Definition num_dimension_consuming (slices : list index) : nat :=
  length (filter (fun s => consumes_dimension s) slices).

End GetitemSteps.

(** ** torch2trt.py: the registry and the installation of the hooks *)

Module Registry.

Import Torch2trt Utility.

(** An entry of [CONVERTERS]: the converter function (its identity) and
    [is_real]. *)
Record converter_entry : Set := ConverterEntry {
  entry_converter : nat;
  entry_is_real : bool
}.

(** [d[k] = v] on a dict: a key that is present keeps its place. *)
Fixpoint dict_set {V} (d : list (string * V)) (k : string) (v : V)
  : list (string * V) :=
  match d with
  | [] => [(k, v)]
  | (k', v') :: rest =>
      if decide (k' = k) then (k, v) :: rest
      else (k', v') :: dict_set rest k v
  end.

Definition keys {V} (d : list (string * V)) : list string := map fst d.

(** [tensorrt_converter(method, is_real)(converter)]: the decorator stores
    the entry in [CONVERTERS] and returns the converter. *)
Definition tensorrt_converter (method : string) (is_real : bool)
    (converter : nat) (CONVERTERS : list (string * converter_entry))
  : nat * list (string * converter_entry) :=
  (converter, dict_set CONVERTERS method (ConverterEntry converter is_real)).

(** An object of the host that a method name can evaluate to: an original
    implementation, whatever a plain name (one without a dot) is bound to,
    or the wrapper that [attach_converter] builds around a method. *)
Inductive callable : Set :=
  | Original (id : nat)
  | Global (name : string)
  | Wrapper (method : callable) (converter : converter_entry)
            (method_str : string).






(** A [ConversionHook]; [method_impl] is [None] until [__enter__] sets the
    attribute, then [Some None] for [None] and [Some (Some f)] for a
    callable. *)
Record ConversionHook : Set := Hook {
  hook_method_str : string;
  hook_converter : converter_entry;
  hook_method_impl : option (option callable)
}.




(** [ConversionContext.__init__]: one hook per entry of the registry. *)
Definition make_hooks (converters : list (string * converter_entry))
  : list ConversionHook :=
  map (fun mc => Hook mc.1 mc.2 None) converters.



End Registry.

(** ** torch2trt.py: [ConversionContext.add_inputs] *)

Module AddInputs.

Import Torch2trt Utility.

(** The keyword arguments of one call of [network.add_input], and the
    location set on its result. *)
Record add_input_call : Set := AddInput {
  call_name : string;
  call_shape : list Z;
  call_dtype : trt_dtype;
  call_location : location_or_error
}.

(** [['input_%d' % i for i in range(n)]] *)
Definition default_names (n : nat) : list string :=
  map (fun i => "input_" +:+ pretty i) (seq 0 n).

(** [opt_shape_param[i][j][idx]]; [None] stands for [IndexError]. *)
Definition opt_shape_at (opt_shape_param : list (list (list Z)))
    (i j idx : nat) : option Z :=
  match opt_shape_param !! i with
  | None => None
  | Some p =>
      match p !! j with
      | None => None
      | Some q => q !! idx
      end
  end.

(** The loop over [idx] that builds [input_shape] from
    [opt_shape_param]: a dimension whose minimum, optimum and maximum agree
    keeps its size, any other becomes -1.  The comparison is chained, so the
    maximum is read only when minimum and optimum agree. *)
Fixpoint opt_input_shape (opt_shape_param : list (list (list Z))) (i : nat)
    (idx : nat) (shape : list Z) (input_shape : list Z)
  : py_exn + list Z :=
  match shape with
  | [] => inr input_shape
  | d :: rest =>
      match opt_shape_at opt_shape_param i 0 idx with
      | None => inl PyIndexError
      | Some a =>
          match opt_shape_at opt_shape_param i 1 idx with
          | None => inl PyIndexError
          | Some b =>
              if decide (a = b) then
                match opt_shape_at opt_shape_param i 2 idx with
                | None => inl PyIndexError
                | Some c =>
                    opt_input_shape opt_shape_param i (S idx) rest
                      (input_shape ++ [if decide (b = c) then d else (-1)%Z])
                end
              else
                opt_input_shape opt_shape_param i (S idx) rest
                  (input_shape ++ [(-1)%Z])
          end
      end
  end.

Definition input_shape_of (support_dynamic_shape : bool)
    (opt_shape_param : option (list (list (list Z)))) (i : nat)
    (torch_input : tensor) : py_exn + list Z :=
  if support_dynamic_shape then
    match opt_shape_param with
    | Some p => opt_input_shape p i 0 (shape torch_input) []
    | None => inr (shape torch_input)
    end
  else inr (drop 1 (shape torch_input)).

(** The loop of [add_inputs] from index [i] on: the exception that
    propagates, if any, the calls of [add_input] made, and the state. *)
Fixpoint add_inputs_loop (support_dynamic_shape : bool) (names : list string)
    (opt_shape_param : option (list (list (list Z)))) (i : nat)
    (torch_inputs : list (tensor * device)) (calls : list add_input_call)
    (s : state) : option py_exn * list add_input_call * state :=
  match torch_inputs with
  | [] => (None, calls, s)
  | (torch_input, dev) :: rest =>
      match trt_attr s !! tid torch_input with
      | Some _ =>
          add_inputs_loop support_dynamic_shape names opt_shape_param (S i)
            rest calls s
      | None =>
          match input_shape_of support_dynamic_shape opt_shape_param i
                  torch_input with
          | inl e => (Some e, calls, s)
          | inr input_shape =>
              match names !! i with
              | None => (Some PyIndexError, calls, s)
              | Some name =>
                  match torch_dtype_to_trt (dtype torch_input) with
                  | inl e => (Some e, calls, s)
                  | inr dt =>
                      let trt_tensor :=
                        TrtTensor (length (network s)) input_shape in
                      add_inputs_loop support_dynamic_shape names
                        opt_shape_param (S i) rest
                        (calls ++ [AddInput name input_shape dt
                                     (torch_device_to_trt dev)])
                        (State (network s ++ [LInput input_shape])
                           (<[tid torch_input := trt_tensor]> (trt_attr s)))
                  end
              end
          end
      end
  end.

(** [add_inputs(torch_inputs, names, opt_shape_param)]; the module variable
    [support_dynamic_shape] is the first argument.  The first component is
    [self.input_names]. *)
Definition add_inputs (support_dynamic_shape : bool)
    (torch_inputs : list (tensor * device)) (names : option (list string))
    (opt_shape_param : option (list (list (list Z)))) (s : state)
  : list string * (option py_exn * list add_input_call * state) :=
  let names := match names with
               | None => default_names (length torch_inputs)
               | Some names => names
               end in
  (names,
   add_inputs_loop support_dynamic_shape names opt_shape_param 0
     torch_inputs [] s).

End AddInputs.

(** ** The reentrancy lock *)

Section Hooks.

Import Torch2trt.

Lemma only_skips_refl ctx : lock ctx = true → only_skips 0 ctx ctx.
Proof.
  intros Hl. repeat split; try done.
  exists []. by rewrite app_nil_r.
Qed.

Lemma only_skips_trans n m ctx1 ctx2 ctx3 :
  only_skips n ctx1 ctx2 → only_skips m ctx2 ctx3 →
  only_skips (n + m) ctx1 ctx3.
Proof.
  intros (_ & Ha & Hk & Hr & Hs & Hc & l1 & He1 & Hf1 & Hn1)
         (Hl & Ha' & Hk' & Hr' & Hs' & Hc' & l2 & He2 & Hf2 & Hn2).
  repeat split; try congruence.
  exists (l1 ++ l2). split; [|split].
  - by rewrite He2, He1, app_assoc.
  - by apply Forall_app.
  - rewrite length_app. lia.
Qed.

Lemma run_calls_locked calls :
  Forall (fun c => ∀ ctx, lock ctx = true →
            only_skips (skipped_calls c) ctx (wrapper c ctx).2) calls →
  ∀ ctx, lock ctx = true →
    only_skips (list_sum (map skipped_calls calls)) ctx (run_calls calls ctx).
Proof.
  induction 1 as [|c calls Hc _ IH]; intros ctx Hl; simpl.
  - by apply only_skips_refl.
  - pose proof (Hc ctx Hl) as H1.
    eapply only_skips_trans; [exact H1|].
    apply IH. apply H1.
Qed.

Lemma wrapper_locked c :
  ∀ ctx, lock ctx = true → only_skips (skipped_calls c) ctx (wrapper c ctx).2.
Proof.
  induction c as [name is_real args kwargs outputs mcalls ccalls IHm _]
    using call_nested_ind.
  intros ctx Hl. simpl. rewrite Hl. simpl.
  set (ctx1 := HookCtx _ _ _ _ _ _ _).
  assert (only_skips 1 ctx ctx1) as H1.
  { repeat split; try done. exists [(name, true)].
    repeat split; try done. by repeat constructor. }
  change (S ?n) with (1 + n).
  eapply only_skips_trans; [exact H1|].
  apply (run_calls_locked mcalls IHm). apply H1.
Qed.

(** C1. When the wrapper of a real registration is entered while the lock is
    free, whatever hooked methods its original method (and its converter)
    call, however nested: its converter is the only one that runs, every
    wrapper entered below it computes [skip = True], there is one such entry
    for each of the N calls of the original method at least, and the lock is
    free again (and the bound call cleared) when the wrapper returns. *)
Theorem wrapper_real_runs_once name args kwargs outputs method_calls
    converter_calls ctx :
  lock ctx = false →
  let ctx' :=
    (wrapper (Call name true args kwargs outputs method_calls converter_calls)
       ctx).2 in
  lock ctx' = false
  ∧ converted ctx' = converted ctx ++ [name]
  ∧ method_args ctx' = None
  ∧ ∃ nested,
      entered ctx' = entered ctx ++ (name, false) :: nested
      ∧ Forall (fun e => e.2 = true) nested
      ∧ length nested
        = list_sum (map skipped_calls (method_calls ++ converter_calls))
      ∧ length method_calls ≤ length nested.
Proof.
  intros Hl. simpl. rewrite Hl. simpl.
  set (ctx1 := HookCtx true _ _ _ _ _ (_ ++ _)).
  destruct (run_calls_locked method_calls) with (ctx := ctx1)
    as (Hl2 & _ & _ & _ & _ & Hc2 & l2 & He2 & Hf2 & Hn2); [|done|].
  { apply Forall_forall. intros c _. apply wrapper_locked. }
  fold (run_calls method_calls ctx1) in *.
  set (ctx2 := run_calls method_calls ctx1) in *.
  set (ctx3 := HookCtx _ _ _ _ _ (_ ++ [name]) _).
  destruct (run_calls_locked converter_calls) with (ctx := ctx3)
    as (Hl3 & _ & _ & _ & _ & Hc3 & l3 & He3 & Hf3 & Hn3); [|done|].
  { apply Forall_forall. intros c _. apply wrapper_locked. }
  fold (run_calls converter_calls ctx3) in *.
  set (ctx4 := run_calls converter_calls ctx3) in *.
  simpl. split; [done|]. split; [by rewrite Hc3; simpl; rewrite Hc2|].
  split; [done|].
  exists (l2 ++ l3). split; [|split; [|split]].
  - rewrite He3. simpl. rewrite He2. simpl. by rewrite <- !app_assoc.
  - by apply Forall_app.
  - rewrite length_app, map_app, list_sum_app. lia.
  - rewrite length_app, Hn2.
    assert (∀ l, length l ≤ list_sum (map skipped_calls l)) as Hle.
    { induction l as [|[] l IH]; simpl; lia. }
    specialize (Hle method_calls). lia.
Qed.

(** A real [torch.nn.functional.prelu] whose original method calls two
    hooked methods, one of which calls a third. *)
Lemma wrapper_real_runs_once_witness :
  lock (wrapper
          (Call "torch.nn.functional.prelu" true [0; 1] [] 5
             [Call "torch.Tensor.max" true [1] [] 2
                [Call "torch.max" true [1] [] 2 [] []] [];
              Call "torch.Tensor.__getitem__" true [2; 3] [] 4 [] []]
             [])
          (HookCtx false None None None None [] [])).2 = false
  ∧ converted (wrapper
          (Call "torch.nn.functional.prelu" true [0; 1] [] 5
             [Call "torch.Tensor.max" true [1] [] 2
                [Call "torch.max" true [1] [] 2 [] []] [];
              Call "torch.Tensor.__getitem__" true [2; 3] [] 4 [] []]
             [])
          (HookCtx false None None None None [] [])).2
    = ["torch.nn.functional.prelu"].
Proof.
  destruct (wrapper_real_runs_once "torch.nn.functional.prelu" [0; 1] [] 5
              [Call "torch.Tensor.max" true [1] [] 2
                 [Call "torch.max" true [1] [] 2 [] []] [];
               Call "torch.Tensor.__getitem__" true [2; 3] [] 4 [] []]
              [] (HookCtx false None None None None [] []) eq_refl)
    as (Hl & Hc & _ & _).
  split; [exact Hl|exact Hc].
Defined.

End Hooks.

(** ** The element type chosen by [check_torch_dtype] *)

Section CheckDtype.

Import Torch2trt.

Lemma scalars_dtype_Some d tensors : scalars_dtype (Some d) tensors = Some d.
Proof.
  induction tensors as [|[t|[v|v]|] rest IH]; simpl; auto.
Qed.

Lemma tensors_dtype_Some_agree d tensors :
  (∀ t, In (OTensor t) tensors → dtype t = d) →
  tensors_dtype (Some d) tensors = inr (Some d).
Proof.
  induction tensors as [|[t|v|] rest IH]; simpl; intros H; auto.
  rewrite decide_True by (symmetry; apply H; auto).
  apply IH. intros t' Ht'. apply H. auto.
Qed.

Lemma tensors_dtype_Some_differ d tensors t :
  In (OTensor t) tensors → dtype t ≠ d →
  tensors_dtype (Some d) tensors = inl DtypeMismatch.
Proof.
  induction tensors as [|[t'|v|] rest IH]; simpl; intros Hin Hne.
  - done.
  - destruct (decide (d = dtype t')) as [->|]; [|done].
    destruct Hin as [[= ->]|Hin]; [done|]. by apply IH.
  - destruct Hin as [|Hin]; [done|]. by apply IH.
  - destruct Hin as [|Hin]; [done|]. by apply IH.
Qed.

Lemma tensors_dtype_None_differ tensors t1 t2 :
  In (OTensor t1) tensors → In (OTensor t2) tensors → dtype t1 ≠ dtype t2 →
  tensors_dtype None tensors = inl DtypeMismatch.
Proof.
  induction tensors as [|[t'|v|] rest IH]; simpl; intros H1 H2 Hne.
  - done.
  - destruct (decide (dtype t1 = dtype t')) as [E1|E1].
    + destruct H2 as [[= ->]|H2]; [done|].
      apply (tensors_dtype_Some_differ _ _ t2); [done|congruence].
    + destruct H1 as [[= ->]|H1]; [done|].
      by apply (tensors_dtype_Some_differ _ _ t1).
  - destruct H1 as [|H1]; [done|]. destruct H2 as [|H2]; [done|]. by apply IH.
  - destruct H1 as [|H1]; [done|]. destruct H2 as [|H2]; [done|]. by apply IH.
Qed.

Lemma tensors_dtype_None_agree tensors :
  (∀ t1 t2, In (OTensor t1) tensors → In (OTensor t2) tensors →
            dtype t1 = dtype t2) →
  (∀ t, In (OTensor t) tensors → tensors_dtype None tensors = inr (Some (dtype t)))
  ∧ ((∀ t, ¬ In (OTensor t) tensors) → tensors_dtype None tensors = inr None).
Proof.
  induction tensors as [|[t'|v|] rest IH]; simpl; intros H.
  - split; [by intros ? []|done].
  - split.
    + intros t Ht.
      rewrite (tensors_dtype_Some_agree (dtype t')).
      * f_equal. f_equal. apply H; auto.
      * intros t0 Ht0. apply H; auto.
    + intros Hno. exfalso. apply (Hno t'). auto.
  - destruct IH as [IH1 IH2]; [intros; apply H; auto|]. split.
    + intros t [|Ht]; [done|]. by apply IH1.
    + intros Hno. apply IH2. intros t Ht. apply (Hno t). auto.
  - destruct IH as [IH1 IH2]; [intros; apply H; auto|]. split.
    + intros t [|Ht]; [done|]. by apply IH1.
    + intros Hno. apply IH2. intros t Ht. apply (Hno t). auto.
Qed.

Lemma tensors_dtype_scalars (vs : list scalar) dt :
  tensors_dtype dt (map OScalar vs) = inr dt.
Proof. induction vs as [|v vs IH]; simpl; auto. Qed.

(** C6, as the code has it. When every operand is a Python scalar, the
    common element type is the type of the first scalar in the order given:
    floating if the first scalar is a float, integer if it is an int; later
    scalars do not change it. *)
Theorem check_torch_dtype_first_scalar (v : scalar) (vs : list scalar) :
  check_torch_dtype (map OScalar (v :: vs)) = inr (scalar_dtype v)
  ∧ (is_float v = true →
     check_torch_dtype (map OScalar (v :: vs)) = inr float32)
  ∧ (is_float v = false →
     check_torch_dtype (map OScalar (v :: vs)) = inr int32).
Proof.
  assert (check_torch_dtype (map OScalar (v :: vs)) = inr (scalar_dtype v))
    as H.
  { unfold check_torch_dtype. rewrite tensors_dtype_scalars.
    destruct v; simpl; by rewrite scalars_dtype_Some. }
  split; [exact H|]. rewrite H.
  split; destruct v; simpl; intros; congruence.
Qed.

Lemma check_torch_dtype_first_scalar_witness :
  check_torch_dtype (map OScalar [SInt 1; SFloat (5 # 2)]) = inr int32.
Proof.
  exact (proj2 (proj2 (check_torch_dtype_first_scalar
                         (SInt 1) [SFloat (5 # 2)])) eq_refl).
Defined.

(** C6 as stated fails: an int before a float gives the integer type although
    a float scalar is present, and swapping the two changes the result. *)
Lemma check_torch_dtype_order_matters :
  check_torch_dtype (map OScalar [SInt 1; SFloat (5 # 2)])
    ≠ inr (if existsb is_float [SInt 1; SFloat (5 # 2)]
           then float32 else int32)
  ∧ check_torch_dtype (map OScalar [SInt 1; SFloat (5 # 2)]) = inr int32
  ∧ check_torch_dtype (map OScalar [SFloat (5 # 2); SInt 1]) = inr float32.
Proof. repeat split. discriminate. Qed.

End CheckDtype.

(** ** The broadcast resolver [trt_] *)

Section Resolver.

Import Torch2trt.

Lemma bind_Ok {A B} (m : M A) (k : A → M B) s b s' :
  bind m k s = Ok b s' ↔ ∃ a s1, m s = Ok a s1 ∧ k a s1 = Ok b s'.
Proof.
  unfold bind. destruct (m s) as [a s1|e s1]; split.
  - eauto.
  - by intros (? & ? & [= <- <-] & ?).
  - done.
  - by intros (? & ? & ? & ?).
Qed.

Lemma trt__unfold tensors s :
  trt_ tensors s =
    match check_torch_dtype tensors with
    | inl e => Raise e s
    | inr dt =>
        match trt_tensors dt (broadcast_num_dim s 0 tensors) tensors s with
        | Ok hs s' => Ok (unwrap_single hs) s'
        | Raise e s' => Raise e s'
        end
    end.
Proof.
  unfold trt_, bind, lift. destruct (check_torch_dtype tensors); reflexivity.
Qed.

(** The first half of the loop body, case by case. *)
Lemma get_trt_tensor_bound dt t h s :
  trt_attr s !! tid t = Some h → get_trt_tensor dt (OTensor t) s = Ok h s.
Proof. intros H. unfold get_trt_tensor, bind, get_trt. by rewrite H. Qed.

Lemma get_trt_tensor_leaf dt t s :
  trt_attr s !! tid t = None →
  get_trt_tensor dt (OTensor t) s
    = Ok (TrtTensor (length (network s)) (shape t))
         (State (network s ++ [LConstant (shape t) (WTensor (tid t))])
                (<[tid t := TrtTensor (length (network s)) (shape t)]>
                   (trt_attr s))).
Proof. intros H. unfold get_trt_tensor, bind, get_trt. by rewrite H. Qed.

Lemma get_trt_tensor_scalar dt v s :
  get_trt_tensor dt (OScalar v) s
    = Ok (TrtTensor (length (network s)) [1%Z])
         (State (network s ++ [LConstant [1%Z] (WScalar v dt)]) (trt_attr s)).
Proof. reflexivity. Qed.

Lemma make_broadcastable_spec b h s :
  ∃ h' s', make_broadcastable b h s = Ok h' s'
    ∧ trt_attr s' = trt_attr s
    ∧ trt_shape h' = repeat 1%Z (b - length (trt_shape h)) ++ trt_shape h
    ∧ (network s' = network s
       ∨ ∃ dims, network s' = network s ++ [LShuffle h dims])
    ∧ (b ≤ length (trt_shape h) → h' = h ∧ s' = s).
Proof.
  unfold make_broadcastable. case_decide as Hlt.
  - eexists _, _. split; [reflexivity|]. simpl.
    repeat split; eauto; lia.
  - exists h, s. split; [reflexivity|].
    replace (b - length (trt_shape h)) with 0 by lia. repeat split; eauto.
Qed.

(** The only error the loop of [trt_] raises is the last assertion. *)
Lemma trt_tensors_raise dt b tensors :
  ∀ s e s', trt_tensors dt b tensors s = Raise e s' → e = TensorNotCreated.
Proof.
  induction tensors as [|o rest IH]; intros s e s'; simpl; [done|].
  unfold bind at 1.
  destruct o as [t|v|].
  - destruct (trt_attr s !! tid t) as [h|] eqn:Hb.
    + rewrite (get_trt_tensor_bound _ _ h) by done.
      unfold bind at 1.
      destruct (make_broadcastable_spec b h s) as (h' & s1 & -> & _).
      unfold bind at 1. destruct (trt_tensors dt b rest s1) eqn:E; [done|].
      intros [= <- <-]. eauto.
    + rewrite get_trt_tensor_leaf by done.
      unfold bind at 1.
      destruct (make_broadcastable_spec b
                  (TrtTensor (length (network s)) (shape t))
                  (State (network s ++ [LConstant (shape t) (WTensor (tid t))])
                     (<[tid t := TrtTensor (length (network s)) (shape t)]>
                        (trt_attr s)))) as (h' & s1 & -> & _).
      unfold bind at 1. destruct (trt_tensors dt b rest s1) eqn:E; [done|].
      intros [= <- <-]. eauto.
  - rewrite get_trt_tensor_scalar.
    unfold bind at 1.
    destruct (make_broadcastable_spec b (TrtTensor (length (network s)) [1%Z])
                (State (network s ++ [LConstant [1%Z] (WScalar v dt)])
                   (trt_attr s))) as (h' & s1 & -> & _).
    unfold bind at 1. destruct (trt_tensors dt b rest s1) eqn:E; [done|].
    intros [= <- <-]. eauto.
  - simpl. unfold raise. by intros [= <- <-].
Qed.

(** C9. If two tensor operands of [trt_] differ in element type, the
    assertion in [check_torch_dtype] fails and [trt_] raises at once: no
    layer has been added, no [_trt] set, nothing is returned.  If all tensor
    operands have the same element type, neither [check_torch_dtype] nor
    [trt_] raises that error. *)
Theorem trt_dtype_mismatch (tensors : list operand) (s : state) :
  (∀ t1 t2, In (OTensor t1) tensors → In (OTensor t2) tensors →
            dtype t1 ≠ dtype t2 →
            check_torch_dtype tensors = inl DtypeMismatch
            ∧ trt_ tensors s = Raise DtypeMismatch s)
  ∧ ((∀ t1 t2, In (OTensor t1) tensors → In (OTensor t2) tensors →
               dtype t1 = dtype t2) →
     check_torch_dtype tensors ≠ inl DtypeMismatch
     ∧ ∀ s', trt_ tensors s ≠ Raise DtypeMismatch s').
Proof.
  split.
  - intros t1 t2 H1 H2 Hne.
    assert (check_torch_dtype tensors = inl DtypeMismatch) as Hc.
    { unfold check_torch_dtype.
      by rewrite (tensors_dtype_None_differ tensors t1 t2). }
    split; [done|]. by rewrite trt__unfold, Hc.
  - intros Hagree.
    assert (check_torch_dtype tensors ≠ inl DtypeMismatch) as Hc.
    { unfold check_torch_dtype.
      destruct (tensors_dtype_None_agree tensors Hagree) as [H1 H2].
      destruct (tensor_operands tensors) as [|t ts] eqn:Ht.
      - rewrite H2.
        + by destruct (scalars_dtype None tensors).
        + intros t Hin.
          assert (t ∈ tensor_operands tensors) as Hel; [|by rewrite Ht in Hel; set_solver].
          apply list_elem_of_omap. exists (OTensor t).
          split; [by apply list_elem_of_In|done].
      - assert (t ∈ tensor_operands tensors) as Hel by (rewrite Ht; set_solver).
        apply list_elem_of_omap in Hel as (o & Ho & Hot).
        destruct o; simplify_eq.
        rewrite (H1 t) by (by apply list_elem_of_In).
        by rewrite scalars_dtype_Some. }
    split; [done|]. intros s'. rewrite trt__unfold.
    destruct (check_torch_dtype tensors) as [e|dt] eqn:E.
    + intros [= -> _]. done.
    + destruct (trt_tensors _ _ _ _) as [|e s1] eqn:E2; [done|].
      apply trt_tensors_raise in E2 as ->. done.
Qed.

Lemma trt_dtype_mismatch_witness :
  trt_ [OTensor (Tensor 0 [1; 3]%Z float32); OTensor (Tensor 1 [3]%Z int32)]
    (State [] ∅)
  = Raise DtypeMismatch (State [] ∅)
  ∧ trt_ [OTensor (Tensor 0 [1; 3]%Z float32); OTensor (Tensor 1 [3]%Z float32)]
      (State [] ∅)
    ≠ Raise DtypeMismatch (State [] ∅).
Proof.
  split.
  - refine (proj2 (proj1 (trt_dtype_mismatch _ (State [] ∅))
                     (Tensor 0 [1; 3]%Z float32) (Tensor 1 [3]%Z int32) _ _ _));
      simpl; auto; discriminate.
  - refine (proj2 (proj2 (trt_dtype_mismatch _ (State [] ∅)) _) _).
    intros t1 t2 [[= <-]|[[= <-]|[]]] [[= <-]|[[= <-]|[]]]; reflexivity.
Defined.

Lemma Forall2_impl_In {A B} (P Q : A → B → Prop) l k :
  Forall2 P l k → (∀ x y, In y k → P x y → Q x y) → Forall2 Q l k.
Proof.
  induction 1 as [|x y l k Hxy _ IH]; intros Himp; constructor.
  - apply Himp; [by left|done].
  - apply IH. intros x' y' Hin. apply Himp. by right.
Qed.

Lemma trt_tensors_cons dt b o rest s :
  trt_tensors dt b (o :: rest) s =
    match get_trt_tensor dt o s with
    | Ok h s1 =>
        match make_broadcastable b h s1 with
        | Ok h' s2 =>
            match trt_tensors dt b rest s2 with
            | Ok hs s3 => Ok (h' :: hs) s3
            | Raise e s3 => Raise e s3
            end
        | Raise e s2 => Raise e s2
        end
    | Raise e s1 => Raise e s1
    end.
Proof.
  simpl. unfold bind.
  destruct (get_trt_tensor dt o s) as [h s1|]; [|done].
  destruct (make_broadcastable b h s1) as [h' s2|]; [|done].
  by destruct (trt_tensors dt b rest s2).
Qed.

Lemma operand_shape_attr s1 s2 o :
  trt_attr s1 = trt_attr s2 → operand_shape s1 o = operand_shape s2 o.
Proof. intros H. destruct o; simpl; by rewrite ?H. Qed.

Lemma num_dim_operand_shape s t :
  num_dim s t = length (operand_shape s (OTensor t)).
Proof. unfold num_dim. simpl. by destruct (trt_attr s !! tid t). Qed.

Lemma broadcast_num_dim_max s tensors :
  ∀ b, broadcast_num_dim s b tensors
       = b `max` max_list (map (num_dim s) (tensor_operands tensors)).
Proof.
  induction tensors as [|[t|v|] rest IH]; intros b; simpl.
  - lia.
  - rewrite IH. case_decide; lia.
  - apply IH.
  - apply IH.
Qed.

Lemma num_dim_le_broadcast s tensors t :
  In (OTensor t) tensors → num_dim s t ≤ broadcast_num_dim s 0 tensors.
Proof.
  intros Hin. rewrite broadcast_num_dim_max. simpl.
  apply max_list_elem_of_le, list_elem_of_fmap. exists t. split; [done|].
  apply list_elem_of_omap. exists (OTensor t).
  split; [by apply list_elem_of_In|done].
Qed.

(** The tensor obtained for an operand has the operand's own shape, and
    binding a leaf does not change the own shape of any operand. *)
Lemma get_trt_tensor_shape all dt o s h s1 :
  same_object_same_shape all → In o all →
  get_trt_tensor dt o s = Ok h s1 →
  trt_shape h = operand_shape s o
  ∧ ∀ o', In o' all → operand_shape s1 o' = operand_shape s o'.
Proof.
  intros Hwf Hin. destruct o as [t|v|].
  - destruct (trt_attr s !! tid t) as [h0|] eqn:Hb.
    + rewrite (get_trt_tensor_bound _ _ h0) by done. intros [= <- <-].
      simpl. by rewrite Hb.
    + rewrite get_trt_tensor_leaf by done. intros [= <- <-].
      simpl. rewrite Hb. split; [done|].
      intros [t'|v'|] Hin'; simpl; try done.
      destruct (decide (tid t = tid t')) as [E|E].
      * rewrite E, lookup_insert_eq. rewrite <- E, Hb. simpl.
        by apply Hwf.
      * by rewrite lookup_insert_ne.
  - rewrite get_trt_tensor_scalar. intros [= <- <-]. split; [done|].
    intros o' _. by apply operand_shape_attr.
  - done.
Qed.

Lemma trt_tensors_shapes all dt b :
  same_object_same_shape all →
  ∀ l s hs s',
    (∀ o, In o l → In o all) →
    trt_tensors dt b l s = Ok hs s' →
    (∀ o, In o all → operand_shape s' o = operand_shape s o)
    ∧ Forall2 (fun h o =>
                 trt_shape h
                 = repeat 1%Z (b - length (operand_shape s o))
                     ++ operand_shape s o) hs l.
Proof.
  intros Hwf. induction l as [|o rest IH]; intros s hs s' Hsub.
  - simpl. intros [= <- <-]. split; [done|constructor].
  - rewrite trt_tensors_cons.
    destruct (get_trt_tensor dt o s) as [h s1|] eqn:Hg; [|done].
    destruct (make_broadcastable_spec b h s1)
      as (h' & s2 & -> & Hattr & Hshape & _).
    destruct (trt_tensors dt b rest s2) as [hs' s3|] eqn:Hrest; [|done].
    intros [= <- <-].
    apply (get_trt_tensor_shape all) in Hg as [Hh Hkeep];
      [|done|apply Hsub; by left].
    apply IH in Hrest as [Hkeep' Hall]; [|intros; apply Hsub; by right].
    assert (∀ o', In o' all → operand_shape s2 o' = operand_shape s o')
      as Hkeep2.
    { intros o' Ho'. rewrite <- (Hkeep o' Ho').
      by apply operand_shape_attr. }
    split.
    + intros o' Ho'. by rewrite Hkeep', Hkeep2.
    + constructor.
      * by rewrite Hshape, Hh.
      * eapply Forall2_impl_In; [exact Hall|]. simpl.
        intros h0 o0 Hin Hh0. rewrite Hh0.
        rewrite Hkeep2; [done|]. apply Hsub. by right.
Qed.

Lemma trt_wrap_returned hs : returned (unwrap_single hs) = hs.
Proof. by destruct hs as [|? []]. Qed.

(** C7, as the code has it. The target rank is the maximum, over the tensor
    operands, of the rank of the operand's own tensor of the network (the
    rank of [t._trt], or the host rank of a leaf).  Every returned tensor has
    the operand's own shape with dimensions of size 1 prepended up to the
    target rank, so its trailing dimensions are the operand's own shape in
    order; its rank is the larger of the target rank and the operand's own
    rank, which is the target rank for every tensor operand, and for every
    operand once the target rank is at least 1 (a scalar has rank 1). *)
Theorem trt_broadcast_rank (tensors : list operand) (s s' : state)
    (r : trt_return) :
  same_object_same_shape tensors →
  trt_ tensors s = Ok r s' →
  broadcast_num_dim s 0 tensors
    = max_list (map (fun t => length (operand_shape s (OTensor t)))
                  (tensor_operands tensors))
  ∧ Forall2 (fun h o =>
       trt_shape h
         = repeat 1%Z (broadcast_num_dim s 0 tensors
                       - length (operand_shape s o)) ++ operand_shape s o
       ∧ length (trt_shape h)
         = broadcast_num_dim s 0 tensors `max` length (operand_shape s o)
       ∧ drop (length (trt_shape h) - length (operand_shape s o))
              (trt_shape h) = operand_shape s o
       ∧ ((∃ t, o = OTensor t) ∨ 1 ≤ broadcast_num_dim s 0 tensors →
          length (trt_shape h) = broadcast_num_dim s 0 tensors))
     (returned r) tensors.
Proof.
  intros Hwf. rewrite trt__unfold.
  destruct (check_torch_dtype tensors) as [|dt]; [done|].
  set (b := broadcast_num_dim s 0 tensors).
  destruct (trt_tensors dt b tensors s) as [hs s1|] eqn:Hl; [|done].
  intros [= <- <-]. rewrite trt_wrap_returned. split.
  - unfold b. rewrite broadcast_num_dim_max. simpl. f_equal.
    apply map_ext. intros t. apply num_dim_operand_shape.
  - apply (trt_tensors_shapes tensors) in Hl as [_ Hall]; [|done..].
    eapply Forall2_impl_In; [exact Hall|]. simpl.
    intros h o Hin Hh.
    assert (length (trt_shape h) = b `max` length (operand_shape s o)) as Hlen.
    { rewrite Hh, length_app, repeat_length. lia. }
    split; [done|]. split; [done|]. split.
    + rewrite Hh at 2. rewrite Hlen.
      rewrite drop_app_length'; [done|]. rewrite repeat_length. lia.
    + rewrite Hlen. intros [[t ->]|Hb].
      * pose proof (num_dim_le_broadcast s tensors t Hin) as Hle.
        rewrite num_dim_operand_shape in Hle. fold b in Hle. lia.
      * destruct o as [t|v|]; simpl.
        -- pose proof (num_dim_le_broadcast s tensors t Hin) as Hle.
           rewrite num_dim_operand_shape in Hle. fold b in Hle.
           simpl in Hle. lia.
        -- lia.
        -- lia.
Qed.

(** A rank-3 traced tensor, a rank-1 leaf and a scalar. *)
Lemma trt_broadcast_rank_witness :
  Forall2 (fun h o => length (trt_shape h) = 3)
    [TrtTensor 0 [1; 3; 3]%Z; TrtTensor 2 [1; 1; 3]%Z; TrtTensor 4 [1; 1; 1]%Z]
    [OTensor (Tensor 0 [1; 3; 3]%Z float32); OTensor (Tensor 1 [3]%Z float32);
     OScalar (SFloat 2)].
Proof.
  edestruct (trt_broadcast_rank
    [OTensor (Tensor 0 [1; 3; 3]%Z float32); OTensor (Tensor 1 [3]%Z float32);
     OScalar (SFloat 2)]
    (State [LInput [1; 3; 3]%Z] {[0 := TrtTensor 0 [1; 3; 3]%Z]})
    (State [LInput [1; 3; 3]%Z; LConstant [3]%Z (WTensor 1);
            LShuffle (TrtTensor 1 [3]%Z) [1; 1; 3]%Z;
            LConstant [1]%Z (WScalar (SFloat 2) float32);
            LShuffle (TrtTensor 3 [1]%Z) [1; 1; 1]%Z]
       (<[1 := TrtTensor 1 [3]%Z]> {[0 := TrtTensor 0 [1; 3; 3]%Z]}))
    (Many [TrtTensor 0 [1; 3; 3]%Z; TrtTensor 2 [1; 1; 3]%Z;
           TrtTensor 4 [1; 1; 1]%Z])) as [_ Hall].
  - intros t1 t2 [[= <-]|[[= <-]|[|[]]]] [[= <-]|[[= <-]|[|[]]]]; done.
  - vm_compute. reflexivity.
  - simpl in Hall. eapply Forall2_impl; [exact Hall|].
    simpl. intros h o (_ & _ & _ & Hr). apply Hr. right.
    vm_compute. lia.
Defined.

(** C7 as stated fails: with two scalars and no tensor the target rank is 0
    and both returned tensors have rank 1. *)
Lemma trt_scalars_exceed_target_rank :
  trt_ [OScalar (SFloat 1); OScalar (SInt 2)] (State [] ∅)
    = Ok (Many [TrtTensor 0 [1%Z]; TrtTensor 1 [1%Z]])
         (State [LConstant [1%Z] (WScalar (SFloat 1) float32);
                 LConstant [1%Z] (WScalar (SInt 2) float32)] ∅)
  ∧ broadcast_num_dim (State [] ∅) 0 [OScalar (SFloat 1); OScalar (SInt 2)] = 0
  ∧ Forall (fun h => length (trt_shape h)
                     ≠ broadcast_num_dim (State [] ∅) 0
                         [OScalar (SFloat 1); OScalar (SInt 2)])
      [TrtTensor 0 [1%Z]; TrtTensor 1 [1%Z]].
Proof.
  split; [reflexivity|]. split; [reflexivity|].
  repeat constructor; simpl; lia.
Qed.

(** *** Leaf tensors are materialized once *)

Lemma tensor_constants_snoc k net l :
  tensor_constants k (net ++ [l])
  = tensor_constants k net + (if holds_tensor k l then 1 else 0).
Proof.
  unfold tensor_constants. rewrite filter_app, length_app. f_equal.
  rewrite filter_cons, filter_nil. by destruct (holds_tensor k l).
Qed.

Lemma scalar_constants_snoc net l :
  scalar_constants (net ++ [l])
  = scalar_constants net + (if holds_scalar l then 1 else 0).
Proof.
  unfold scalar_constants. rewrite filter_app, length_app. f_equal.
  rewrite filter_cons, filter_nil. by destruct (holds_scalar l).
Qed.

Lemma get_trt_tensor_keeps k h dt o s :
  trt_attr s !! k = Some h →
  keeps k h s (final_state (get_trt_tensor dt o s)).
Proof.
  intros Hk. destruct o as [t|v|].
  - destruct (trt_attr s !! tid t) as [h0|] eqn:Hb.
    + by rewrite (get_trt_tensor_bound _ _ h0).
    + rewrite get_trt_tensor_leaf by done.
      assert (tid t ≠ k) by congruence.
      split; simpl.
      * by rewrite lookup_insert_ne.
      * rewrite tensor_constants_snoc. simpl.
        rewrite bool_decide_eq_false_2 by done. lia.
  - rewrite get_trt_tensor_scalar. split; simpl; [done|].
    rewrite tensor_constants_snoc. simpl. lia.
  - done.
Qed.

Lemma make_broadcastable_keeps k h b h0 s :
  trt_attr s !! k = Some h →
  keeps k h s (final_state (make_broadcastable b h0 s)).
Proof.
  intros Hk.
  destruct (make_broadcastable_spec b h0 s) as (h' & s' & -> & Ha & _ & Hn & _).
  split; simpl; [by rewrite Ha|].
  destruct Hn as [->|[dims ->]]; [done|].
  rewrite tensor_constants_snoc. simpl. lia.
Qed.

Lemma trt_tensors_keeps k h dt b tensors :
  ∀ s, trt_attr s !! k = Some h →
       keeps k h s (final_state (trt_tensors dt b tensors s)).
Proof.
  induction tensors as [|o rest IH]; intros s Hk; [done|].
  rewrite trt_tensors_cons.
  destruct (get_trt_tensor_keeps k h dt o s Hk) as [Hk1 Hc1].
  destruct (get_trt_tensor dt o s) as [h1 s1|]; [|done]. simpl in Hk1, Hc1.
  destruct (make_broadcastable_keeps k h b h1 s1 Hk1) as [Hk2 Hc2].
  destruct (make_broadcastable b h1 s1) as [h2 s2|]; simpl in Hk2, Hc2;
    [|split; simpl; congruence].
  destruct (IH s2 Hk2) as [Hk3 Hc3].
  destruct (trt_tensors dt b rest s2) as [hs s3|]; simpl in Hk3, Hc3;
    split; simpl; congruence.
Qed.

Lemma trt_keeps k h tensors s :
  trt_attr s !! k = Some h → keeps k h s (final_state (trt_ tensors s)).
Proof.
  intros Hk. rewrite trt__unfold.
  destruct (check_torch_dtype tensors) as [|dt]; [done|].
  pose proof (trt_tensors_keeps k h dt (broadcast_num_dim s 0 tensors)
                tensors s Hk) as H.
  by destruct (trt_tensors _ _ _ _).
Qed.

Lemma make_broadcastable_id b h s :
  b ≤ length (trt_shape h) → make_broadcastable b h s = Ok h s.
Proof. intros H. unfold make_broadcastable. by rewrite decide_False by lia. Qed.

Lemma trt_single_bound t h s :
  trt_attr s !! tid t = Some h → trt_ [OTensor t] s = Ok (One h) s.
Proof.
  intros Hb. rewrite trt__unfold.
  change (check_torch_dtype [OTensor t]) with (@inr exn _ (dtype t)).
  cbv match.
  rewrite trt_tensors_cons, (get_trt_tensor_bound _ _ h) by done.
  rewrite make_broadcastable_id; [done|].
  simpl. unfold num_dim. rewrite Hb. case_decide; lia.
Qed.

Lemma trt_single_leaf t s :
  trt_attr s !! tid t = None →
  trt_ [OTensor t] s
  = Ok (One (TrtTensor (length (network s)) (shape t)))
       (State (network s ++ [LConstant (shape t) (WTensor (tid t))])
              (<[tid t := TrtTensor (length (network s)) (shape t)]>
                 (trt_attr s))).
Proof.
  intros Hb. rewrite trt__unfold.
  change (check_torch_dtype [OTensor t]) with (@inr exn _ (dtype t)).
  cbv match.
  rewrite trt_tensors_cons, get_trt_tensor_leaf by done.
  rewrite make_broadcastable_id; [done|].
  simpl. unfold num_dim. rewrite Hb. case_decide; lia.
Qed.

(** C8. A leaf tensor [t] (no [_trt] yet) consumed by [trt_] gets one
    constant layer, whose output is stored as [t._trt].  Consuming it again,
    in the same call or in a later one, returns that same tensor of the
    network and adds nothing; and whatever operands [trt_] is called with
    afterwards, [t._trt] stays that tensor and no second constant holding
    [t] is ever added. *)
Theorem leaf_constant_created_once (t : tensor) (s : state) :
  trt_attr s !! tid t = None →
  ∃ h s1,
    h = TrtTensor (length (network s)) (shape t)
    ∧ s1 = State (network s ++ [LConstant (shape t) (WTensor (tid t))])
                 (<[tid t := h]> (trt_attr s))
    ∧ trt_ [OTensor t] s = Ok (One h) s1
    ∧ trt_ [OTensor t] s1 = Ok (One h) s1
    ∧ trt_ [OTensor t; OTensor t] s = Ok (Many [h; h]) s1
    ∧ tensor_constants (tid t) (network s1)
      = S (tensor_constants (tid t) (network s))
    ∧ ∀ tensors s2,
        trt_attr s2 !! tid t = Some h →
        trt_attr (final_state (trt_ tensors s2)) !! tid t = Some h
        ∧ tensor_constants (tid t) (network (final_state (trt_ tensors s2)))
          = tensor_constants (tid t) (network s2).
Proof.
  intros Hb. eexists _, _. split; [reflexivity|]. split; [reflexivity|].
  set (h := TrtTensor _ _). set (s1 := State _ _).
  assert (trt_attr s1 !! tid t = Some h) as Hb1 by apply lookup_insert_eq.
  assert (check_torch_dtype [OTensor t] = inr (dtype t)) as Hc1 by done.
  assert (check_torch_dtype [OTensor t; OTensor t] = inr (dtype t)) as Hc2.
  { unfold check_torch_dtype. simpl. by rewrite decide_True. }
  assert (∀ s', num_dim s' t ≤ length (shape t) →
            broadcast_num_dim s' 0 [OTensor t] ≤ length (shape t)
            ∧ broadcast_num_dim s' 0 [OTensor t; OTensor t] ≤ length (shape t))
    as Hbr.
  { intros s' Hn. simpl. repeat case_decide; lia. }
  assert (num_dim s t ≤ length (shape t)) as Hn.
  { unfold num_dim. by rewrite Hb. }
  assert (num_dim s1 t ≤ length (shape t)) as Hn1.
  { unfold num_dim. by rewrite Hb1. }
  destruct (Hbr s Hn) as [Hbs Hbs2]. destruct (Hbr s1 Hn1) as [Hbs1 _].
  repeat split.
  - rewrite trt__unfold, Hc1, trt_tensors_cons, get_trt_tensor_leaf by done.
    fold h s1. by rewrite make_broadcastable_id.
  - rewrite trt__unfold, Hc1, trt_tensors_cons,
      (get_trt_tensor_bound _ _ h) by done.
    by rewrite make_broadcastable_id.
  - rewrite trt__unfold, Hc2, trt_tensors_cons, get_trt_tensor_leaf by done.
    fold h s1. rewrite make_broadcastable_id by done.
    rewrite trt_tensors_cons, (get_trt_tensor_bound _ _ h) by done.
    by rewrite make_broadcastable_id.
  - unfold s1. simpl. rewrite tensor_constants_snoc. simpl.
    rewrite bool_decide_eq_true_2 by done. lia.
  - by apply (trt_keeps (tid t) h).
  - by apply (trt_keeps (tid t) h).
Qed.

Lemma leaf_constant_created_once_witness :
  trt_ [OTensor (Tensor 7 [3]%Z float32)]
       (State [LConstant [3]%Z (WTensor 7)] {[7 := TrtTensor 0 [3]%Z]})
  = Ok (One (TrtTensor 0 [3]%Z))
       (State [LConstant [3]%Z (WTensor 7)] {[7 := TrtTensor 0 [3]%Z]}).
Proof.
  destruct (leaf_constant_created_once (Tensor 7 [3]%Z float32) (State [] ∅))
    as (h & s1 & -> & -> & _ & H & _).
  - vm_compute. reflexivity.
  - exact H.
Defined.

(** *** Scalars are materialized every time *)

Lemma broadcast_num_dim_scalars s (vs : list scalar) b :
  broadcast_num_dim s b (map OScalar vs) = b.
Proof. induction vs as [|v vs IH]; simpl; auto. Qed.

Lemma trt_tensors_scalars dt (vs : list scalar) :
  ∀ s, trt_tensors dt 0 (map OScalar vs) s
       = Ok (map (fun i => TrtTensor i [1%Z])
               (seq (length (network s)) (length vs)))
            (State (network s
                      ++ map (fun v => LConstant [1%Z] (WScalar v dt)) vs)
                   (trt_attr s)).
Proof.
  induction vs as [|v vs IH]; intros s.
  - simpl. unfold ret. rewrite app_nil_r. by destruct s.
  - change (map OScalar (v :: vs)) with (OScalar v :: map OScalar vs).
    rewrite trt_tensors_cons, get_trt_tensor_scalar.
    rewrite make_broadcastable_id by (simpl; lia).
    rewrite IH. simpl. rewrite length_app, <- app_assoc. simpl.
    by rewrite Nat.add_1_r.
Qed.

(** Every scalar operand of a call of [trt_] that returns adds one constant
    layer holding a scalar, whatever the other operands are. *)
Lemma trt_tensors_scalar_constants dt b tensors :
  ∀ s hs s',
    trt_tensors dt b tensors s = Ok hs s' →
    scalar_constants (network s')
    = scalar_constants (network s) + length (scalar_operands tensors).
Proof.
  induction tensors as [|o rest IH]; intros s hs s'.
  - simpl. intros [= <- <-]. lia.
  - rewrite trt_tensors_cons.
    destruct (get_trt_tensor dt o s) as [h s1|] eqn:Hg; [|done].
    destruct (make_broadcastable_spec b h s1)
      as (h' & s2 & -> & _ & _ & Hn & _).
    destruct (trt_tensors dt b rest s2) as [hs' s3|] eqn:Hrest; [|done].
    intros [= <- <-]. rewrite (IH _ _ _ Hrest).
    assert (scalar_constants (network s2) = scalar_constants (network s1))
      as ->.
    { destruct Hn as [->|[dims ->]]; [done|].
      rewrite scalar_constants_snoc. simpl. lia. }
    destruct o as [t|v|].
    + destruct (trt_attr s !! tid t) as [h0|] eqn:Hb.
      * rewrite (get_trt_tensor_bound _ _ h0) in Hg by done.
        injection Hg as <- <-. simpl. lia.
      * rewrite get_trt_tensor_leaf in Hg by done.
        injection Hg as <- <-. simpl.
        rewrite scalar_constants_snoc. simpl. lia.
    + rewrite get_trt_tensor_scalar in Hg. injection Hg as <- <-. simpl.
      rewrite scalar_constants_snoc. simpl. lia.
    + done.
Qed.

(** C10. [trt_] called on scalars only (one or more) adds one constant layer
    of shape [(1,)] per scalar, returns the distinct outputs of these layers
    and sets no [_trt].  So the same scalar passed twice in one call, or in
    two calls, gives two constant layers and two different tensors of the
    network; and in a call with any operands that returns, the network gains
    one scalar constant per scalar operand. *)
Theorem scalar_constant_every_time (v : scalar) (vs : list scalar)
    (s : state) :
  (∃ hs,
     trt_ (map OScalar (v :: vs)) s
     = Ok (unwrap_single hs)
          (State (network s
                    ++ map (fun v' => LConstant [1%Z] (WScalar v' (scalar_dtype v)))
                         (v :: vs))
                 (trt_attr s))
     ∧ length hs = S (length vs)
     ∧ NoDup hs
     ∧ Forall (fun h => trt_shape h = [1%Z]) hs)
  ∧ trt_ [OScalar v; OScalar v] s
    = Ok (Many [TrtTensor (length (network s)) [1%Z];
                TrtTensor (S (length (network s))) [1%Z]])
         (State (network s ++ [LConstant [1%Z] (WScalar v (scalar_dtype v));
                              LConstant [1%Z] (WScalar v (scalar_dtype v))])
                (trt_attr s))
  ∧ (∃ s1,
       trt_ [OScalar v] s = Ok (One (TrtTensor (length (network s)) [1%Z])) s1
       ∧ trt_ [OScalar v] s1
         = Ok (One (TrtTensor (S (length (network s))) [1%Z]))
              (State (network s
                        ++ [LConstant [1%Z] (WScalar v (scalar_dtype v));
                            LConstant [1%Z] (WScalar v (scalar_dtype v))])
                     (trt_attr s)))
  ∧ ∀ tensors r s',
      trt_ tensors s = Ok r s' →
      scalar_constants (network s')
      = scalar_constants (network s) + length (scalar_operands tensors).
Proof.
  assert (∀ (ws : list scalar) s0,
            trt_ (map OScalar (v :: ws)) s0
            = Ok (unwrap_single
                    (map (fun i => TrtTensor i [1%Z])
                       (seq (length (network s0)) (S (length ws)))))
                 (State (network s0
                           ++ map (fun v' => LConstant [1%Z]
                                               (WScalar v' (scalar_dtype v)))
                                (v :: ws))
                        (trt_attr s0))) as Hrun.
  { intros ws s0. rewrite trt__unfold.
    destruct (check_torch_dtype_first_scalar v ws) as [-> _].
    by rewrite broadcast_num_dim_scalars, trt_tensors_scalars. }
  split; [|split; [|split]].
  - eexists. split; [apply Hrun|]. split; [|split].
    + by rewrite length_map, length_seq.
    + apply NoDup_fmap_2; [|apply NoDup_seq]. by intros ?? [= ->].
    + apply Forall_fmap, Forall_forall. done.
  - apply (Hrun [v]).
  - eexists. split; [apply (Hrun [])|].
    rewrite (Hrun []). simpl. rewrite length_app, <- app_assoc. simpl.
    by rewrite Nat.add_1_r.
  - intros tensors r s'. rewrite trt__unfold.
    destruct (check_torch_dtype tensors) as [|dt]; [done|].
    destruct (trt_tensors _ _ _ _) as [hs s1|] eqn:E; [|done].
    intros [= <- <-]. by apply trt_tensors_scalar_constants in E.
Qed.

Lemma scalar_constant_every_time_witness :
  scalar_constants
    [LInput [1; 3]%Z; LConstant [1]%Z (WScalar (SInt 2) float32);
     LShuffle (TrtTensor 1 [1]%Z) [1; 1]%Z;
     LConstant [1]%Z (WScalar (SInt 2) float32);
     LShuffle (TrtTensor 3 [1]%Z) [1; 1]%Z]
  = 0 + 2.
Proof.
  refine (proj2 (proj2 (proj2 (scalar_constant_every_time (SInt 0) []
    (State [LInput [1; 3]%Z] {[0 := TrtTensor 0 [1; 3]%Z]}))))
    [OScalar (SInt 2); OTensor (Tensor 0 [1; 3]%Z float32); OScalar (SInt 2)]
    (Many [TrtTensor 2 [1; 1]%Z; TrtTensor 0 [1; 3]%Z; TrtTensor 4 [1; 1]%Z])
    (State _ {[0 := TrtTensor 0 [1; 3]%Z]}) _).
  vm_compute. reflexivity.
Defined.

End Resolver.

(** ** Normalization of the index expression *)

Section Normalize.

Import Torch2trt Getitem.
Local Open Scope Z_scope.

Lemma ellipsis_loop_closed fuel :
  ∀ n new_slices,
    (Z.to_nat n ≤ fuel)%nat →
    ellipsis_loop fuel n new_slices
    = (Z.min n 0, new_slices ++ repeat full_slice (Z.to_nat n)).
Proof.
  induction fuel as [|fuel IH]; intros n acc Hle; simpl.
  - replace (Z.to_nat n) with 0%nat by lia. simpl.
    rewrite app_nil_r. f_equal. lia.
  - case_decide as Hpos.
    + rewrite IH by lia. f_equal; [lia|].
      replace (Z.to_nat n) with (S (Z.to_nat (n - 1))) by lia.
      simpl. by rewrite <- app_assoc.
    + replace (Z.to_nat n) with 0%nat by lia. simpl.
      rewrite app_nil_r. f_equal. lia.
Qed.

Lemma replace_ellipsis_nonpos slices :
  ∀ n new_slices,
    n <= 0 →
    replace_ellipsis n new_slices slices = new_slices ++ flat_map kept slices.
Proof.
  induction slices as [|s rest IH]; intros n acc Hn; simpl.
  - by rewrite app_nil_r.
  - destruct s; simpl; try (rewrite IH by done; by rewrite <- app_assoc).
    rewrite ellipsis_loop_closed by lia.
    replace (Z.to_nat n) with 0%nat by lia. simpl. rewrite app_nil_r.
    apply IH. lia.
Qed.

Lemma replace_ellipsis_first pre post :
  forallb (fun s => negb (is_ellipsis s)) pre = true →
  ∀ n new_slices,
    replace_ellipsis n new_slices (pre ++ IEllipsis :: post)
    = new_slices ++ flat_map kept pre ++ repeat full_slice (Z.to_nat n)
        ++ flat_map kept post.
Proof.
  induction pre as [|s pre IH]; intros Hpre n acc; simpl.
  - rewrite ellipsis_loop_closed by lia.
    rewrite replace_ellipsis_nonpos by lia. by rewrite <- app_assoc.
  - simpl in Hpre. apply andb_prop in Hpre as [Hs Hpre].
    destruct s; simpl in *; try done;
      rewrite IH by done; by rewrite <- app_assoc.
Qed.

Lemma num_slice_types_snoc slices s :
  num_slice_types (slices ++ [s])
  = num_slice_types slices + (if is_slice_or_int s then 1 else 0).
Proof. induction slices as [|s' rest IH]; simpl; [|rewrite IH]; lia. Qed.

(** The bound on the rounds of the last loop of step 1 is never reached
    early: when [normalize] returns, the loop condition is false. *)
Lemma fill_missing_done fuel rank :
  ∀ new_slices,
    (Z.to_nat (rank - num_slice_types new_slices) ≤ fuel)%nat →
    rank <= num_slice_types (fill_missing fuel rank new_slices).
Proof.
  induction fuel as [|fuel IH]; intros l Hle; simpl.
  - lia.
  - case_decide as Hlt; [|lia].
    apply IH. rewrite num_slice_types_snoc. simpl. lia.
Qed.

Lemma num_slice_types_nonneg slices : 0 <= num_slice_types slices.
Proof.
  induction slices as [|s l IH]; simpl; [lia|].
  destruct (is_slice_or_int s); lia.
Qed.

Lemma normalize_covers input_shape slices :
  Z.of_nat (length input_shape)
  <= num_slice_types (normalize input_shape slices).
Proof.
  unfold normalize. apply fill_missing_done.
  pose proof (num_slice_types_nonneg
                (replace_ellipsis
                   (Z.of_nat (length input_shape) - num_slice_types slices)
                   [] slices)).
  lia.
Qed.

End Normalize.

(** ** The indexing converter *)

Section GetitemConverter.

Import Torch2trt Getitem.
Local Open Scope Z_scope.

(** C5, on an input where the code departs from it. Legacy mode, [x] of host
    shape (1,5,4) whose [_trt] has shape (5,4), and [x[:, 1:3]].  The
    normalized expression is [(:, 1:3, :)] and the claim has the slice layer
    built from [(1:3, :)], that is starts (1,0), sizes (2,4), strides (1,1).
    The converter drops the first element from [slices] only: the loop of
    step 3 still walks [new_slices], so the slice layer gets the triple of
    the batch element and of [1:3], and the last element is cut off. *)
Theorem getitem_legacy_slices_batch_element :
  convert_tensor_getitem false (Tensor 0 [1; 5; 4] float32)
    (Tuple [full_slice; ISlice (Some 1) (Some 3) None])
    (Tensor 1 [1; 2; 4] float32)
    (State [LInput [5; 4]] {[0%nat := TrtTensor 0 [5; 4]]})
  = Ok (TrtTensor 1 [1; 2])
       (State [LInput [5; 4];
               LSlice (TrtTensor 0 [5; 4]) [0; 1] [1; 2] [1; 1]]
          (<[1%nat := TrtTensor 1 [1; 2]]> {[0%nat := TrtTensor 0 [5; 4]]}))
  ∧ normalize [1; 5; 4] [full_slice; ISlice (Some 1) (Some 3) None]
    = [full_slice; ISlice (Some 1) (Some 3) None; full_slice]
  ∧ slice_loop [5; 4] 2 0 [] [] []
      (drop 1 (normalize [1; 5; 4] [full_slice; ISlice (Some 1) (Some 3) None]))
    = inr ([1; 0], [2; 4], [1; 1]).
Proof. split; [|split]; vm_compute; reflexivity. Qed.

End GetitemConverter.

Section GetitemGather.

Import Torch2trt Getitem.

(** *** The gather loop *)

Lemma trt_1_spec t s :
  ∃ h s1 cs,
    trt_1 t s = Ok h s1
    ∧ network s1 = network s ++ cs
    ∧ filter (fun l => is_gather l) cs = []
    ∧ trt_attr s1 !! tid t = Some h
    ∧ (∀ k h', trt_attr s !! k = Some h' → trt_attr s1 !! k = Some h')
    ∧ trt_shape h = operand_shape s (OTensor t).
Proof.
  unfold trt_1, bind. simpl. destruct (trt_attr s !! tid t) as [h|] eqn:Hb.
  - rewrite (trt_single_bound t h) by done.
    exists h, s, []. rewrite app_nil_r. by repeat split.
  - rewrite trt_single_leaf by done.
    eexists _, _, [_]. split; [reflexivity|]. simpl. repeat split.
    + apply lookup_insert_eq.
    + intros k h' Hk. rewrite lookup_insert_ne; [done|congruence].
Qed.

Lemma chained_skip data final cs :
  filter (fun l => is_gather l) cs = [] →
  ∀ n rest,
    chained data n (cs ++ rest) final
    ↔ chained data (n + length cs) rest final.
Proof.
  induction cs as [|c cs IH]; intros Hno n rest; simpl.
  - by rewrite Nat.add_0_r.
  - rewrite filter_cons in Hno.
    destruct c; simpl in Hno; try done;
      rewrite IH by done; by rewrite Nat.add_succ_r.
Qed.

Lemma chained_suffix data final ls sh :
  filter (fun l => is_gather l) sh = [] →
  ∀ n, chained data n ls final → chained data n (ls ++ sh) final.
Proof.
  intros Hno. revert data.
  induction ls as [|l ls IH]; intros data n; simpl.
  - intros ->. clear -Hno. revert n.
    induction sh as [|c sh IH]; intros n; simpl; [done|].
    rewrite filter_cons in Hno. destruct c; simpl in Hno; try done; by apply IH.
  - destruct l; try apply IH. intros [-> H]. split; [done|]. by apply IH.
Qed.

Lemma gather_loop_spec gidxs :
  ∀ out s,
  ∃ out' s' ls,
    gather_loop out gidxs s = Ok out' s'
    ∧ network s' = network s ++ ls
    ∧ (∀ k h, trt_attr s !! k = Some h → trt_attr s' !! k = Some h)
    ∧ Forall2 (fun l (et : nat * tensor) =>
                 ∃ d i, l = LGather d i et.1
                        ∧ trt_attr s' !! tid et.2 = Some i)
        (filter (fun l => is_gather l) ls) gidxs
    ∧ chained out (length (network s)) ls out'.
Proof.
  induction gidxs as [|[e t] rest IH]; intros out s.
  - exists out, s, []. rewrite app_nil_r. by repeat split.
  - simpl. unfold bind at 1.
    destruct (trt_1_spec t s) as (i & s1 & cs & -> & Hn1 & Hcs & Hi & Hmono & _).
    unfold bind at 1. unfold add_layer at 1.
    set (g := TrtTensor _ _). set (s2 := State _ _).
    destruct (IH g s2) as (out' & s' & ls & Hrun & Hn & Hmono' & Hall & Hch).
    exists out', s', (cs ++ LGather out i e :: ls).
    split; [done|]. split; [|split; [|split]].
    + rewrite Hn. unfold s2. simpl. rewrite Hn1.
      by rewrite <- !app_assoc.
    + intros k h Hk. apply Hmono', Hmono, Hk.
    + rewrite filter_app, Hcs, filter_cons. simpl.
      constructor; [|done].
      exists out, i. split; [done|]. apply Hmono'. exact Hi.
    + apply chained_skip; [done|]. simpl. split; [done|].
      unfold s2 in Hch. simpl in Hch.
      rewrite Hn1, !length_app in Hch. simpl in Hch.
      rewrite Nat.add_1_r in Hch.
      unfold g in Hch. rewrite Hn1, length_app in Hch. exact Hch.
Qed.

End GetitemGather.

(** ** Properties of the utility functions *)

Section UtilityFacts.

Import Torch2trt Utility.

(** X1. The two element-type conversions are inverse to each other wherever
    they return: a torch type that [torch_dtype_to_trt] accepts comes back
    from [torch_dtype_from_trt], and the other way round.  Each of them
    returns on the four types it names (int8, int32, float16, float32) and
    raises [TypeError] on every other type, whichever it is. *)
Theorem torch_dtype_round_trip :
  (∀ d t, torch_dtype_to_trt d = inr t → torch_dtype_from_trt t = inr d)
  ∧ (∀ t d, torch_dtype_from_trt t = inr d → torch_dtype_to_trt d = inr t)
  ∧ (∀ d, torch_dtype_to_trt d = inl PyTypeError
          ↔ d ≠ int8 ∧ d ≠ int32 ∧ d ≠ float16 ∧ d ≠ float32)
  ∧ (∀ t, torch_dtype_from_trt t = inl PyTypeError
          ↔ t ≠ trt_int8 ∧ t ≠ trt_int32 ∧ t ≠ trt_float16
            ∧ t ≠ trt_float32)
  ∧ (∀ d e, torch_dtype_to_trt d = inl e → e = PyTypeError)
  ∧ (∀ t e, torch_dtype_from_trt t = inl e → e = PyTypeError).
Proof.
  split; [|split; [|split; [|split; [|split]]]].
  - intros [] t [= <-]; reflexivity.
  - intros [] d [= <-]; reflexivity.
  - intros d. split.
    + intros H. repeat split; intros ->; discriminate.
    + intros (H1 & H2 & H3 & H4). destruct d; done.
  - intros t. split.
    + intros H. repeat split; intros ->; discriminate.
    + intros (H1 & H2 & H3 & H4). destruct t; done.
  - intros [] e [= <-]; reflexivity.
  - intros [] e [= <-]; reflexivity.
Qed.

Lemma torch_dtype_round_trip_witness :
  torch_dtype_from_trt trt_float16 = inr float16
  ∧ torch_dtype_to_trt int32 = inr trt_int32.
Proof.
  split.
  - exact (proj1 torch_dtype_round_trip float16 trt_float16 eq_refl).
  - exact (proj1 (proj2 torch_dtype_round_trip) trt_int32 int32 eq_refl).
Defined.

(** X2. Neither device function raises.  Converting a torch device to a
    location and back keeps the device type of a cuda or cpu device and
    drops its index, so the device comes back unchanged exactly when it is
    cuda or cpu without an index; for any other device both functions hand
    on the [TypeError] object.  A location converted to a device and back
    is unchanged. *)
Theorem torch_device_round_trip (d : device) :
  match torch_device_from_trt (torch_device_to_trt d) with
  | TorchDevice d' =>
      device_kind d' = device_kind d ∧ device_index d' = None
      ∧ device_kind d ≠ other_device
  | DeviceTypeError =>
      device_kind d = other_device
      ∧ torch_device_to_trt d = LocationTypeError
  end
  ∧ (torch_device_from_trt (torch_device_to_trt d) = TorchDevice d
     ↔ device_kind d ≠ other_device ∧ device_index d = None)
  ∧ ∀ l, match torch_device_from_trt (Location l) with
         | TorchDevice d' => torch_device_to_trt d' = Location l
         | DeviceTypeError => False
         end.
Proof.
  destruct d as [[] [i|]]; simpl; repeat split; try done;
    try (intros [= ]); try (intros [? ?]; done); by intros [].
Qed.

Lemma count_bindings_filter p bindings :
  ∀ count,
    count_bindings p bindings count
    = count + length (filter (fun i => p i = true) bindings).
Proof.
  induction bindings as [|i rest IH]; intros count; simpl; [lia|].
  rewrite IH, filter_cons. destruct (p i); simpl; lia.
Qed.

(** X3. Every binding of an engine is counted by exactly one of
    [trt_num_inputs] and [trt_num_outputs]. *)
Theorem trt_num_inputs_outputs (e : engine) :
  trt_num_inputs e + trt_num_outputs e = num_bindings e.
Proof.
  unfold trt_num_inputs, trt_num_outputs.
  rewrite !count_bindings_filter. simpl.
  transitivity (length (seq 0 (num_bindings e))); [|apply length_seq].
  generalize (seq 0 (num_bindings e)). intros l.
  induction l as [|i l IH]; simpl; [done|].
  rewrite !filter_cons.
  destruct (binding_is_input e i); simpl; repeat case_decide; try done;
    simpl; lia.
Qed.

(** The shift that [torch_dim_to_trt_axes] applies to a dimension. *)
Lemma axes_loop_bits (dyn : bool) (dim : list Z) :
  ∀ axes,
    (0 <= axes)%Z →
    Forall (fun d => (if dyn then 0 else 1) <= d)%Z dim →
    ∃ r, axes_loop dyn axes dim = inr r
         ∧ (0 <= r)%Z
         ∧ ∀ k, (0 <= k)%Z →
             (Z.testbit r k = true
              ↔ Z.testbit axes k = true
                ∨ In (k + (if dyn then 0 else 1))%Z dim).
Proof.
  induction dim as [|d rest IH]; intros axes Hax Hall; simpl.
  - exists axes. split; [done|]. split; [done|]. intros k _. tauto.
  - apply Forall_cons in Hall as [Hd Hrest].
    unfold shift_one. rewrite decide_False by (destruct dyn; lia).
    rewrite Z.shiftl_1_l.
    destruct (IH (Z.lor axes (2 ^ (if dyn then d else d - 1)))%Z)
      as (r & -> & Hr & Hbits); [|done|].
    { apply Z.lor_nonneg. split; [done|]. apply Z.pow_nonneg. lia. }
    exists r. split; [done|]. split; [done|]. intros k Hk.
    rewrite (Hbits k Hk), Z.lor_spec, orb_true_iff.
    rewrite Z.pow2_bits_eqb by (destruct dyn; lia).
    rewrite Z.eqb_eq. destruct dyn; split; intros H; intuition lia.
Qed.

Lemma axes_loop_raises (dyn : bool) (dim : list Z) :
  ∀ axes,
    axes_loop dyn axes dim = inl PyValueError
    ↔ Exists (fun d => d < (if dyn then 0 else 1))%Z dim.
Proof.
  induction dim as [|d rest IH]; intros axes; simpl.
  - split; [done|]. by intros ?%Exists_nil.
  - rewrite Exists_cons. unfold shift_one. case_decide as Hd.
    + split; [|done]. intros _. left. destruct dyn; lia.
    + rewrite IH. split; [tauto|]. intros [H|H]; [|done]. destruct dyn; lia.
Qed.

Lemma axes_loop_cases (dyn : bool) (dim : list Z) :
  Forall (fun d => (if dyn then 0 else 1) <= d)%Z dim
  ∨ Exists (fun d => d < (if dyn then 0 else 1))%Z dim.
Proof.
  induction dim as [|d rest [IH|IH]].
  - left. constructor.
  - destruct (decide (d < (if dyn then 0 else 1))%Z).
    + right. by left.
    + left. constructor; [lia|done].
  - right. by right.
Qed.

(** X4. [torch_dim_to_trt_axes] on dimensions that are all at least 0 (at
    least 1 when the batch dimension is implicit) returns a mask that is not
    negative and whose bit [k] is set exactly when dimension [k] (or [k+1]
    when the batch dimension is implicit) is among them; a single integer
    is treated as the tuple of that integer. *)
Theorem torch_dim_to_trt_axes_bits (dyn : bool) (dim : list Z) :
  Forall (fun d => (if dyn then 0 else 1) <= d)%Z dim →
  ∃ axes,
    torch_dim_to_trt_axes dyn (DimTuple dim) = inr axes
    ∧ (0 <= axes)%Z
    ∧ (∀ k, (0 <= k)%Z →
         (Z.testbit axes k = true ↔ In (k + (if dyn then 0 else 1))%Z dim))
    ∧ ∀ d, dim = [d] → torch_dim_to_trt_axes dyn (DimInt d) = inr axes.
Proof.
  intros Hall. unfold torch_dim_to_trt_axes.
  destruct (axes_loop_bits dyn dim 0 ltac:(done) Hall) as (r & Hr & Hpos & Hbits).
  exists r. split; [done|]. split; [done|]. split.
  - intros k Hk. rewrite (Hbits k Hk), Z.bits_0. split; [|auto].
    by intros [|].
  - by intros d ->.
Qed.

Lemma torch_dim_to_trt_axes_bits_witness :
  torch_dim_to_trt_axes false (DimTuple [1; 3]%Z) = inr 5%Z
  ∧ torch_dim_to_trt_axes true (DimTuple [1; 3]%Z) = inr 10%Z.
Proof.
  split.
  - destruct (torch_dim_to_trt_axes_bits false [1; 3]%Z) as (axes & H & _).
    + repeat constructor; simpl; lia.
    + rewrite H. f_equal. revert H. vm_compute. congruence.
  - destruct (torch_dim_to_trt_axes_bits true [1; 3]%Z) as (axes & H & _).
    + repeat constructor; simpl; lia.
    + rewrite H. f_equal. revert H. vm_compute. congruence.
Defined.

(** X5. [torch_dim_to_trt_axes] raises [ValueError] (negative shift count)
    exactly when some dimension is negative, or, with the batch dimension
    implicit, is 0 or negative; it raises nothing else. *)
Theorem torch_dim_to_trt_axes_raises (dyn : bool) (dim : list Z) :
  (torch_dim_to_trt_axes dyn (DimTuple dim) = inl PyValueError
   ↔ Exists (fun d => d < (if dyn then 0 else 1))%Z dim)
  ∧ (∀ e, torch_dim_to_trt_axes dyn (DimTuple dim) = inl e → e = PyValueError)
  ∧ torch_dim_to_trt_axes false (DimInt 0) = inl PyValueError.
Proof.
  split; [apply axes_loop_raises|]. split; [|reflexivity].
  intros e. unfold torch_dim_to_trt_axes.
  destruct (axes_loop_cases dyn dim) as [Hall|Hex].
  - destruct (axes_loop_bits dyn dim 0 ltac:(done) Hall) as (r & -> & _).
    done.
  - apply (axes_loop_raises dyn dim 0%Z) in Hex. rewrite Hex. congruence.
Qed.

(** X6. The mask depends only on which dimensions are named, not on their
    order or on repetitions. *)
Theorem torch_dim_to_trt_axes_set (dyn : bool) (dim dim' : list Z) :
  (∀ d, In d dim ↔ In d dim') →
  torch_dim_to_trt_axes dyn (DimTuple dim)
  = torch_dim_to_trt_axes dyn (DimTuple dim').
Proof.
  intros Hsame. unfold torch_dim_to_trt_axes.
  destruct (axes_loop_cases dyn dim) as [Hall|Hex].
  - assert (Forall (fun d => (if dyn then 0 else 1) <= d)%Z dim') as Hall'.
    { apply Forall_forall. intros d Hd.
      rewrite Forall_forall in Hall. apply Hall.
      apply list_elem_of_In, Hsame, list_elem_of_In, Hd. }
    destruct (axes_loop_bits dyn dim 0 ltac:(done) Hall)
      as (r & -> & Hpos & Hbits).
    destruct (axes_loop_bits dyn dim' 0 ltac:(done) Hall')
      as (r' & -> & Hpos' & Hbits').
    f_equal. apply Z.bits_inj'. intros k Hk.
    apply eq_true_iff_eq. rewrite (Hbits k Hk), (Hbits' k Hk), Hsame. done.
  - assert (Exists (fun d => d < (if dyn then 0 else 1))%Z dim') as Hex'.
    { apply Exists_exists in Hex as (d & Hd & Hlt).
      apply Exists_exists. exists d. split; [|done].
      apply list_elem_of_In, Hsame, list_elem_of_In, Hd. }
    apply (axes_loop_raises dyn dim 0%Z) in Hex.
    apply (axes_loop_raises dyn dim' 0%Z) in Hex'.
    by rewrite Hex, Hex'.
Qed.

Lemma torch_dim_to_trt_axes_set_witness :
  torch_dim_to_trt_axes true (DimTuple [2; 1; 2]%Z)
  = torch_dim_to_trt_axes true (DimTuple [1; 2]%Z).
Proof.
  apply torch_dim_to_trt_axes_set. intros d. simpl. tauto.
Defined.

(** X7. [slice_shape_trt] on a one-dimensional shape tensor with [dim]
    entries, with a start that is not negative and the default size and
    stride, drops the first [start] entries: it returns the tensor itself
    for start 0 and adds nothing, returns nothing (and adds nothing) when
    start is [dim] or more, and otherwise adds one slice layer whose output
    has [dim - start] entries.  It never sets a [_trt]. *)
Theorem slice_shape_trt_defaults (shape_trt : trt_tensor) (dim start : Z)
    (s : state) :
  trt_shape shape_trt = [dim] →
  (0 <= start)%Z →
  ∃ r s',
    slice_shape_trt shape_trt start None 1 s = Ok r s'
    ∧ trt_attr s' = trt_attr s
    ∧ (start = 0%Z → r = Some shape_trt ∧ s' = s)
    ∧ ((dim <= start)%Z → start ≠ 0%Z → r = None ∧ s' = s)
    ∧ ((0 < start < dim)%Z →
       r = Some (TrtTensor (length (network s)) [(dim - start)%Z])
       ∧ network s'
         = network s ++ [LSlice shape_trt [start] [(dim - start)%Z] [1%Z]]).
Proof.
  intros Hshape Hstart. unfold slice_shape_trt. rewrite Hshape.
  destruct (decide (start = 0%Z)) as [->|Hne].
  - simpl. eexists _, _. split; [reflexivity|]. repeat split; try done; lia.
  - rewrite bool_decide_eq_false_2 by done. simpl.
    case_decide as Hge.
    + eexists _, _. split; [reflexivity|]. repeat split; try done; lia.
    + eexists _, _. split; [reflexivity|]. simpl.
      repeat split; try done; lia.
Qed.

Lemma slice_shape_trt_defaults_witness :
  slice_shape_trt (TrtTensor 1 [4%Z]) 1 None 1
    (State [LInput [1; 3; 8; 8]%Z; LInput [4%Z]] ∅)
  = Ok (Some (TrtTensor 2 [3%Z]))
       (State [LInput [1; 3; 8; 8]%Z; LInput [4%Z];
               LSlice (TrtTensor 1 [4%Z]) [1%Z] [3%Z] [1%Z]] ∅).
Proof.
  destruct (slice_shape_trt_defaults (TrtTensor 1 [4%Z]) 4 1
              (State [LInput [1; 3; 8; 8]%Z; LInput [4%Z]] ∅) eq_refl)
    as (r & s' & Hrun & _); [lia|].
  rewrite Hrun. revert Hrun. vm_compute. congruence.
Defined.

Lemma wrapper_unlocked_clears c ctx :
  lock ctx = false →
  lock (wrapper c ctx).2 = false
  ∧ method_args (wrapper c ctx).2 = None
  ∧ method_kwargs (wrapper c ctx).2 = None
  ∧ method_return (wrapper c ctx).2 = None.
Proof.
  intros Hl. destruct c. simpl. by rewrite Hl.
Qed.

(** X8. While a converter is running under the lock, hooked methods that
    are called do not disturb its argument lookup: [get_arg] gives the same
    answer after any such call as before it. *)
Theorem get_arg_stable_under_lock (c : call) (ctx : hook_ctx) (name : string)
    (pos : nat) (default : value) :
  lock ctx = true →
  get_arg (wrapper c ctx).2 name pos default = get_arg ctx name pos default.
Proof.
  intros Hl.
  destruct (wrapper_locked c ctx Hl) as (_ & Ha & Hk & _).
  unfold get_arg. by rewrite Ha, Hk.
Qed.

Lemma get_arg_stable_under_lock_witness :
  get_arg
    (wrapper (Call "torch.max" true [7] [] 8 [] [])
       (HookCtx true (Some [1; 2]) (Some [("dim", 3)]) (Some 4)
          (Some "torch.Tensor.max") [] [])).2
    "dim" 1 0
  = inr 3.
Proof.
  exact (get_arg_stable_under_lock (Call "torch.max" true [7] [] 8 [] [])
           (HookCtx true (Some [1; 2]) (Some [("dim", 3)]) (Some 4)
              (Some "torch.Tensor.max") [] [])
           "dim" 1 0 eq_refl).
Defined.

(** X9. Once a wrapper that was entered with the lock free has returned,
    whether its registration is real or not, the bound call is cleared and
    every [get_arg] raises [TypeError]: a converter cannot read the
    arguments of a call that is over. *)
Theorem get_arg_after_wrapper (c : call) (ctx : hook_ctx) (name : string)
    (pos : nat) (default : value) :
  lock ctx = false →
  get_arg (wrapper c ctx).2 name pos default = inl PyTypeError.
Proof.
  intros Hl.
  destruct (wrapper_unlocked_clears c ctx Hl) as (_ & _ & Hk & _).
  unfold get_arg. by rewrite Hk.
Qed.

Lemma get_arg_after_wrapper_witness :
  get_arg
    (wrapper (Call "torch.max" false [7] [("dim", 1)] 8 [] [])
       (HookCtx false None None None None [] [])).2
    "dim" 1 0
  = inl PyTypeError.
Proof.
  exact (get_arg_after_wrapper (Call "torch.max" false [7] [("dim", 1)] 8 [] [])
           (HookCtx false None None None None [] []) "dim" 1 0 eq_refl).
Defined.

End UtilityFacts.

(** ** More on the broadcast resolver *)

Section ResolverFacts.

Import Torch2trt Wf.

Ltac nothing_added :=
  exists []; simpl; rewrite ?app_nil_r;
  repeat split; try done; try (simpl; lia); try constructor;
  try (by intros ? ? ?).

Lemma resolver_layer_mono dt tensors tensors' l :
  (∀ o, In o tensors → In o tensors') →
  resolver_layer dt tensors l → resolver_layer dt tensors' l.
Proof.
  intros Hsub. destruct l as [| dims [k|v d] | | | ]; simpl; try done.
  - intros (t & Hin & Hk & Hd). eauto.
  - intros (? & ? & ?). auto.
Qed.

Lemma get_trt_tensor_extends dt o s :
  ∃ ls, network (final_state (get_trt_tensor dt o s)) = network s ++ ls
        ∧ Forall (resolver_layer dt [o]) ls
        ∧ length ls ≤ 1
        ∧ keeps_attrs s (final_state (get_trt_tensor dt o s)).
Proof.
  destruct o as [t|v|].
  - destruct (trt_attr s !! tid t) as [h|] eqn:Hb.
    + rewrite (get_trt_tensor_bound _ _ h) by done. nothing_added.
    + rewrite get_trt_tensor_leaf by done. eexists [_]. simpl.
      split; [done|]. split; [|split; [lia|]].
      * repeat constructor. exists t. simpl. auto.
      * intros k h Hk. simpl. rewrite lookup_insert_ne; [done|congruence].
  - rewrite get_trt_tensor_scalar. eexists [_]. simpl.
    split; [done|]. split; [|split; [lia|by intros ???]].
    by repeat constructor.
  - nothing_added.
Qed.

Lemma trt_tensors_extends dt b tensors :
  ∀ s,
  ∃ ls, network (final_state (trt_tensors dt b tensors s)) = network s ++ ls
        ∧ Forall (resolver_layer dt tensors) ls
        ∧ length ls ≤ 2 * length tensors
        ∧ keeps_attrs s (final_state (trt_tensors dt b tensors s)).
Proof.
  induction tensors as [|o rest IH]; intros s.
  - nothing_added.
  - rewrite trt_tensors_cons.
    destruct (get_trt_tensor_extends dt o s) as (l1 & Hn1 & Hf1 & Hl1 & Hk1).
    assert (Forall (resolver_layer dt (o :: rest)) l1) as Hf1'.
    { eapply Forall_impl; [exact Hf1|]. intros l.
      apply resolver_layer_mono. intros o' [->|[]]. by left. }
    destruct (get_trt_tensor dt o s) as [h s1|e s1]; simpl in Hn1, Hk1.
    2:{ exists l1. simpl. repeat split; try done. simpl. lia. }
    destruct (make_broadcastable_spec b h s1)
      as (h' & s2 & -> & Ha2 & _ & Hn2 & _).
    assert (∃ l2, network s2 = network s1 ++ l2
                  ∧ Forall (resolver_layer dt (o :: rest)) l2
                  ∧ length l2 ≤ 1) as (l2 & Hn2' & Hf2 & Hl2).
    { destruct Hn2 as [->|[dims ->]].
      - nothing_added.
      - eexists [_]. split; [done|]. split; [by repeat constructor|done]. }
    destruct (IH s2) as (l3 & Hn3 & Hf3 & Hl3 & Hk3).
    assert (Forall (resolver_layer dt (o :: rest)) l3) as Hf3'.
    { eapply Forall_impl; [exact Hf3|]. intros l.
      apply resolver_layer_mono. intros o' ?. by right. }
    assert (keeps_attrs s s2) as Hk2.
    { intros k h0 Hk. rewrite Ha2. by apply Hk1. }
    exists (l1 ++ l2 ++ l3).
    assert (network s ++ l1 ++ l2 ++ l3 = network s2 ++ l3) as Happ.
    { rewrite Hn2', Hn1. by rewrite <- !app_assoc. }
    assert (length (l1 ++ l2 ++ l3) ≤ 2 * length (o :: rest)) as Hlen.
    { rewrite !length_app. simpl. lia. }
    assert (Forall (resolver_layer dt (o :: rest)) (l1 ++ l2 ++ l3)) as Hall.
    { by repeat apply Forall_app_2. }
    destruct (trt_tensors dt b rest s2) as [hs s3|e s3]; simpl in *;
      (split; [by rewrite Happ|]); (split; [done|]); (split; [done|]);
      intros k h0 Hk; by apply Hk3, Hk2.
Qed.

(** X10. Whether [trt_] returns or raises, it only appends to the network:
    at most two layers per operand, each one a constant holding a tensor
    operand in its host shape, a constant of shape [(1,)] holding a scalar
    operand, or a shuffle; and it never changes or removes a [_trt] that was
    set. *)
Theorem trt_only_appends (tensors : list operand) (s : state) :
  ∃ ls,
    network (final_state (trt_ tensors s)) = network s ++ ls
    ∧ length ls ≤ 2 * length tensors
    ∧ Forall (fun l => ∃ dt, resolver_layer dt tensors l) ls
    ∧ keeps_attrs s (final_state (trt_ tensors s)).
Proof.
  rewrite trt__unfold.
  destruct (check_torch_dtype tensors) as [e|dt].
  - nothing_added.
  - destruct (trt_tensors_extends dt (broadcast_num_dim s 0 tensors) tensors s)
      as (ls & Hn & Hf & Hl & Hk).
    exists ls.
    destruct (trt_tensors _ _ _ _); simpl in *;
      (split; [done|]); (split; [done|]); (split; [|done]);
      (eapply Forall_impl; [exact Hf|]); eauto.
Qed.

(** X11. When the operands include a tensor and all tensor operands have
    the same element type, that type is the common type, whatever scalars
    are among the operands and wherever they stand: a float scalar next to
    an int32 tensor does not change it.  For every scalar constant that
    [trt_] then adds, the array of ones that the scalar is multiplied with
    is created with that type ([torch.ones(shape, dtype=dtype)]).  The
    element type of the product, which numpy chooses, is not stated. *)
Theorem tensor_fixes_scalar_dtype (tensors : list operand) (t : tensor)
    (s : state) :
  In (OTensor t) tensors →
  (∀ t1 t2, In (OTensor t1) tensors → In (OTensor t2) tensors →
            dtype t1 = dtype t2) →
  check_torch_dtype tensors = inr (dtype t)
  ∧ ∃ ls,
      network (final_state (trt_ tensors s)) = network s ++ ls
      ∧ Forall (fun l => ∀ dims v d, l = LConstant dims (WScalar v d) →
                           d = dtype t ∧ In (OScalar v) tensors) ls.
Proof.
  intros Hin Hagree.
  assert (check_torch_dtype tensors = inr (dtype t)) as Hc.
  { unfold check_torch_dtype.
    destruct (tensors_dtype_None_agree tensors Hagree) as [H1 _].
    by rewrite (H1 t Hin), scalars_dtype_Some. }
  split; [done|]. rewrite trt__unfold, Hc.
  destruct (trt_tensors_extends (dtype t) (broadcast_num_dim s 0 tensors)
              tensors s) as (ls & Hn & Hf & _).
  exists ls. split.
  - by destruct (trt_tensors _ _ _ _).
  - eapply Forall_impl; [exact Hf|]. intros l Hl dims v d ->.
    simpl in Hl. tauto.
Qed.

Lemma tensor_fixes_scalar_dtype_witness :
  check_torch_dtype
    [OScalar (SFloat 2); OTensor (Tensor 0 [1; 3]%Z int32); OScalar (SInt 1)]
  = inr int32.
Proof.
  refine (proj1 (tensor_fixes_scalar_dtype _ (Tensor 0 [1; 3]%Z int32)
                   (State [] ∅) _ _)).
  - simpl. auto.
  - intros t1 t2 [|[[= <-]|[|[]]]] [|[[= <-]|[|[]]]]; done.
Defined.

Lemma tensors_dtype_None_inv tensors :
  match tensors_dtype None tensors with
  | inr None => ∀ t, ¬ In (OTensor t) tensors
  | inr (Some _) => ∃ t, In (OTensor t) tensors
  | inl _ => ∃ t, In (OTensor t) tensors
  end.
Proof.
  induction tensors as [|[t|v|] rest IH]; simpl.
  - by intros t [].
  - destruct (tensors_dtype (Some (dtype t)) rest) as [e|[d0|]] eqn:E; eauto.
    exfalso. clear IH. revert E. generalize (dtype t). intros d.
    induction rest as [|[t'|v'|] rest IH]; simpl; try done.
    case_decide; [done|discriminate].
  - destruct (tensors_dtype None rest) as [e|[d0|]].
    + destruct IH as [t Ht]. eauto.
    + destruct IH as [t Ht]. eauto.
    + intros t [|Ht]; [done|]. by apply (IH t).
  - destruct (tensors_dtype None rest) as [e|[d0|]].
    + destruct IH as [t Ht]. eauto.
    + destruct IH as [t Ht]. eauto.
    + intros t [|Ht]; [done|]. by apply (IH t).
Qed.

Lemma scalars_dtype_None_inv tensors :
  scalars_dtype None tensors = None ↔ ∀ v, ¬ In (OScalar v) tensors.
Proof.
  induction tensors as [|[t|[v|v]|] rest IH]; simpl.
  - split; [by intros _ v []|done].
  - rewrite IH. split.
    + intros H v [|Hv]; [done|]. by apply (H v).
    + intros H v Hv. apply (H v). auto.
  - rewrite scalars_dtype_Some. split; [done|]. intros H.
    exfalso. apply (H (SFloat v)). auto.
  - rewrite scalars_dtype_Some. split; [done|]. intros H.
    exfalso. apply (H (SInt v)). auto.
  - rewrite IH. split.
    + intros H v [|Hv]; [done|]. by apply (H v).
    + intros H v Hv. apply (H v). auto.
Qed.

Lemma check_not_inferred_iff tensors :
  check_torch_dtype tensors = inl DtypeNotInferred
  ↔ Forall (fun o => o = OOther) tensors.
Proof.
  unfold check_torch_dtype.
  pose proof (tensors_dtype_None_inv tensors) as Ht.
  pose proof (scalars_dtype_None_inv tensors) as Hs.
  assert (∀ dt, tensors_dtype dt tensors ≠ inl DtypeNotInferred) as Hnm.
  { clear. induction tensors as [|[t|v|] rest IH]; intros dt; simpl;
      try done; try apply IH.
    destruct dt; [case_decide; [apply IH|done]|apply IH]. }
  rewrite Forall_forall.
  destruct (tensors_dtype None tensors) as [e|[d|]] eqn:E.
  - split.
    + intros [= ->]. by destruct (Hnm None).
    + intros H. destruct Ht as [t Ht]. apply list_elem_of_In, H in Ht. done.
  - rewrite scalars_dtype_Some. split; [done|]. intros H.
    destruct Ht as [t Ht]. apply list_elem_of_In, H in Ht. done.
  - split.
    + destruct (scalars_dtype None tensors) eqn:E2; [done|]. intros _ o Ho.
      apply list_elem_of_In in Ho.
      destruct o as [t|v|]; [by apply Ht in Ho| |done].
      exfalso. by apply (proj1 Hs eq_refl v).
    + intros H.
      assert (scalars_dtype None tensors = None) as ->; [|done].
      apply Hs. intros v Hv. apply list_elem_of_In, H in Hv. done.
Qed.

(** X12. [check_torch_dtype] cannot infer a type, and says so with its last
    assertion, exactly when no operand is a tensor or a scalar; in
    particular with no operands at all.  [trt_] then raises before it adds
    anything. *)
Theorem check_torch_dtype_not_inferred (tensors : list operand) (s : state) :
  (check_torch_dtype tensors = inl DtypeNotInferred
   ↔ Forall (fun o => o = OOther) tensors)
  ∧ (Forall (fun o => o = OOther) tensors →
     trt_ tensors s = Raise DtypeNotInferred s)
  ∧ check_torch_dtype [] = inl DtypeNotInferred.
Proof.
  split; [apply check_not_inferred_iff|]. split; [|reflexivity].
  intros H. apply check_not_inferred_iff in H. by rewrite trt__unfold, H.
Qed.

Lemma check_torch_dtype_not_inferred_witness :
  trt_ [OOther; OOther] (State [LInput [1; 3]%Z] ∅)
  = Raise DtypeNotInferred (State [LInput [1; 3]%Z] ∅).
Proof.
  apply (proj1 (proj2 (check_torch_dtype_not_inferred [OOther; OOther]
                         (State [LInput [1; 3]%Z] ∅)))).
  by repeat constructor.
Defined.

(** When the tensor operands agree, the check can only fail for want of
    any tensor or scalar. *)
Lemma trt_dtype_mismatch_free tensors :
  (∀ t1 t2, In (OTensor t1) tensors → In (OTensor t2) tensors →
            dtype t1 = dtype t2) →
  ∀ e, check_torch_dtype tensors = inl e →
       e = DtypeNotInferred ∧ Forall (fun o => o = OOther) tensors.
Proof.
  intros Hagree e He.
  assert (e = DtypeNotInferred) as ->.
  { unfold check_torch_dtype in He.
    destruct (tensors_dtype_None_agree tensors Hagree) as [H1 H2].
    pose proof (tensors_dtype_None_inv tensors) as Hinv.
    destruct (tensors_dtype None tensors) as [e'|[d|]] eqn:E.
    - destruct Hinv as [t Ht]. by specialize (H1 t Ht).
    - by rewrite scalars_dtype_Some in He.
    - destruct (scalars_dtype None tensors); congruence. }
  split; [done|].
  by apply check_not_inferred_iff.
Qed.

Lemma trt_tensors_app dt b pre post s :
  trt_tensors dt b (pre ++ post) s =
    match trt_tensors dt b pre s with
    | Ok hs s1 =>
        match trt_tensors dt b post s1 with
        | Ok hs' s2 => Ok (hs ++ hs') s2
        | Raise e s2 => Raise e s2
        end
    | Raise e s1 => Raise e s1
    end.
Proof.
  revert s. induction pre as [|o pre IH]; intros s.
  - simpl. unfold ret. by destruct (trt_tensors dt b post s).
  - rewrite <- app_comm_cons, !trt_tensors_cons.
    destruct (get_trt_tensor dt o s) as [h s1|]; [|done].
    destruct (make_broadcastable b h s1) as [h' s2|]; [|done].
    rewrite IH. destruct (trt_tensors dt b pre s2) as [hs s3|]; [|done].
    by destruct (trt_tensors dt b post s3).
Qed.

(** A list of operands without unclassified ones is processed to the end,
    gives one tensor per operand, and leaves every tensor operand with a
    [_trt]. *)
Lemma trt_tensors_ok dt b tensors :
  ¬ In OOther tensors →
  ∀ s, ∃ hs s',
    trt_tensors dt b tensors s = Ok hs s'
    ∧ length hs = length tensors
    ∧ ∀ t, In (OTensor t) tensors → is_Some (trt_attr s' !! tid t).
Proof.
  induction tensors as [|o rest IH]; intros Hno s.
  - exists [], s. by repeat split.
  - rewrite trt_tensors_cons.
    assert (∃ h s1, get_trt_tensor dt o s = Ok h s1
                    ∧ ∀ t, o = OTensor t → is_Some (trt_attr s1 !! tid t))
      as (h & s1 & -> & Hb1).
    { destruct o as [t|v|].
      - destruct (trt_attr s !! tid t) as [h|] eqn:Hb.
        + rewrite (get_trt_tensor_bound _ _ h) by done.
          eexists _, _. split; [done|]. intros ? [= <-]. by rewrite Hb.
        + rewrite get_trt_tensor_leaf by done.
          eexists _, _. split; [done|]. intros ? [= <-]. simpl.
          by rewrite lookup_insert_eq.
      - rewrite get_trt_tensor_scalar. eexists _, _. by split.
      - exfalso. apply Hno. by left. }
    destruct (make_broadcastable_spec b h s1) as (h' & s2 & -> & Ha2 & _).
    destruct (IH ltac:(intros ?; apply Hno; by right) s2)
      as (hs & s3 & Hrun & Hlen & Hb3).
    pose proof (trt_tensors_extends dt b rest s2) as (_ & _ & _ & _ & Hk).
    rewrite Hrun in *. simpl in Hk.
    exists (h' :: hs), s3. split; [done|]. split; [simpl; lia|].
    intros t [->|Ht]; [|by apply Hb3].
    destruct (Hb1 t eq_refl) as [h0 Hh0]. exists h0.
    apply Hk. by rewrite Ha2.
Qed.

(** X13. [trt_] returns exactly when there is at least one operand, every
    operand is a tensor or a scalar, and all tensor operands have the same
    element type; it then returns one tensor of the network per operand and
    every tensor operand has a [_trt]. *)
Theorem trt_returns_iff (tensors : list operand) (s : state) :
  ((∃ r s', trt_ tensors s = Ok r s')
   ↔ tensors ≠ [] ∧ ¬ In OOther tensors
     ∧ ∀ t1 t2, In (OTensor t1) tensors → In (OTensor t2) tensors →
                dtype t1 = dtype t2)
  ∧ ∀ r s', trt_ tensors s = Ok r s' →
      length (returned r) = length tensors
      ∧ ∀ t, In (OTensor t) tensors → is_Some (trt_attr s' !! tid t).
Proof.
  split.
  - split.
    + intros (r & s' & Hrun). rewrite trt__unfold in Hrun.
      destruct (check_torch_dtype tensors) as [|dt] eqn:Hc; [done|].
      split; [by intros ->|]. split.
      * intros Hin. apply list_elem_of_In, list_elem_of_split in Hin
          as (pre & post & ->).
        rewrite trt_tensors_app in Hrun.
        destruct (trt_tensors dt _ pre s) as [hs s1|]; [|done].
        by rewrite trt_tensors_cons in Hrun.
      * intros t1 t2 H1 H2.
        destruct (decide (dtype t1 = dtype t2)) as [|Hne]; [done|].
        unfold check_torch_dtype in Hc.
        by rewrite (tensors_dtype_None_differ tensors t1 t2) in Hc.
    + intros (Hne & Hno & Hagree). rewrite trt__unfold.
      destruct (check_torch_dtype tensors) as [e|dt] eqn:Hc.
      * exfalso.
        destruct (trt_dtype_mismatch_free tensors Hagree e Hc) as [-> Hall].
        destruct tensors as [|o rest]; [done|].
        apply Forall_cons in Hall as [-> _]. apply Hno. by left.
      * destruct (trt_tensors_ok dt (broadcast_num_dim s 0 tensors) tensors
                    Hno s) as (hs & s' & -> & _). eauto.
  - intros r s'. rewrite trt__unfold.
    destruct (check_torch_dtype tensors) as [|dt] eqn:Hc; [done|].
    destruct (trt_tensors dt _ tensors s) as [hs s1|] eqn:Hrun; [|done].
    intros [= <- <-]. rewrite trt_wrap_returned.
    assert (¬ In OOther tensors) as Hno.
    { intros Hin. apply list_elem_of_In, list_elem_of_split in Hin
        as (pre & post & ->).
      rewrite trt_tensors_app in Hrun.
      destruct (trt_tensors dt _ pre s) as [hs0 s0|]; [|done].
      by rewrite trt_tensors_cons in Hrun. }
    destruct (trt_tensors_ok dt (broadcast_num_dim s 0 tensors) tensors Hno s)
      as (hs' & s2 & Hrun' & Hlen & Hb).
    rewrite Hrun in Hrun'. by injection Hrun' as <- <-.
Qed.

Lemma trt_returns_iff_witness :
  length (returned (Many [TrtTensor 0 [1; 3]%Z; TrtTensor 2 [1; 1]%Z]))
  = length [OTensor (Tensor 0 [1; 3]%Z float32); OScalar (SInt 2)].
Proof.
  refine (proj1 (proj2 (trt_returns_iff
            [OTensor (Tensor 0 [1; 3]%Z float32); OScalar (SInt 2)]
            (State [LInput [1; 3]%Z] {[0 := TrtTensor 0 [1; 3]%Z]}))
            (Many [TrtTensor 0 [1; 3]%Z; TrtTensor 2 [1; 1]%Z])
            (State [LInput [1; 3]%Z;
                    LConstant [1]%Z (WScalar (SInt 2) float32);
                    LShuffle (TrtTensor 1 [1]%Z) [1; 1]%Z]
               {[0 := TrtTensor 0 [1; 3]%Z]}) _)).
  vm_compute. reflexivity.
Defined.

(** A leaf tensor among the operands gets exactly one constant. *)
Lemma trt_tensors_constant_once dt b tensors :
  ∀ s hs s',
    trt_tensors dt b tensors s = Ok hs s' →
    ∀ t, In (OTensor t) tensors → trt_attr s !! tid t = None →
         tensor_constants (tid t) (network s')
         = S (tensor_constants (tid t) (network s)).
Proof.
  induction tensors as [|o rest IH]; intros s hs s' Hrun t Hin Hnone;
    [done|].
  rewrite trt_tensors_cons in Hrun.
  destruct (get_trt_tensor dt o s) as [h s1|] eqn:Hg; [|done].
  destruct (make_broadcastable_spec b h s1)
    as (h' & s2 & Hmb & Ha2 & _ & Hn2 & _).
  rewrite Hmb in Hrun.
  destruct (trt_tensors dt b rest s2) as [hs' s3|] eqn:Hrest; [|done].
  injection Hrun as <- <-.
  assert (tensor_constants (tid t) (network s2)
          = tensor_constants (tid t) (network s1)) as Hsame.
  { destruct Hn2 as [->|[dims ->]]; [done|].
    rewrite tensor_constants_snoc. simpl. lia. }
  assert ((∃ t0, o = OTensor t0 ∧ tid t0 = tid t)
          ∨ (In (OTensor t) rest
             ∧ trt_attr s1 !! tid t = None
             ∧ tensor_constants (tid t) (network s1)
               = tensor_constants (tid t) (network s)))
    as [(t0 & -> & E)|(Hin' & Hnone' & Hcount)].
  { destruct o as [t0|v|]; [| |done].
    - destruct (decide (tid t0 = tid t)) as [E|E]; [left; eauto|right].
      split; [destruct Hin as [[= ->]|]; done|].
      destruct (trt_attr s !! tid t0) as [h0|] eqn:Hb0.
      + rewrite (get_trt_tensor_bound _ _ h0) in Hg by done.
        by injection Hg as <- <-.
      + rewrite get_trt_tensor_leaf in Hg by done.
        injection Hg as <- <-. simpl. rewrite lookup_insert_ne by done.
        split; [done|]. rewrite tensor_constants_snoc. simpl.
        rewrite bool_decide_eq_false_2 by done. lia.
    - right. split; [destruct Hin as [|]; done|].
      rewrite get_trt_tensor_scalar in Hg. injection Hg as <- <-. simpl.
      split; [done|]. rewrite tensor_constants_snoc. simpl. lia. }
  - rewrite get_trt_tensor_leaf in Hg by (by rewrite E).
    injection Hg as <- <-.
    destruct (trt_tensors_keeps (tid t)
                (TrtTensor (length (network s)) (shape t0)) dt b rest s2)
      as [_ Hk].
    { rewrite Ha2. simpl. by rewrite E, lookup_insert_eq. }
    rewrite Hrest in Hk. simpl in Hk. rewrite Hk, Hsame. simpl.
    rewrite tensor_constants_snoc. simpl.
    rewrite bool_decide_eq_true_2 by done. lia.
  - rewrite (IH s2 hs' s3 Hrest t Hin'); [|by rewrite Ha2].
    by rewrite Hsame, Hcount.
Qed.

(** X14. [trt_] is not all-or-nothing.  When the type check passes and the
    first operand that is neither a tensor nor a scalar stands after other
    operands, [trt_] raises at that operand, and what it did for the
    operands before it stays: each tensor among them has its [_trt], and
    each leaf among them has its constant in the network. *)
Theorem trt_raises_midway (pre post : list operand) (dt : torch_dtype)
    (s : state) :
  ¬ In OOther pre →
  check_torch_dtype (pre ++ OOther :: post) = inr dt →
  ∃ s1,
    trt_ (pre ++ OOther :: post) s = Raise TensorNotCreated s1
    ∧ ∀ t, In (OTensor t) pre →
        is_Some (trt_attr s1 !! tid t)
        ∧ (trt_attr s !! tid t = None →
           tensor_constants (tid t) (network s1)
           = S (tensor_constants (tid t) (network s))).
Proof.
  intros Hno Hc.
  destruct (trt_tensors_ok dt (broadcast_num_dim s 0 (pre ++ OOther :: post))
              pre Hno s) as (hs & s1 & Hrun & _ & Hb).
  exists s1. split.
  - by rewrite trt__unfold, Hc, trt_tensors_app, Hrun, trt_tensors_cons.
  - intros t Ht. split; [by apply Hb|]. intros Hnone.
    by apply (trt_tensors_constant_once _ _ _ _ _ _ Hrun).
Qed.

Lemma trt_raises_midway_witness :
  trt_ [OTensor (Tensor 3 [2]%Z float32); OOther] (State [] ∅)
  = Raise TensorNotCreated
      (State [LConstant [2]%Z (WTensor 3)] {[3 := TrtTensor 0 [2]%Z]}).
Proof.
  destruct (trt_raises_midway [OTensor (Tensor 3 [2]%Z float32)] [] float32
              (State [] ∅)) as (s1 & Hrun & _).
  - intros [|[]]; done.
  - reflexivity.
  - simpl in Hrun. rewrite Hrun. revert Hrun. vm_compute. congruence.
Defined.

Lemma broadcast_num_dim_le s n tensors :
  (∀ t, In (OTensor t) tensors → num_dim s t ≤ n) →
  ∀ b, b ≤ n → broadcast_num_dim s b tensors ≤ n.
Proof.
  induction tensors as [|[t|v|] rest IH]; intros Hall b Hb; simpl.
  - done.
  - apply IH; [intros; apply Hall; by right|].
    case_decide; [apply Hall; by left|done].
  - apply IH; [intros; apply Hall; by right|done].
  - apply IH; [intros; apply Hall; by right|done].
Qed.

Lemma trt_tensors_bound dt b n s :
  b ≤ n →
  ∀ ts hs,
    Forall2 (fun t h => trt_attr s !! tid t = Some h
                        ∧ length (trt_shape h) = n) ts hs →
    trt_tensors dt b (map OTensor ts) s = Ok hs s.
Proof.
  intros Hb ts hs Hall.
  induction Hall as [|t h ts hs [Ht Hn] _ IH]; [done|].
  simpl map. rewrite trt_tensors_cons, (get_trt_tensor_bound _ _ h) by done.
  rewrite make_broadcastable_id by lia. by rewrite IH.
Qed.

(** X15. When every operand is a tensor that already has a [_trt], all of
    one element type and all [_trt] of one rank, [trt_] returns exactly
    these [_trt], in order, and changes nothing: no layer is added. *)
Theorem trt_bound_operands (ts : list tensor) (hs : list trt_tensor)
    (d : torch_dtype) (n : nat) (s : state) :
  ts ≠ [] →
  Forall2 (fun t h => trt_attr s !! tid t = Some h ∧ dtype t = d
                      ∧ length (trt_shape h) = n) ts hs →
  trt_ (map OTensor ts) s = Ok (unwrap_single hs) s.
Proof.
  intros Hne Hall. rewrite trt__unfold.
  assert (∀ t, In (OTensor t) (map OTensor ts) →
               dtype t = d ∧ num_dim s t = n) as Hin.
  { intros t Ht. apply in_map_iff in Ht as (t' & [= ->] & Ht).
    apply list_elem_of_In, list_elem_of_lookup in Ht as [i Hi].
    destruct (Forall2_lookup_l _ _ _ _ _ Hall Hi) as (h & _ & Hb & Hd & Hn).
    split; [done|]. unfold num_dim. by rewrite Hb. }
  assert (broadcast_num_dim s 0 (map OTensor ts) ≤ n) as Hle.
  { apply broadcast_num_dim_le; [|lia].
    intros t Ht. by destruct (Hin t Ht) as [_ ->]. }
  assert (check_torch_dtype (map OTensor ts) = inr d) as ->.
  { destruct ts as [|t0 ts0]; [done|].
    unfold check_torch_dtype.
    destruct (tensors_dtype_None_agree (map OTensor (t0 :: ts0))) as [H1 _].
    - intros t1 t2 H1 H2.
      destruct (Hin t1 H1) as [-> _]. by destruct (Hin t2 H2) as [-> _].
    - rewrite (H1 t0) by (by left). rewrite scalars_dtype_Some.
      by destruct (Hin t0 ltac:(by left)) as [-> _]. }
  rewrite (trt_tensors_bound d _ n s Hle ts hs); [done|].
  eapply Forall2_impl; [exact Hall|]. simpl. tauto.
Qed.

Lemma trt_bound_operands_witness :
  trt_ [OTensor (Tensor 0 [1; 3; 3]%Z float32);
        OTensor (Tensor 1 [1; 3; 3]%Z float32)]
    (State [LInput [3; 3]%Z; LInput [3; 3]%Z]
       (<[1 := TrtTensor 1 [3; 3]%Z]> {[0 := TrtTensor 0 [3; 3]%Z]}))
  = Ok (Many [TrtTensor 0 [3; 3]%Z; TrtTensor 1 [3; 3]%Z])
       (State [LInput [3; 3]%Z; LInput [3; 3]%Z]
          (<[1 := TrtTensor 1 [3; 3]%Z]> {[0 := TrtTensor 0 [3; 3]%Z]})).
Proof.
  apply (trt_bound_operands
           [Tensor 0 [1; 3; 3]%Z float32; Tensor 1 [1; 3; 3]%Z float32]
           [TrtTensor 0 [3; 3]%Z; TrtTensor 1 [3; 3]%Z] float32 2).
  - done.
  - repeat constructor.
Defined.

Lemma valid_handle_app net ls h :
  valid_handle net h → valid_handle (net ++ ls) h.
Proof.
  intros (l & Hl & Hs). exists l. split; [|done].
  by apply lookup_app_l_Some.
Qed.

Lemma valid_handle_new net l :
  valid_handle (net ++ [l]) (TrtTensor (length net) (layer_output_shape l)).
Proof.
  exists l. split; [|done]. simpl. by apply list_lookup_middle.
Qed.

Lemma wf_state_add_layer l s :
  wf_state s →
  wf_state (State (network s ++ [l]) (trt_attr s)).
Proof. intros Hwf k h Hk. apply valid_handle_app. by apply (Hwf k). Qed.

Lemma wf_state_set_trt k h s :
  wf_state s → valid_handle (network s) h →
  wf_state (State (network s) (<[k := h]> (trt_attr s))).
Proof.
  intros Hwf Hh k' h' Hk'. simpl in *.
  destruct (decide (k = k')) as [<-|Hne].
  - rewrite lookup_insert_eq in Hk'. by injection Hk' as <-.
  - rewrite lookup_insert_ne in Hk' by done. by apply (Hwf k').
Qed.

End ResolverFacts.

(** ** More on the wrapper *)

Section WrapperFacts.

Import Torch2trt HookFacts.

(** X17. A wrapper entered while the lock is held returns the outputs of
    the original method as they are and leaves the context alone: the lock
    stays held, the bound call (arguments, keyword arguments, return value,
    name) is the one of the running converter, and no converter has run. *)
Theorem wrapper_locked_returns_outputs (c : call) (ctx : hook_ctx) :
  lock ctx = true →
  (wrapper c ctx).1 = Some (call_outputs c)
  ∧ lock (wrapper c ctx).2 = true
  ∧ method_args (wrapper c ctx).2 = method_args ctx
  ∧ method_kwargs (wrapper c ctx).2 = method_kwargs ctx
  ∧ method_return (wrapper c ctx).2 = method_return ctx
  ∧ method_str (wrapper c ctx).2 = method_str ctx
  ∧ converted (wrapper c ctx).2 = converted ctx.
Proof.
  intros Hl.
  destruct (wrapper_locked c ctx Hl) as (H1 & H2 & H3 & H4 & H5 & H6 & _).
  split; [|done]. destruct c. simpl. by rewrite Hl.
Qed.

Lemma wrapper_locked_returns_outputs_witness :
  (wrapper (Call "torch.max" true [1] [] 9 [] [])
     (HookCtx true (Some [0]) (Some []) (Some 5)
        (Some "torch.nn.functional.prelu") [] [])).1 = Some 9.
Proof.
  exact (proj1 (wrapper_locked_returns_outputs
                  (Call "torch.max" true [1] [] 9 [] [])
                  (HookCtx true (Some [0]) (Some []) (Some 5)
                     (Some "torch.nn.functional.prelu") [] []) eq_refl)).
Defined.

Lemma run_calls_free calls :
  Forall (fun c => ∀ ctx, lock ctx = false →
            lock (wrapper c ctx).2 = false
            ∧ converted (wrapper c ctx).2 = converted ctx ++ converted_free c)
    calls →
  ∀ ctx, lock ctx = false →
    lock (run_calls calls ctx) = false
    ∧ converted (run_calls calls ctx)
      = converted ctx ++ flat_map converted_free calls.
Proof.
  induction 1 as [|c calls Hc _ IH]; intros ctx Hl; simpl.
  - by rewrite app_nil_r.
  - destruct (Hc ctx Hl) as [Hl1 Hc1].
    destruct (IH _ Hl1) as [Hl2 Hc2].
    split; [done|]. by rewrite Hc2, Hc1, <- app_assoc.
Qed.

Lemma run_calls_locked_all calls ctx :
  lock ctx = true →
  lock (run_calls calls ctx) = true
  ∧ converted (run_calls calls ctx) = converted ctx.
Proof.
  intros Hl.
  destruct (run_calls_locked calls) with (ctx := ctx)
    as (H1 & _ & _ & _ & _ & H2 & _); [|done|done].
  apply Forall_forall. intros c _. apply wrapper_locked.
Qed.

(** X18. A registration that is not real never takes the lock.  Entered
    with the lock free, its wrapper lets the hooked methods that its
    original method calls convert first, then runs its own converter, then
    lets the hooked methods its converter calls convert; below a real
    registration nothing converts.  The lock is free when it returns. *)
Theorem wrapper_free_converts (c : call) (ctx : hook_ctx) :
  lock ctx = false →
  lock (wrapper c ctx).2 = false
  ∧ converted (wrapper c ctx).2 = converted ctx ++ converted_free c.
Proof.
  revert ctx.
  induction c as [name is_real args kwargs outputs mcalls ccalls IHm IHc]
    using call_nested_ind.
  intros ctx Hl. split; [by apply wrapper_unlocked_clears|].
  simpl. rewrite Hl. destruct is_real; simpl.
  - set (ctx1 := HookCtx true _ _ _ _ _ (_ ++ _)).
    destruct (run_calls_locked_all mcalls ctx1 eq_refl) as [Hl2 Hc2].
    fold (run_calls mcalls ctx1).
    set (ctx3 := HookCtx _ _ _ _ _ (_ ++ [name]) _).
    destruct (run_calls_locked_all ccalls ctx3) as [Hl4 Hc4]; [done|].
    fold (run_calls ccalls ctx3). simpl. rewrite Hc4. simpl. by rewrite Hc2.
  - set (ctx1 := HookCtx _ _ _ _ _ _ (_ ++ _)).
    destruct (run_calls_free mcalls IHm ctx1 Hl) as [Hl2 Hc2].
    fold (run_calls mcalls ctx1).
    set (ctx3 := HookCtx _ _ _ _ _ (_ ++ [name]) _).
    destruct (run_calls_free ccalls IHc ctx3) as [Hl4 Hc4]; [done|].
    fold (run_calls ccalls ctx3). simpl. rewrite Hc4. simpl.
    rewrite Hc2. simpl. by rewrite <- !app_assoc.
Qed.

Lemma wrapper_free_converts_witness :
  converted
    (wrapper
       (Call "torch.nn.functional.interpolate" false [0] [] 1
          [Call "torch.Tensor.__getitem__" true [0; 2] [] 3
             [Call "torch.max" true [3] [] 4 [] []] []]
          [Call "torch.max" true [1] [] 5 [] []])
       (HookCtx false None None None None [] [])).2
  = ["torch.Tensor.__getitem__"; "torch.nn.functional.interpolate";
     "torch.max"].
Proof.
  exact (proj2 (wrapper_free_converts
    (Call "torch.nn.functional.interpolate" false [0] [] 1
       [Call "torch.Tensor.__getitem__" true [0; 2] [] 3
          [Call "torch.max" true [3] [] 4 [] []] []]
       [Call "torch.max" true [1] [] 5 [] []])
    (HookCtx false None None None None [] []) eq_refl)).
Defined.

End WrapperFacts.

(** ** More on the indexing converter *)

Section GetitemFacts.

Import Torch2trt Getitem Wf GetitemSteps.

(** X19. For a positive step and start at most stop (after the defaults),
    the size that [slice_to_trt] returns is the number of indices
    [start, start + step, start + 2 step, ...] that lie before stop, so the
    last of them is before stop too.  Without that order the size is not
    clamped: it is negative as soon as stop is at most start minus step. *)
Theorem slice_to_trt_counts (D : Z) (start stop step : option Z) :
  (0 < default 1 step)%Z →
  ∃ n,
    slice_to_trt D start stop step
    = inr (default 0%Z start, n, default 1%Z step)
    ∧ ((default 0 start <= default D stop)%Z →
       (0 <= n)%Z
       ∧ ∀ k, (0 <= k)%Z →
           (default 0 start + k * default 1 step < default D stop ↔ k < n)%Z)
    ∧ ((n < 0)%Z ↔ (default D stop <= default 0 start - default 1 step)%Z).
Proof.
  intros Hstep.
  exists ((default D stop - default 0 start - 1) / default 1 step + 1)%Z.
  split.
  - unfold slice_to_trt.
    destruct start, stop, step; simpl in *; repeat case_decide;
      try reflexivity; lia.
  - set (a := default 0%Z start). set (b := default D stop).
    set (st := default 1%Z step) in *.
    pose proof (Z.div_mod (b - a - 1) st ltac:(lia)) as Hdm.
    pose proof (Z.mod_pos_bound (b - a - 1) st Hstep) as Hb.
    set (q := ((b - a - 1) / st)%Z) in *.
    split.
    + intros Hle. split; [nia|]. intros k Hk. split; intros H; nia.
    + split; intros H; nia.
Qed.

Lemma slice_to_trt_counts_witness :
  ∃ n, slice_to_trt 10 (Some 2%Z) None (Some 3%Z) = inr (2%Z, n, 3%Z)
       ∧ (2 + 2 * 3 < 10 ↔ 2 < n)%Z.
Proof.
  destruct (slice_to_trt_counts 10 (Some 2%Z) None (Some 3%Z))
    as (n & Hn & Hcount & _); [simpl; lia|].
  exists n. split; [exact Hn|].
  apply (proj2 (Hcount ltac:(simpl; lia)) 2%Z). lia.
Defined.

Lemma replace_ellipsis_plain slices :
  forallb (fun s => negb (is_ellipsis s)) slices = true →
  ∀ n new_slices,
    replace_ellipsis n new_slices slices = new_slices ++ flat_map kept slices.
Proof.
  induction slices as [|s rest IH]; intros Hno n acc; simpl.
  - by rewrite app_nil_r.
  - simpl in Hno. apply andb_prop in Hno as [Hs Hrest].
    destruct s; simpl in *; try done;
      rewrite IH by done; by rewrite <- app_assoc.
Qed.

Lemma fill_missing_closed fuel rank :
  ∀ new_slices,
    Z.to_nat (rank - num_slice_types new_slices) ≤ fuel →
    fill_missing fuel rank new_slices
    = new_slices
        ++ repeat full_slice (Z.to_nat (rank - num_slice_types new_slices)).
Proof.
  induction fuel as [|fuel IH]; intros l Hle; simpl.
  - replace (Z.to_nat _) with 0 by lia. by rewrite app_nil_r.
  - case_decide as Hlt.
    + rewrite IH; rewrite num_slice_types_snoc; simpl; [|lia].
      replace (Z.to_nat (rank - num_slice_types l))
        with (S (Z.to_nat (rank - (num_slice_types l + 1)))) by lia.
      simpl. by rewrite <- app_assoc.
    + replace (Z.to_nat _) with 0 by lia. by rewrite app_nil_r.
Qed.

Lemma num_slice_types_app l1 l2 :
  num_slice_types (l1 ++ l2)
  = (num_slice_types l1 + num_slice_types l2)%Z.
Proof. induction l1 as [|s l1 IH]; simpl; [done|]. rewrite IH. lia. Qed.

Lemma num_slice_types_repeat n :
  num_slice_types (repeat full_slice n) = Z.of_nat n.
Proof. induction n as [|n IH]; simpl; [done|]. rewrite IH. lia. Qed.

(** X20. An index expression without an ellipsis is normalized element by
    element (an index tensor becomes a full slice, everything else stays)
    and then padded on the right with full slices, just as many as the rank
    of the tensor exceeds the number of slices and integers so far; an
    expression that already has that many is not padded.  Afterwards the
    number of slices and integers is the larger of the two. *)
Theorem normalize_pads_right (input_shape : list Z) (slices : list index) :
  forallb (fun s => negb (is_ellipsis s)) slices = true →
  normalize input_shape slices
  = flat_map kept slices
      ++ repeat full_slice
           (length input_shape
            - Z.to_nat (num_slice_types (flat_map kept slices)))
  ∧ num_slice_types (normalize input_shape slices)
    = Z.max (Z.of_nat (length input_shape))
        (num_slice_types (flat_map kept slices)).
Proof.
  intros Hno. unfold normalize.
  rewrite replace_ellipsis_plain by done. simpl.
  pose proof (num_slice_types_nonneg (flat_map kept slices)) as Hpos.
  rewrite fill_missing_closed by lia.
  replace (Z.to_nat (Z.of_nat (length input_shape)
                     - num_slice_types (flat_map kept slices)))
    with (length input_shape
          - Z.to_nat (num_slice_types (flat_map kept slices))) by lia.
  split; [done|].
  rewrite num_slice_types_app, num_slice_types_repeat. lia.
Qed.

Lemma normalize_pads_right_witness :
  normalize [1; 5; 4; 3]%Z [full_slice; IInt 0]
  = [full_slice; IInt 0; full_slice; full_slice].
Proof.
  exact (proj1 (normalize_pads_right [1; 5; 4; 3]%Z [full_slice; IInt 0]
                  eq_refl)).
Defined.

Lemma slice_loop_lengths input_shape trt_rank new_slices :
  ∀ input_dim starts sizes strides st sz sd,
    length starts = input_dim → length sizes = input_dim →
    length strides = input_dim →
    slice_loop input_shape trt_rank input_dim starts sizes strides new_slices
    = inr (st, sz, sd) →
    length st = length sz ∧ length sz = length sd
    ∧ input_dim ≤ length st
    ∧ (input_dim ≤ trt_rank →
       length st ≤ trt_rank
       ∧ ((Z.of_nat trt_rank
           <= Z.of_nat input_dim + num_slice_types new_slices)%Z →
          length st = trt_rank)).
Proof.
  induction new_slices as [|s rest IH];
    intros input_dim starts sizes strides st sz sd H1 H2 H3; simpl.
  - intros [= <- <- <-]. repeat split; try lia.
  - case_decide as Hbrk.
    { intros [= <- <- <-]. repeat split; try lia. }
    destruct (input_shape !! input_dim) as [input_size|]; [|done].
    pose proof (num_slice_types_nonneg rest) as Hpos.
    destruct s as [a b c|v| | |t].
    + destruct (slice_to_trt input_size a b c) as [|[[start size] stride]];
        [done|].
      intros Hrun. apply IH in Hrun; rewrite ?length_app; simpl; lia.
    + intros Hrun. apply IH in Hrun; rewrite ?length_app; simpl; lia.
    + intros Hrun. apply IH in Hrun; simpl; lia.
    + intros Hrun. apply IH in Hrun; simpl; lia.
    + intros Hrun. apply IH in Hrun; simpl; lia.
Qed.

Lemma slice_loop_error input_shape trt_rank new_slices :
  trt_rank ≤ length input_shape →
  ∀ input_dim starts sizes strides e,
    slice_loop input_shape trt_rank input_dim starts sizes strides new_slices
    = inl e →
    e = ZeroDivisionError.
Proof.
  intros Hrank.
  induction new_slices as [|s rest IH];
    intros input_dim starts sizes strides e; simpl; [done|].
  case_decide as Hbrk; [done|].
  destruct (input_shape !! input_dim) as [input_size|] eqn:Hl.
  2:{ apply lookup_ge_None in Hl. lia. }
  destruct s as [a b c|v| | |t]; try apply IH.
  unfold slice_to_trt. case_decide.
  - by intros [= <-].
  - apply IH.
Qed.

(** X21. When the input's tensor of the network has no more dimensions than
    the host tensor, the loop of step 3 over the normalized expression
    either raises [ZeroDivisionError] (a slice with step 0) or returns
    starts, sizes and strides with exactly one entry for each dimension of
    the input's tensor of the network. *)
Theorem slice_loop_one_triple_per_dim (input_shape : list Z) (trt_rank : nat)
    (slices : list index) :
  trt_rank ≤ length input_shape →
  match slice_loop input_shape trt_rank 0 [] [] []
          (normalize input_shape slices) with
  | inl e => e = ZeroDivisionError
  | inr (starts, sizes, strides) =>
      length starts = trt_rank ∧ length sizes = trt_rank
      ∧ length strides = trt_rank
  end.
Proof.
  intros Hrank.
  destruct (slice_loop _ _ _ _ _ _ _) as [e|[[st sz] sd]] eqn:Hrun.
  - by apply slice_loop_error in Hrun.
  - apply slice_loop_lengths in Hrun as (H1 & H2 & _ & H3); try done.
    destruct (H3 ltac:(lia)) as [_ H4].
    pose proof (normalize_covers input_shape slices).
    rewrite <- H2, <- H1. split; [|split]; apply H4; lia.
Qed.

Lemma slice_loop_one_triple_per_dim_witness :
  match slice_loop [1; 5; 4; 3]%Z 3 0 [] [] []
          (normalize [1; 5; 4; 3]%Z [full_slice; IInt 0]) with
  | inl e => e = ZeroDivisionError
  | inr (starts, sizes, strides) =>
      length starts = 3 ∧ length sizes = 3 ∧ length strides = 3
  end.
Proof.
  apply (slice_loop_one_triple_per_dim [1; 5; 4; 3]%Z 3 [full_slice; IInt 0]).
  simpl. lia.
Defined.

Lemma trt_1_full t s :
  ∃ h s1 pre,
    trt_1 t s = Ok h s1
    ∧ network s1 = network s ++ pre
    ∧ length pre ≤ 1
    ∧ filter (fun l => is_gather l) pre = []
    ∧ keeps_attrs s s1
    ∧ trt_attr s1 !! tid t = Some h
    ∧ trt_shape h = operand_shape s (OTensor t)
    ∧ (wf_state s → wf_state s1 ∧ valid_handle (network s1) h).
Proof.
  unfold trt_1, bind. simpl. destruct (trt_attr s !! tid t) as [h|] eqn:Hb.
  - rewrite (trt_single_bound t h) by done.
    exists h, s, []. rewrite app_nil_r.
    split; [done|]. split; [done|]. split; [simpl; lia|]. split; [done|].
    split; [by intros ? ? ?|]. split; [done|]. split; [done|].
    intros Hwf. split; [done|]. by apply (Hwf (tid t)).
  - rewrite trt_single_leaf by done.
    eexists _, _, [_]. split; [reflexivity|]. simpl.
    split; [done|]. split; [done|]. split; [done|]. split; [|split; [|split]].
    + intros k h' Hk. simpl. rewrite lookup_insert_ne; [done|congruence].
    + apply lookup_insert_eq.
    + done.
    + intros Hwf. split.
      * apply (wf_state_set_trt _ _ (State _ _)).
        -- by apply wf_state_add_layer.
        -- apply (valid_handle_new _ (LConstant _ _)).
      * apply (valid_handle_new _ (LConstant _ _)).
Qed.

(** [trt_] on one tensor adds nothing, or the constant of a leaf. *)
Lemma trt_1_layers t s :
  ∃ h s1 pre,
    trt_1 t s = Ok h s1
    ∧ network s1 = network s ++ pre
    ∧ (pre = [] ∨ pre = [LConstant (shape t) (WTensor (tid t))])
    ∧ trt_shape h = operand_shape s (OTensor t).
Proof.
  unfold trt_1, bind. simpl. destruct (trt_attr s !! tid t) as [h|] eqn:Hb.
  - rewrite (trt_single_bound t h) by done.
    exists h, s, []. rewrite app_nil_r. repeat split; by try left.
  - rewrite trt_single_leaf by done.
    eexists _, _, [_]. split; [reflexivity|]. simpl.
    repeat split; by try right.
Qed.

Lemma gather_loop_wf gidxs :
  ∀ out s out' s',
    wf_state s → valid_handle (network s) out →
    gather_loop out gidxs s = Ok out' s' →
    wf_state s' ∧ valid_handle (network s') out'.
Proof.
  induction gidxs as [|[e t] rest IH]; intros out s out' s' Hwf Hv.
  - by intros [= <- <-].
  - simpl. unfold bind at 1.
    destruct (trt_1_full t s) as (i & s1 & cs & -> & _ & _ & _ & _ & _ & _ & Hwf1).
    destruct (Hwf1 Hwf) as [Hwf1' _].
    unfold bind at 1, add_layer at 1. apply IH.
    + by apply wf_state_add_layer.
    + apply (valid_handle_new _ (LGather _ _ _)).
Qed.

Lemma gather_index_no_tensor slices :
  num_non_slice slices = 0 → ∀ n, gather_index n slices = [].
Proof.
  unfold num_non_slice.
  induction slices as [|s rest IH]; intros H n; [done|].
  rewrite filter_cons in H. destruct s; simpl in H; try done.
  simpl. by apply IH.
Qed.

Lemma convert_tensor_getitem_unfold dyn input slices output s input_trt s1 :
  trt_1 input s = Ok input_trt s1 →
  convert_tensor_getitem dyn input slices output s =
    match slice_loop (shape input) (length (trt_shape input_trt)) 0
            [] [] [] (normalize (shape input) (tuple_of slices)) with
    | inl e => Raise e s1
    | inr (starts, sizes, strides) =>
        match gather_loop (TrtTensor (length (network s1)) sizes)
                (gather_index 0 (step2_slices dyn (shape input) slices))
                (State (network s1 ++ [LSlice input_trt starts sizes strides])
                   (trt_attr s1)) with
        | Ok final s3 =>
            if decide (0 < num_non_slice
                             (step2_slices dyn (shape input) slices))
            then
              Ok (TrtTensor (length (network s3))
                    (step4_reshape_dims dyn output))
                 (State (network s3
                           ++ [LShuffle final (step4_reshape_dims dyn output)])
                    (<[tid output := TrtTensor (length (network s3))
                                       (step4_reshape_dims dyn output)]>
                       (trt_attr s3)))
            else Ok final (State (network s3)
                             (<[tid output := final]> (trt_attr s3)))
        | Raise e s3 => Raise e s3
        end
    end.
Proof.
  intros Hrun. unfold convert_tensor_getitem. unfold bind at 1. rewrite Hrun.
  fold (step2_slices dyn (shape input) slices).
  fold (step4_reshape_dims dyn output).
  destruct (slice_loop _ _ _ _ _ _ _) as [e|[[starts sizes] strides]];
    [done|].
  unfold lift, bind at 1, ret at 1. unfold bind at 1, add_layer at 1.
  unfold bind at 1. simpl.
  destruct (gather_loop _ _ _) as [final s3|]; [|done].
  case_decide; reflexivity.
Qed.

Lemma convert_tensor_getitem_spec dyn input slices output s :
  ∃ input_trt s1 pre,
    trt_1 input s = Ok input_trt s1
    ∧ network s1 = network s ++ pre
    ∧ length pre ≤ 1
    ∧ keeps_attrs s s1
    ∧ trt_shape input_trt = operand_shape s (OTensor input)
    ∧ (wf_state s → wf_state s1)
    ∧ match slice_loop (shape input) (length (trt_shape input_trt)) 0
              [] [] [] (normalize (shape input) (tuple_of slices)) with
      | inl e =>
          convert_tensor_getitem dyn input slices output s = Raise e s1
      | inr (starts, sizes, strides) =>
          ∃ r s3 ls final,
            network s3
              = network s1 ++ LSlice input_trt starts sizes strides :: ls
            ∧ keeps_attrs s1 s3
            ∧ (wf_state s → wf_state s3 ∧ valid_handle (network s3) final)
            ∧ (gather_index 0 (step2_slices dyn (shape input) slices) = [] →
               final = TrtTensor (length (network s1)) sizes)
            ∧ ((num_non_slice (step2_slices dyn (shape input) slices) = 0
                ∧ r = final
                ∧ convert_tensor_getitem dyn input slices output s
                  = Ok r (State (network s3)
                            (<[tid output := r]> (trt_attr s3))))
               ∨ (0 < num_non_slice (step2_slices dyn (shape input) slices)
                  ∧ r = TrtTensor (length (network s3))
                          (step4_reshape_dims dyn output)
                  ∧ convert_tensor_getitem dyn input slices output s
                    = Ok r (State
                              (network s3
                                 ++ [LShuffle final
                                       (step4_reshape_dims dyn output)])
                              (<[tid output := r]> (trt_attr s3)))))
      end.
Proof.
  destruct (trt_1_full input s)
    as (input_trt & s1 & pre & Hrun & Hn1 & Hlen & _ & Hk1 & _ & Hshape & Hwf1).
  exists input_trt, s1, pre. split; [done|]. split; [done|]. split; [done|].
  split; [done|]. split; [done|]. split; [intros H; by apply Hwf1|].
  rewrite (convert_tensor_getitem_unfold dyn input slices output s
             input_trt s1 Hrun).
  destruct (slice_loop _ _ _ _ _ _ _) as [e|[[starts sizes] strides]];
    [done|].
  set (out0 := TrtTensor _ _). set (s2 := State _ _).
  destruct (gather_loop_spec
              (gather_index 0 (step2_slices dyn (shape input) slices)) out0 s2)
    as (final & s3 & ls & Hg & Hn3 & Hmono & _ & _).
  rewrite Hg.
  assert (network s3
          = network s1 ++ LSlice input_trt starts sizes strides :: ls) as Hnet.
  { rewrite Hn3. unfold s2. simpl. by rewrite <- app_assoc. }
  assert (wf_state s → wf_state s3 ∧ valid_handle (network s3) final) as Hwf3.
  { intros Hwf. destruct (Hwf1 Hwf) as [Hwf1' Hv1].
    apply (gather_loop_wf
             (gather_index 0 (step2_slices dyn (shape input) slices))
             out0 s2 final s3); [| |done].
    - by apply wf_state_add_layer.
    - apply (valid_handle_new (network s1)
               (LSlice input_trt starts sizes strides)). }
  assert (gather_index 0 (step2_slices dyn (shape input) slices) = [] →
          final = TrtTensor (length (network s1)) sizes) as Hfin.
  { intros Hnil. rewrite Hnil in Hg. by injection Hg as <- _. }
  case_decide as Hns.
  - eexists _, s3, ls, final. split; [done|]. split; [done|].
    split; [done|]. split; [done|]. right. split; [done|].
    split; reflexivity.
  - exists final, s3, ls, final. split; [done|]. split; [done|].
    split; [done|]. split; [done|]. left. split; [lia|]. by split.
Qed.

(** X22. The layers [convert_tensor_getitem] adds where it returns, and
    what it binds.  After the constant of the input, if the input had no
    [_trt], comes the slice layer with the triples of step 3.  If every
    element of [slices] (after step 2) is a slice, that is all: no gather
    and no shuffle is added, and [output._trt] is the output of the slice
    layer, with the sizes as its shape.  Otherwise the gather layers follow
    (with the constants of their indices), chained from the output of the
    slice layer, and the last layer is a shuffle of the end of that chain
    to the shape of the host output, without its first dimension when the
    batch dimension is implicit; [output._trt] is the output of the
    shuffle. *)
Theorem getitem_result_shape (dyn : bool) (input : tensor)
    (slices : index_expr) (output : tensor) (s s' : state) (r : trt_tensor) :
  convert_tensor_getitem dyn input slices output s = Ok r s' →
  ∃ pre input_trt starts sizes strides,
    slice_loop (shape input)
      (length (operand_shape s (OTensor input))) 0 [] [] []
      (normalize (shape input) (tuple_of slices))
    = inr (starts, sizes, strides)
    ∧ (pre = [] ∨ pre = [LConstant (shape input) (WTensor (tid input))])
    ∧ trt_shape input_trt = operand_shape s (OTensor input)
    ∧ trt_attr s' !! tid output = Some r
    ∧ ((num_non_slice (step2_slices dyn (shape input) slices) = 0
        ∧ network s'
          = network s ++ pre ++ [LSlice input_trt starts sizes strides]
        ∧ r = TrtTensor (length (network s ++ pre)) sizes)
       ∨ (0 < num_non_slice (step2_slices dyn (shape input) slices)
          ∧ ∃ ls final,
              network s'
              = network s ++ pre
                  ++ LSlice input_trt starts sizes strides
                  :: ls ++ [LShuffle final (step4_reshape_dims dyn output)]
              ∧ chained (TrtTensor (length (network s ++ pre)) sizes)
                  (S (length (network s ++ pre))) ls final
              ∧ r = TrtTensor (S (length (network s ++ pre)) + length ls)
                      (step4_reshape_dims dyn output))).
Proof.
  intros Hrun.
  destruct (trt_1_layers input s)
    as (input_trt & s1 & pre & H1 & Hn1 & Hpre & Hsh).
  rewrite (convert_tensor_getitem_unfold dyn input slices output s
             input_trt s1 H1) in Hrun.
  rewrite Hsh in Hrun.
  destruct (slice_loop _ _ _ _ _ _ _) as [e|[[starts sizes] strides]];
    [done|].
  exists pre, input_trt, starts, sizes, strides.
  split; [done|]. split; [done|]. split; [done|].
  set (out0 := TrtTensor _ _) in Hrun. set (s2 := State _ _) in Hrun.
  destruct (gather_loop_spec
              (gather_index 0 (step2_slices dyn (shape input) slices)) out0 s2)
    as (final & s3 & ls & Hg & Hn3 & _ & _ & Hch).
  rewrite Hg in Hrun.
  assert (length (network s1) = length (network s ++ pre)) as Hlen
    by by rewrite Hn1.
  case_decide as Hns; injection Hrun as <- <-; simpl.
  - split; [apply lookup_insert_eq|]. right. split; [done|].
    exists ls, final. split; [|split].
    + rewrite Hn3. unfold s2. simpl. rewrite Hn1. by rewrite <- !app_assoc.
    + unfold s2, out0 in Hch. simpl in Hch.
      rewrite length_app in Hch. simpl in Hch.
      rewrite Nat.add_1_r, Hlen in Hch. exact Hch.
    + f_equal. rewrite Hn3. unfold s2. simpl.
      rewrite <- Hlen, !length_app. simpl. lia.
  - split; [apply lookup_insert_eq|]. left.
    assert (num_non_slice (step2_slices dyn (shape input) slices) = 0)
      as Hzero by lia.
    split; [done|].
    rewrite (gather_index_no_tensor _ Hzero) in Hg.
    injection Hg as <- <-. unfold s2, out0. simpl.
    split; [by rewrite Hn1, <- app_assoc|by rewrite Hlen].
Qed.

Lemma getitem_result_shape_witness :
  ∃ pre input_trt starts sizes strides,
    [LInput [1; 5]%Z;
     LSlice (TrtTensor 0 [1; 5]%Z) [0; 1]%Z [1; 2]%Z [1; 2]%Z]
    = [LInput [1; 5]%Z] ++ pre ++ [LSlice input_trt starts sizes strides]
    ∧ TrtTensor 1 [1; 2]%Z
      = TrtTensor (length ([LInput [1; 5]%Z] ++ pre)) sizes.
Proof.
  destruct (getitem_result_shape true (Tensor 0 [1; 5]%Z float32)
              (Tuple [full_slice; ISlice (Some 1%Z) None (Some 2%Z)])
              (Tensor 1 [1; 2]%Z float32)
              (State [LInput [1; 5]%Z] {[0 := TrtTensor 0 [1; 5]%Z]})
              (State [LInput [1; 5]%Z;
                      LSlice (TrtTensor 0 [1; 5]%Z) [0; 1]%Z [1; 2]%Z [1; 2]%Z]
                 (<[1 := TrtTensor 1 [1; 2]%Z]>
                    {[0 := TrtTensor 0 [1; 5]%Z]}))
              (TrtTensor 1 [1; 2]%Z))
    as (pre & input_trt & starts & sizes & strides
        & _ & _ & _ & _ & [(_ & Hnet & Hr)|(Hns & _)]).
  - vm_compute. reflexivity.
  - exists pre, input_trt, starts, sizes, strides. by split.
  - exfalso. revert Hns. vm_compute. lia.
Defined.

(** X24. Whether it returns or raises, [convert_tensor_getitem] only appends
    layers to the network, and the only [_trt] it may overwrite is the one
    of its output: every other tensor that had a [_trt], the indexed tensor
    included, keeps it. *)
Theorem getitem_only_appends (dyn : bool) (input : tensor)
    (slices : index_expr) (output : tensor) (s : state) :
  ∃ ls,
    network (final_state (convert_tensor_getitem dyn input slices output s))
    = network s ++ ls
    ∧ ∀ k h, k ≠ tid output → trt_attr s !! k = Some h →
        trt_attr (final_state
                    (convert_tensor_getitem dyn input slices output s)) !! k
        = Some h.
Proof.
  destruct (convert_tensor_getitem_spec dyn input slices output s)
    as (input_trt & s1 & pre & _ & Hn1 & _ & Hk1 & _ & _ & Hspec).
  destruct (slice_loop _ _ _ _ _ _ _) as [e|[[starts sizes] strides]].
  - rewrite Hspec. exists pre. split; [done|]. intros k h _ Hk. by apply Hk1.
  - destruct Hspec as (r0 & s3 & ls & final & Hn3 & Hk3 & _ & _ & Hcase).
    destruct Hcase as [(_ & -> & ->)|(_ & -> & ->)]; simpl.
    + eexists. split; [by rewrite Hn3, Hn1, <- app_assoc|].
      intros k h Hne Hk. rewrite lookup_insert_ne by done.
      by apply Hk3, Hk1.
    + eexists. split; [by rewrite Hn3, Hn1, <- !app_assoc|].
      intros k h Hne Hk. rewrite lookup_insert_ne by done.
      by apply Hk3, Hk1.
Qed.

(** X25. [convert_tensor_getitem] raises exactly when the loop of step 3
    raises, with the same exception (a slice with step 0, or an index out of
    the host shape), and it does so before the slice layer is added: by
    then the network has gained at most the constant of a leaf input.  In
    every other case it returns. *)
Theorem getitem_raises_iff (dyn : bool) (input : tensor)
    (slices : index_expr) (output : tensor) (s : state) :
  (∀ e, (∃ s', convert_tensor_getitem dyn input slices output s = Raise e s')
        ↔ slice_loop (shape input)
            (length (operand_shape s (OTensor input))) 0 [] [] []
            (normalize (shape input) (tuple_of slices)) = inl e)
  ∧ (∀ e s', convert_tensor_getitem dyn input slices output s = Raise e s' →
       network s' = network s
       ∨ network s'
         = network s ++ [LConstant (shape input) (WTensor (tid input))])
  ∧ ((∃ triples,
        slice_loop (shape input)
          (length (operand_shape s (OTensor input))) 0 [] [] []
          (normalize (shape input) (tuple_of slices)) = inr triples)
     → ∃ r s', convert_tensor_getitem dyn input slices output s = Ok r s').
Proof.
  destruct (convert_tensor_getitem_spec dyn input slices output s)
    as (input_trt & s1 & pre & Hrun & Hn1 & Hlen & Hk1 & Hshape & _ & Hspec).
  rewrite Hshape in Hspec.
  destruct (slice_loop _ _ _ _ _ _ _) as [e0|[[starts sizes] strides]].
  - split; [|split].
    + intros e. rewrite Hspec. split.
      * by intros (s' & [= -> _]).
      * intros [= ->]. eauto.
    + intros e s'. rewrite Hspec. intros [= _ <-].
      unfold trt_1, bind in Hrun. simpl in Hrun.
      destruct (trt_attr s !! tid input) as [h|] eqn:Hb.
      * rewrite (trt_single_bound input h) in Hrun by done.
        injection Hrun as _ <-. by left.
      * rewrite trt_single_leaf in Hrun by done.
        injection Hrun as _ <-. by right.
    + by intros (? & ?).
  - destruct Hspec as (r & s3 & ls & final & _ & _ & _ & _ & Hcase).
    assert (∃ r' s', convert_tensor_getitem dyn input slices output s
                     = Ok r' s') as (r' & s' & Hok).
    { destruct Hcase as [(_ & _ & ->)|(_ & _ & ->)]; eauto. }
    split; [|split].
    + intros e. rewrite Hok. split; [by intros (? & ?)|done].
    + intros e s0. by rewrite Hok.
    + eauto.
Qed.

Lemma getitem_raises_iff_witness :
  ∃ s',
    convert_tensor_getitem true (Tensor 0 [1; 5]%Z float32)
      (Tuple [full_slice; ISlice None None (Some 0%Z)])
      (Tensor 1 [1; 5]%Z float32)
      (State [LInput [1; 5]%Z] {[0 := TrtTensor 0 [1; 5]%Z]})
    = Raise ZeroDivisionError s'.
Proof.
  apply (proj1 (getitem_raises_iff true (Tensor 0 [1; 5]%Z float32)
                  (Tuple [full_slice; ISlice None None (Some 0%Z)])
                  (Tensor 1 [1; 5]%Z float32)
                  (State [LInput [1; 5]%Z] {[0 := TrtTensor 0 [1; 5]%Z]}))
           ZeroDivisionError).
  vm_compute. reflexivity.
Defined.

End GetitemFacts.

(** ** The counts of the slice layer *)

Section SliceSize.

Import Torch2trt Getitem Wf GetitemSteps.

(** The function itself: defaults and floor division. *)
Lemma slice_to_trt_inr D a b c start size stride :
  slice_to_trt D a b c = inr (start, size, stride) →
  default 1%Z c ≠ 0%Z
  ∧ start = default 0%Z a
  ∧ size = ((default D b - default 0 a - 1) / default 1 c + 1)%Z
  ∧ stride = default 1%Z c.
Proof.
  unfold slice_to_trt.
  change (match c with Some v => v | None => 1%Z end) with (default 1%Z c).
  change (match a with Some v => v | None => 0%Z end) with (default 0%Z a).
  change (match b with Some v => v | None => D end) with (default D b).
  case_decide; [done|]. intros [= <- <- <-]. by repeat split.
Qed.

(** The loop of step 3 appends one triple for each slice or integer it
    reaches, computed from the host dimension with the same number. *)
Lemma slice_loop_entries input_shape trt_rank new_slices :
  ∀ input_dim starts sizes strides st sz sd,
    slice_loop input_shape trt_rank input_dim starts sizes strides new_slices
    = inr (st, sz, sd) →
    ∃ nst nsz nsd,
      st = starts ++ nst ∧ sz = sizes ++ nsz ∧ sd = strides ++ nsd
      ∧ ∀ k e, consuming new_slices !! k = Some e →
          input_dim + k < trt_rank →
          ∃ D x y z,
            input_shape !! (input_dim + k) = Some D
            ∧ nst !! k = Some x ∧ nsz !! k = Some y ∧ nsd !! k = Some z
            ∧ match e with
              | ISlice a b c => slice_to_trt D a b c = inr (x, y, z)
              | IInt v => x = v ∧ y = 1%Z ∧ z = 1%Z
              | _ => False
              end.
Proof.
  induction new_slices as [|s rest IH];
    intros input_dim starts sizes strides st sz sd; simpl.
  - intros [= <- <- <-]. exists [], [], []. rewrite !app_nil_r.
    repeat split; try done.
  - case_decide as Hbrk.
    { intros [= <- <- <-]. exists [], [], []. rewrite !app_nil_r.
      repeat split; try done. intros k e _ Hk. lia. }
    destruct (input_shape !! input_dim) as [input_size|] eqn:Hsize; [|done].
    unfold consuming. rewrite filter_cons.
    destruct s as [a b c|v| | |t]; simpl.
    + destruct (slice_to_trt input_size a b c) as [|[[start size] stride]] eqn:Hs;
        [done|].
      intros Hrun.
      apply IH in Hrun as (nst & nsz & nsd & -> & -> & -> & Hent).
      exists (start :: nst), (size :: nsz), (stride :: nsd).
      rewrite <- !app_assoc. repeat split; try done.
      intros [|k] e He Hk; simpl in He.
      * injection He as <-. exists input_size, start, size, stride.
        rewrite Nat.add_0_r. by repeat split.
      * destruct (Hent k e He ltac:(lia)) as (D & x & y & z & HD & H).
        exists D, x, y, z. split; [|done].
        by replace (input_dim + S k) with (S input_dim + k) by lia.
    + intros Hrun.
      apply IH in Hrun as (nst & nsz & nsd & -> & -> & -> & Hent).
      exists (v :: nst), (1%Z :: nsz), (1%Z :: nsd).
      rewrite <- !app_assoc. repeat split; try done.
      intros [|k] e He Hk; simpl in He.
      * injection He as <-. exists input_size, v, 1%Z, 1%Z.
        rewrite Nat.add_0_r. by repeat split.
      * destruct (Hent k e He ltac:(lia)) as (D & x & y & z & HD & H).
        exists D, x, y, z. split; [|done].
        by replace (input_dim + S k) with (S input_dim + k) by lia.
    + intros Hrun. apply IH in Hrun as (nst & nsz & nsd & -> & -> & -> & Hent).
      exists nst, nsz, nsd. repeat split; try done.
    + intros Hrun. apply IH in Hrun as (nst & nsz & nsd & -> & -> & -> & Hent).
      exists nst, nsz, nsd. repeat split; try done.
    + intros Hrun. apply IH in Hrun as (nst & nsz & nsd & -> & -> & -> & Hent).
      exists nst, nsz, nsd. repeat split; try done.
Qed.

Lemma gather_loop_layers gidxs :
  ∀ out s out' s',
    gather_loop out gidxs s = Ok out' s' →
    ∃ ls, network s' = network s ++ ls
          ∧ filter (fun l => is_slice_layer l) ls = [].
Proof.
  induction gidxs as [|[e t] rest IH]; intros out s out' s'.
  - intros [= <- <-]. exists []. by rewrite app_nil_r.
  - simpl. unfold bind at 1.
    destruct (trt_1_layers t s) as (i & s1 & cs & -> & Hn1 & Hcs & _).
    unfold bind at 1, add_layer at 1. intros Hrun.
    apply IH in Hrun as (ls & Hn & Hls). simpl in Hn.
    exists (cs ++ LGather out i e :: ls). split.
    + by rewrite Hn, Hn1, <- !app_assoc.
    + rewrite filter_app, filter_cons. simpl. rewrite Hls.
      by destruct Hcs as [->| ->].
Qed.

(** C2. Where [convert_tensor_getitem] returns it has added exactly one
    slice layer, on the input's tensor of the network.  For the slice
    (start, stop, step) that is the [k]-th of the slices and integers of the
    normalized expression ([k] below the rank of that tensor), entry [k] of
    the sizes passed to the layer is floor((stop - start - 1) / step) + 1,
    with start = 0, stop = D and step = 1 for the fields that are None,
    where D is the size of dimension [k] of the host tensor; entries [k] of
    the starts and strides are start and step.  The function that computes
    the triple gives D=5,(0,5,1): 5; D=5,(1,None,2): 2; D=5,(1,3,2): 1;
    D=4,(0,3,4): 1. *)
Theorem slice_to_trt_size (dyn : bool) (input : tensor) (slices : index_expr)
    (output : tensor) (s s' : state) (r : trt_tensor) :
  convert_tensor_getitem dyn input slices output s = Ok r s' →
  (∃ pre input_trt starts sizes strides post,
     network s'
     = network s ++ pre ++ LSlice input_trt starts sizes strides :: post
     ∧ filter (fun l => is_slice_layer l) (pre ++ post) = []
     ∧ trt_shape input_trt = operand_shape s (OTensor input)
     ∧ ∀ k start stop step,
         consuming (normalize (shape input) (tuple_of slices)) !! k
         = Some (ISlice start stop step) →
         k < length (trt_shape input_trt) →
         ∃ D,
           shape input !! k = Some D
           ∧ starts !! k = Some (default 0%Z start)
           ∧ sizes !! k
             = Some ((default D stop - default 0 start - 1)
                       / default 1 step + 1)%Z
           ∧ strides !! k = Some (default 1%Z step))
  ∧ slice_to_trt 5 (Some 0%Z) (Some 5%Z) (Some 1%Z) = inr (0, 5, 1)%Z
  ∧ slice_to_trt 5 (Some 1%Z) None (Some 2%Z) = inr (1, 2, 2)%Z
  ∧ slice_to_trt 5 (Some 1%Z) (Some 3%Z) (Some 2%Z) = inr (1, 1, 2)%Z
  ∧ slice_to_trt 4 (Some 0%Z) (Some 3%Z) (Some 4%Z) = inr (0, 1, 4)%Z.
Proof.
  intros Hrun. split; [|by repeat split].
  destruct (trt_1_layers input s) as (input_trt & s1 & pre & H1 & Hn1 & Hpre & Hsh).
  rewrite (convert_tensor_getitem_unfold dyn input slices output s
             input_trt s1 H1) in Hrun.
  destruct (slice_loop _ _ _ _ _ _ _) as [e|[[starts sizes] strides]] eqn:Hloop;
    [done|].
  destruct (gather_loop _ _ _) as [final s3|] eqn:Hg; [|done].
  apply gather_loop_layers in Hg as (ls & Hn3 & Hls). simpl in Hn3.
  apply slice_loop_entries in Hloop as (nst & nsz & nsd & -> & -> & -> & Hent).
  simpl in Hent.
  assert (∃ post, network s' = network s3 ++ post
                  ∧ filter (fun l => is_slice_layer l) post = [])
    as (post & Hn' & Hpost).
  { case_decide; injection Hrun as _ <-; simpl.
    - by eexists [_].
    - exists []. by rewrite app_nil_r. }
  exists pre, input_trt, nst, nsz, nsd, (ls ++ post).
  split; [|split; [|split; [done|]]].
  - rewrite Hn', Hn3, Hn1. by rewrite <- !app_assoc.
  - rewrite !filter_app, Hls, Hpost. by destruct Hpre as [->| ->].
  - intros k start stop step Hk Hlt.
    destruct (Hent k _ Hk Hlt) as (D & x & y & z & HD & Hx & Hy & Hz & Hs).
    apply slice_to_trt_inr in Hs as (_ & -> & -> & ->).
    exists D. by repeat split.
Qed.

Lemma slice_to_trt_size_witness :
  ∃ pre input_trt starts sizes strides post,
    [LInput [1; 5]%Z;
     LSlice (TrtTensor 0 [1; 5]%Z) [0; 1]%Z [1; 2]%Z [1; 2]%Z]
    = [LInput [1; 5]%Z]
        ++ pre ++ LSlice input_trt starts sizes strides :: post
    ∧ sizes !! 1 = Some ((5 - 1 - 1) / 2 + 1)%Z.
Proof.
  destruct (slice_to_trt_size true (Tensor 0 [1; 5]%Z float32)
              (Tuple [full_slice; ISlice (Some 1%Z) None (Some 2%Z)])
              (Tensor 1 [1; 2]%Z float32)
              (State [LInput [1; 5]%Z] {[0 := TrtTensor 0 [1; 5]%Z]})
              (State [LInput [1; 5]%Z;
                      LSlice (TrtTensor 0 [1; 5]%Z) [0; 1]%Z [1; 2]%Z [1; 2]%Z]
                 (<[1 := TrtTensor 1 [1; 2]%Z]>
                    {[0 := TrtTensor 0 [1; 5]%Z]}))
              (TrtTensor 1 [1; 2]%Z))
    as [(pre & input_trt & starts & sizes & strides & post
         & Hnet & _ & Hsh & Hent) _].
  - vm_compute. reflexivity.
  - exists pre, input_trt, starts, sizes, strides, post.
    split; [exact Hnet|].
    destruct (Hent 1 (Some 1%Z) None (Some 2%Z)) as (D & HD & _ & Hsz & _).
    + vm_compute. reflexivity.
    + rewrite Hsh. vm_compute. lia.
    + injection HD as <-. exact Hsz.
Defined.

End SliceSize.

(** ** The expansion of the ellipsis *)

Section Ellipsis.

Import Torch2trt Getitem GetitemSteps.

Lemma num_slice_types_consuming slices :
  forallb (fun s => negb (is_index_tensor s)) slices = true →
  num_slice_types slices = Z.of_nat (num_dimension_consuming slices).
Proof.
  unfold num_dimension_consuming.
  induction slices as [|s rest IH]; intros Hno; simpl; [done|].
  simpl in Hno. apply andb_prop in Hno as [Hs Hrest].
  rewrite filter_cons, (IH Hrest).
  destruct s; simpl in *; try done; lia.
Qed.

Lemma num_dimension_consuming_app l1 l2 :
  num_dimension_consuming (l1 ++ l2)
  = num_dimension_consuming l1 + num_dimension_consuming l2.
Proof.
  unfold num_dimension_consuming. by rewrite filter_app, length_app.
Qed.

Lemma num_dimension_consuming_kept slices :
  forallb (fun s => negb (is_index_tensor s)) slices = true →
  num_slice_types (flat_map kept slices)
  = Z.of_nat (num_dimension_consuming slices).
Proof.
  unfold num_dimension_consuming.
  induction slices as [|s rest IH]; intros Hno; simpl; [done|].
  simpl in Hno. apply andb_prop in Hno as [Hs Hrest].
  rewrite num_slice_types_app, filter_cons, (IH Hrest).
  destruct s; simpl in *; try done; lia.
Qed.

Lemma flat_map_kept_no_tensor slices :
  forallb (fun s => negb (is_index_tensor s)) (flat_map kept slices) = true.
Proof.
  induction slices as [|s rest IH]; simpl; [done|].
  rewrite forallb_app, IH. by destruct s.
Qed.

Lemma repeat_full_slice_no_tensor n :
  forallb (fun s => negb (is_index_tensor s)) (repeat full_slice n) = true.
Proof. induction n as [|n IH]; simpl; [done|]. exact IH. Qed.

(** C3, for an expression without index tensors. The (first) ellipsis of
    the expression is replaced by as many full slices as the rank of the
    tensor exceeds the number of elements that index a dimension (the
    slices and the integers), between what the elements before it and after
    it become.  If that number is at most the rank, nothing more is
    appended and the normalized expression has as many elements indexing a
    dimension as the tensor has dimensions.  For [(:, None, ...)] on a
    tensor of host shape (1,5,4,3) the ellipsis becomes 3 full slices:
    [new_slices] has 4 slices, one for each of the 4 dimensions, and one
    [None]. *)
Theorem ellipsis_expansion (input_shape : list Z) (pre post : list index) :
  forallb (fun s => negb (is_ellipsis s)) pre = true →
  forallb (fun s => negb (is_index_tensor s)) (pre ++ post) = true →
  replace_ellipsis
    (Z.of_nat (length input_shape)
     - num_slice_types (pre ++ IEllipsis :: post))
    [] (pre ++ IEllipsis :: post)
  = flat_map kept pre
      ++ repeat full_slice
           (length input_shape
            - num_dimension_consuming (pre ++ IEllipsis :: post))
      ++ flat_map kept post
  ∧ (num_dimension_consuming (pre ++ IEllipsis :: post) ≤ length input_shape →
     normalize input_shape (pre ++ IEllipsis :: post)
     = flat_map kept pre
         ++ repeat full_slice
              (length input_shape
               - num_dimension_consuming (pre ++ IEllipsis :: post))
         ++ flat_map kept post
     ∧ num_dimension_consuming
         (normalize input_shape (pre ++ IEllipsis :: post))
       = length input_shape)
  ∧ replace_ellipsis (4 - 1) [] [full_slice; INone; IEllipsis]
    = [full_slice; INone] ++ repeat full_slice 3
  ∧ normalize [1; 5; 4; 3]%Z [full_slice; INone; IEllipsis]
    = [full_slice; INone; full_slice; full_slice; full_slice]
  ∧ num_dimension_consuming
      (normalize [1; 5; 4; 3]%Z [full_slice; INone; IEllipsis]) = 4
  ∧ length (filter (fun s => is_newaxis s)
              (normalize [1; 5; 4; 3]%Z [full_slice; INone; IEllipsis])) = 1.
Proof.
  intros Hpre Hno.
  assert (forallb (fun s => negb (is_index_tensor s))
            (pre ++ IEllipsis :: post) = true) as Hno'.
  { rewrite forallb_app in *. simpl. exact Hno. }
  assert (forallb (fun s => negb (is_index_tensor s)) pre = true
          ∧ forallb (fun s => negb (is_index_tensor s)) post = true)
    as [Hnopre Hnopost].
  { rewrite forallb_app in Hno. by apply andb_prop in Hno. }
  pose proof (num_slice_types_consuming _ Hno') as Hcount.
  assert (replace_ellipsis
            (Z.of_nat (length input_shape)
             - num_slice_types (pre ++ IEllipsis :: post))
            [] (pre ++ IEllipsis :: post)
          = flat_map kept pre
              ++ repeat full_slice
                   (length input_shape
                    - num_dimension_consuming (pre ++ IEllipsis :: post))
              ++ flat_map kept post) as Hrep.
  { rewrite replace_ellipsis_first by done. simpl. do 3 f_equal.
    rewrite Hcount. lia. }
  split; [done|]. split; [|by repeat split].
  intros Hle.
  assert (num_slice_types
            (flat_map kept pre
               ++ repeat full_slice
                    (length input_shape
                     - num_dimension_consuming (pre ++ IEllipsis :: post))
               ++ flat_map kept post)
          = Z.of_nat (length input_shape)) as Hfull.
  { rewrite !num_slice_types_app, num_slice_types_repeat.
    rewrite !num_dimension_consuming_kept by done.
    rewrite num_dimension_consuming_app in *.
    change (IEllipsis :: post) with ([IEllipsis] ++ post) in *.
    rewrite num_dimension_consuming_app in *.
    change (num_dimension_consuming [IEllipsis]) with 0 in *. lia. }
  assert (normalize input_shape (pre ++ IEllipsis :: post)
          = flat_map kept pre
              ++ repeat full_slice
                   (length input_shape
                    - num_dimension_consuming (pre ++ IEllipsis :: post))
              ++ flat_map kept post) as Hnorm.
  { unfold normalize. rewrite Hrep.
    rewrite fill_missing_closed by (rewrite Hfull; lia).
    rewrite Hfull. replace (Z.to_nat _) with 0 by lia.
    by rewrite app_nil_r. }
  split; [done|]. rewrite Hnorm.
  apply Nat2Z.inj. rewrite <- Hfull. symmetry.
  apply num_slice_types_consuming.
  rewrite !forallb_app, !flat_map_kept_no_tensor, repeat_full_slice_no_tensor.
  done.
Qed.

Lemma ellipsis_expansion_witness :
  replace_ellipsis (Z.of_nat 4 - 2) [] [full_slice; IEllipsis; IInt 0]
  = [full_slice; full_slice; full_slice; IInt 0]
  ∧ num_dimension_consuming
      (normalize [1; 5; 4; 3]%Z [full_slice; IEllipsis; IInt 0]) = 4.
Proof.
  destruct (ellipsis_expansion [1; 5; 4; 3]%Z [full_slice] [IInt 0]
              eq_refl eq_refl) as (Hrep & Hnorm & _).
  split; [exact Hrep|]. apply Hnorm. vm_compute. lia.
Defined.

(** C3 as stated fails.  For [(:, None, ...)] on host shape (1,5,4,3) the
    ellipsis does not become 2 full slices.  And with an index tensor the
    rule itself fails: for [(idx, ..., 0)] on host shape (2,3,5), two of the
    three dimensions are indexed, by [idx] and by [0], but the ellipsis
    becomes 2 full slices and not 1, because [num_slice_types] does not
    count [idx]; the normalized expression then has 4 elements that index a
    dimension for a tensor of 3. *)
Lemma ellipsis_expansion_not_two :
  normalize [1; 5; 4; 3]%Z [full_slice; INone; IEllipsis]
    ≠ [full_slice; INone] ++ repeat full_slice 2
  ∧ replace_ellipsis (4 - num_slice_types [full_slice; INone; IEllipsis]) []
      [full_slice; INone; IEllipsis]
    ≠ [full_slice; INone] ++ repeat full_slice 2
  ∧ replace_ellipsis
      (3 - num_slice_types
             [ITensor (Tensor 1 [2]%Z int64); IEllipsis; IInt 0])
      [] [ITensor (Tensor 1 [2]%Z int64); IEllipsis; IInt 0]
    = [full_slice] ++ repeat full_slice 2 ++ [IInt 0]
  ∧ 3 - num_dimension_consuming
          [ITensor (Tensor 1 [2]%Z int64); IEllipsis; IInt 0] = 1
  ∧ num_dimension_consuming
      (normalize [2; 3; 5]%Z
         [ITensor (Tensor 1 [2]%Z int64); IEllipsis; IInt 0]) = 4.
Proof. repeat split; try discriminate; reflexivity. Qed.

End Ellipsis.

(** ** The gather layers of the indexing converter *)

Section GatherAxis.

Import Torch2trt Getitem Wf GetitemSteps.

Lemma replace_ellipsis_no_tensor slices :
  ∀ n new_slices,
    forallb (fun s => negb (is_index_tensor s)) new_slices = true →
    forallb (fun s => negb (is_index_tensor s))
      (replace_ellipsis n new_slices slices) = true.
Proof.
  induction slices as [|s rest IH]; intros n acc Hacc; simpl; [done|].
  destruct s; try (apply IH; rewrite forallb_app, Hacc; done).
  rewrite ellipsis_loop_closed by lia.
  apply IH. by rewrite forallb_app, Hacc, repeat_full_slice_no_tensor.
Qed.

Lemma fill_missing_no_tensor fuel rank :
  ∀ new_slices,
    forallb (fun s => negb (is_index_tensor s)) new_slices = true →
    forallb (fun s => negb (is_index_tensor s))
      (fill_missing fuel rank new_slices) = true.
Proof.
  induction fuel as [|fuel IH]; intros acc Hacc; simpl; [done|].
  case_decide; [|done]. apply IH. by rewrite forallb_app, Hacc.
Qed.

(** After step 1 no element of [new_slices] is a tensor. *)
Lemma normalize_no_tensor input_shape slices :
  forallb (fun s => negb (is_index_tensor s)) (normalize input_shape slices)
  = true.
Proof.
  unfold normalize. by apply fill_missing_no_tensor, replace_ellipsis_no_tensor.
Qed.

Lemma gather_index_no_index_tensor slices :
  forallb (fun s => negb (is_index_tensor s)) slices = true →
  ∀ e, gather_index e slices = [].
Proof.
  induction slices as [|s rest IH]; intros Hno e; simpl; [done|].
  simpl in Hno. apply andb_prop in Hno as [Hs Hrest].
  destruct s; simpl in Hs; try done; by apply IH.
Qed.

Lemma forallb_drop {A} (p : A → bool) n (l : list A) :
  forallb p l = true → forallb p (drop n l) = true.
Proof.
  revert n. induction l as [|x l IH]; intros [|n] H; simpl in *; try done.
  apply andb_prop in H as [_ H]. by apply IH.
Qed.

(** C4, where the code departs from it.  When the batch dimension is
    implicit, [slices] is taken from [new_slices], in which step 1 has
    already put a full slice in the place of every index tensor: the list
    of gather positions is empty for every input and every index
    expression, and the converter never adds a gather layer.  On the
    claim's example, an input of host shape (1,5) with [_trt] of shape (5,)
    indexed by [[:, idx]], [idx] a long tensor of 2 elements, the result is
    the output of the slice layer, of shape (1,), not (2,).  When the batch
    dimension is explicit, [slices] is still the expression as it was
    written, so the gather axis is the position of the tensor there and not
    in the normalized expression: for [[..., idx]] on shape (2,3,5) the
    full slice that stands for [idx] is the last element of [new_slices],
    but the gather is on axis 1, and its output of shape (2,4,5) is
    reshaped to the host's (2,3,4). *)
Theorem getitem_gather_not_emitted :
  (∀ (input : tensor) (slices : index_expr),
     gather_index 0 (step2_slices false (shape input) slices) = [])
  ∧ (∀ (input : tensor) (slices : index_expr) (output : tensor) (s : state),
       ∃ ls,
         network (final_state
                    (convert_tensor_getitem false input slices output s))
         = network s ++ ls
         ∧ filter (fun l => is_gather l) ls = [])
  ∧ convert_tensor_getitem false (Tensor 0 [1; 5]%Z float32)
      (Tuple [full_slice; ITensor (Tensor 1 [2]%Z int64)])
      (Tensor 2 [1; 2]%Z float32)
      (State [LInput [5]%Z] {[0 := TrtTensor 0 [5]%Z]})
    = Ok (TrtTensor 1 [1]%Z)
         (State [LInput [5]%Z; LSlice (TrtTensor 0 [5]%Z) [0]%Z [1]%Z [1]%Z]
            (<[2 := TrtTensor 1 [1]%Z]> {[0 := TrtTensor 0 [5]%Z]}))
  ∧ normalize [2; 3; 5]%Z [IEllipsis; ITensor (Tensor 1 [4]%Z int64)]
    = repeat full_slice 3 ++ kept (ITensor (Tensor 1 [4]%Z int64))
  ∧ convert_tensor_getitem true (Tensor 0 [2; 3; 5]%Z float32)
      (Tuple [IEllipsis; ITensor (Tensor 1 [4]%Z int64)])
      (Tensor 2 [2; 3; 4]%Z float32)
      (State [LInput [2; 3; 5]%Z] {[0 := TrtTensor 0 [2; 3; 5]%Z]})
    = Ok (TrtTensor 4 [2; 3; 4]%Z)
         (State [LInput [2; 3; 5]%Z;
                 LSlice (TrtTensor 0 [2; 3; 5]%Z)
                   [0; 0; 0]%Z [2; 3; 5]%Z [1; 1; 1]%Z;
                 LConstant [4]%Z (WTensor 1);
                 LGather (TrtTensor 1 [2; 3; 5]%Z) (TrtTensor 2 [4]%Z) 1;
                 LShuffle (TrtTensor 3 [2; 4; 5]%Z) [2; 3; 4]%Z]
            (<[2 := TrtTensor 4 [2; 3; 4]%Z]>
               (<[1 := TrtTensor 2 [4]%Z]>
                  {[0 := TrtTensor 0 [2; 3; 5]%Z]}))).
Proof.
  assert (∀ (input : tensor) (slices : index_expr),
            gather_index 0 (step2_slices false (shape input) slices) = [])
    as Hnone.
  { intros input slices. unfold step2_slices.
    apply gather_index_no_index_tensor, forallb_drop, normalize_no_tensor. }
  split; [done|]. split; [|split; [|split]].
  - intros input slices output s.
    destruct (trt_1_full input s)
      as (input_trt & s1 & pre & Hrun & Hn1 & _ & Hpre & _).
    rewrite (convert_tensor_getitem_unfold false input slices output s
               input_trt s1 Hrun).
    destruct (slice_loop _ _ _ _ _ _ _) as [e|[[starts sizes] strides]].
    { by exists pre. }
    rewrite Hnone. simpl gather_loop. unfold ret.
    case_decide; simpl; rewrite Hn1, <- !app_assoc; eexists; split;
      try reflexivity; by rewrite !filter_app, Hpre.
  - vm_compute. reflexivity.
  - reflexivity.
  - vm_compute. reflexivity.
Qed.

End GatherAxis.

(** ** The registry and the installation of the hooks *)

Section RegistryFacts.

Import Torch2trt Utility Registry.

Lemma dict_set_get {V} (d : list (string * V)) k v :
  dict_get (dict_set d k v) k = Some v.
Proof.
  induction d as [|[k' v'] rest IH]; simpl.
  - by rewrite decide_True.
  - case_decide as E; simpl.
    + by rewrite decide_True.
    + by rewrite decide_False.
Qed.

Lemma dict_set_get_ne {V} (d : list (string * V)) k v k' :
  k' ≠ k → dict_get (dict_set d k v) k' = dict_get d k'.
Proof.
  intros Hne. induction d as [|[k0 v0] rest IH]; simpl.
  - by rewrite decide_False.
  - case_decide as E; simpl.
    + subst k0. by rewrite !decide_False.
    + case_decide; [done|apply IH].
Qed.

Lemma dict_set_keys {V} (d : list (string * V)) k v :
  keys (dict_set d k v)
  = if decide (k ∈ keys d) then keys d else keys d ++ [k].
Proof.
  unfold keys. induction d as [|[k0 v0] rest IH].
  - done.
  - cbn [dict_set]. destruct (decide (k0 = k)) as [->|Hne].
    + cbn [map fst]. rewrite decide_True; [done|]. by left.
    + cbn [map fst]. rewrite IH.
      destruct (decide (k ∈ map fst rest)) as [Hin|Hin].
      * rewrite decide_True; [done|]. by right.
      * rewrite decide_False; [done|].
        intros [->|]%elem_of_cons; done.
Qed.

(** X26. Registering a converter under a method name makes the lookup of
    that name give the new entry and leaves every other name as it was.  A
    name that was registered before keeps its place in [CONVERTERS] (the
    last registration wins), a new name goes to the end, and the names stay
    without repetition, so there is one hook per name. *)
Theorem tensorrt_converter_registers (method : string) (is_real : bool)
    (converter : nat) (CONVERTERS : list (string * converter_entry)) :
  NoDup (keys CONVERTERS) →
  (tensorrt_converter method is_real converter CONVERTERS).1 = converter
  ∧ dict_get (tensorrt_converter method is_real converter CONVERTERS).2 method
    = Some (ConverterEntry converter is_real)
  ∧ (∀ k, k ≠ method →
       dict_get (tensorrt_converter method is_real converter CONVERTERS).2 k
       = dict_get CONVERTERS k)
  ∧ keys (tensorrt_converter method is_real converter CONVERTERS).2
    = (if decide (method ∈ keys CONVERTERS) then keys CONVERTERS
       else keys CONVERTERS ++ [method])
  ∧ NoDup (keys (tensorrt_converter method is_real converter CONVERTERS).2)
  ∧ map hook_method_str
      (make_hooks (tensorrt_converter method is_real converter CONVERTERS).2)
    = keys (tensorrt_converter method is_real converter CONVERTERS).2.
Proof.
  intros Hnd. simpl. split; [done|]. split; [apply dict_set_get|].
  split; [intros k Hk; by apply dict_set_get_ne|].
  split; [apply dict_set_keys|]. split.
  - rewrite dict_set_keys. case_decide as Hin; [done|].
    apply NoDup_app. split; [done|]. split.
    + by intros k Hk ->%list_elem_of_singleton.
    + apply NoDup_singleton.
  - unfold make_hooks, keys. rewrite map_map. done.
Qed.

Lemma tensorrt_converter_registers_witness :
  keys (tensorrt_converter "torch.max" false 7
          [("torch.max", ConverterEntry 3 true);
           ("torch.Tensor.max", ConverterEntry 3 true)]).2
  = ["torch.max"; "torch.Tensor.max"].
Proof.
  refine (proj1 (proj2 (proj2 (proj2 (tensorrt_converter_registers
            "torch.max" false 7
            [("torch.max", ConverterEntry 3 true);
             ("torch.Tensor.max", ConverterEntry 3 true)] _))))).
  unfold keys. simpl. apply NoDup_cons. split.
  - intros [E|E]%elem_of_cons; [done|]. by apply elem_of_nil in E.
  - apply NoDup_singleton.
Defined.












End RegistryFacts.

(** ** Registering the inputs of the network *)

Section AddInputsFacts.

Import Torch2trt Utility Wf AddInputs.

Lemma default_names_lookup (n i : nat) :
  i < n → default_names n !! i = Some ("input_" +:+ pretty i).
Proof.
  intros Hi. unfold default_names.
  rewrite list_lookup_fmap, lookup_seq_lt by done. done.
Qed.

(** What the loop over [idx] returns: one entry per dimension. *)
Lemma opt_input_shape_spec (p : list (list (list Z))) (i : nat)
    (shape : list Z) :
  ∀ idx acc r,
    opt_input_shape p i idx shape acc = inr r →
    ∃ new,
      r = acc ++ new
      ∧ length new = length shape
      ∧ ∀ n d, shape !! n = Some d →
          ∃ a b,
            opt_shape_at p i 0 (idx + n) = Some a
            ∧ opt_shape_at p i 1 (idx + n) = Some b
            ∧ ((a = b
                ∧ ∃ c, opt_shape_at p i 2 (idx + n) = Some c
                       ∧ new !! n
                         = Some (if decide (b = c) then d else (-1)%Z))
               ∨ (a ≠ b ∧ new !! n = Some (-1)%Z)).
Proof.
  induction shape as [|d rest IH]; intros idx acc r H; simpl in H.
  - inversion H; subst. exists []. rewrite app_nil_r.
    repeat split; try done.
  - destruct (opt_shape_at p i 0 idx) as [a|] eqn:Ea; [|done].
    destruct (opt_shape_at p i 1 idx) as [b|] eqn:Eb; [|done].
    destruct (decide (a = b)) as [Hab|Hab].
    + destruct (opt_shape_at p i 2 idx) as [c|] eqn:Ec; [|done].
      apply IH in H as (new & -> & Hlen & Hn).
      exists ((if decide (b = c) then d else (-1)%Z) :: new).
      rewrite <- app_assoc. split; [done|]. split; [simpl; lia|].
      intros [|n] d' Hd; simpl in Hd.
      * inversion Hd; subst d'. rewrite Nat.add_0_r.
        exists a, b. repeat split; try done. left. split; [done|].
        by exists c.
      * replace (idx + S n) with (S idx + n) by lia. by apply Hn.
    + apply IH in H as (new & -> & Hlen & Hn).
      exists ((-1)%Z :: new).
      rewrite <- app_assoc. split; [done|]. split; [simpl; lia|].
      intros [|n] d' Hd; simpl in Hd.
      * inversion Hd; subst d'. rewrite Nat.add_0_r.
        exists a, b. repeat split; try done. by right.
      * replace (idx + S n) with (S idx + n) by lia. by apply Hn.
Qed.

(** The loop stops where it is: nothing is added. *)
Ltac loop_stops :=
  exists []; rewrite app_nil_r; simpl; rewrite app_nil_r;
  split; [done|]; split; [done|]; split; [by intros ? ? ?|];
  split; [done|];
  split; [intros ? ? Hnil; by rewrite lookup_nil in Hnil|].

(** The loop of [add_inputs], whatever its outcome. *)
Lemma add_inputs_loop_spec (dyn : bool) (names : list string)
    (opt : option (list (list (list Z)))) (inputs : list (tensor * device)) :
  ∀ i calls s e calls' s',
    add_inputs_loop dyn names opt i inputs calls s = (e, calls', s') →
    ∃ new,
      calls' = calls ++ new
      ∧ network s'
        = network s ++ map (fun c => LInput (call_shape c)) new
      ∧ keeps_attrs s s'
      ∧ (wf_state s → wf_state s')
      ∧ (∀ n c, new !! n = Some c →
           ∃ j t dev,
             inputs !! j = Some (t, dev)
             ∧ trt_attr s !! tid t = None
             ∧ names !! (i + j) = Some (call_name c)
             ∧ input_shape_of dyn opt (i + j) t = inr (call_shape c)
             ∧ torch_dtype_to_trt (dtype t) = inr (call_dtype c)
             ∧ call_location c = torch_device_to_trt dev
             ∧ trt_attr s' !! tid t
               = Some (TrtTensor (length (network s) + n) (call_shape c)))
      ∧ (e = None →
         ∀ t dev, In (t, dev) inputs → is_Some (trt_attr s' !! tid t)).
Proof.
  induction inputs as [|[t dev] rest IH]; intros i calls s e calls' s' H;
    simpl in H.
  - inversion H; subst. loop_stops. intros _ t dev [].
  - destruct (trt_attr s !! tid t) as [h|] eqn:Eh.
    + apply IH in H as (new & -> & Hnet & Hkeep & Hwf & Hcalls & Hall).
      exists new. repeat split; try done.
      * intros n c Hn.
        destruct (Hcalls n c Hn) as (j & t' & dev' & ? & ? & ? & ? & ? & ? & ?).
        exists (S j), t', dev'.
        replace (i + S j) with (S i + j) by lia. repeat split; done.
      * intros -> t' dev' [E|Hin].
        -- inversion E; subst. exists h. by apply Hkeep.
        -- by eapply Hall.
    + destruct (input_shape_of dyn opt i t) as [ex|input_shape] eqn:Es.
      { inversion H; subst. loop_stops. done. }
      destruct (names !! i) as [name|] eqn:En.
      2:{ inversion H; subst. loop_stops. done. }
      destruct (torch_dtype_to_trt (dtype t)) as [ex|dt] eqn:Ed.
      { inversion H; subst. loop_stops. done. }
      apply IH in H as (new & -> & Hnet & Hkeep & Hwf & Hcalls & Hall).
      simpl in Hnet, Hwf, Hcalls.
      assert (Hbound : trt_attr s' !! tid t
                       = Some (TrtTensor (length (network s)) input_shape)).
      { apply Hkeep. simpl. by rewrite lookup_insert_eq. }
      exists (AddInput name input_shape dt (torch_device_to_trt dev) :: new).
      rewrite <- app_assoc. simpl. split; [done|].
      split; [by rewrite Hnet, <- app_assoc|].
      split.
      { intros k h Hk. apply Hkeep. simpl.
        destruct (decide (k = tid t)) as [->|Hne]; [congruence|].
        by rewrite lookup_insert_ne. }
      split.
      { intros Hs. apply Hwf. intros k h. simpl.
        destruct (decide (k = tid t)) as [->|Hne].
        - rewrite lookup_insert_eq. intros [= <-].
          exists (LInput input_shape). simpl. split; [|done].
          by rewrite list_lookup_middle.
        - rewrite lookup_insert_ne by done. intros Hk.
          destruct (Hs k h Hk) as (l & Hl & Hshape).
          exists l. split; [|done]. by apply lookup_app_l_Some. }
      split.
      { intros [|n] c Hn; simpl in Hn.
        - inversion Hn; subst c. simpl.
          exists 0, t, dev. rewrite !Nat.add_0_r.
          repeat split; done.
        - destruct (Hcalls n c Hn)
            as (j & t' & dev' & Hj & Hnone & Hname & Hsh & Hdt & Hloc & Hb).
          exists (S j), t', dev'.
          replace (i + S j) with (S i + j) by lia.
          repeat split; try done.
          + destruct (decide (tid t' = tid t)) as [E|Hne].
            * rewrite E, lookup_insert_eq in Hnone. done.
            * by rewrite lookup_insert_ne in Hnone.
          + rewrite Hb. f_equal. f_equal.
            rewrite length_app. simpl. lia. }
      intros -> t' dev' [E|Hin].
      * inversion E; subst. by eexists.
      * by eapply Hall.
Qed.

(** Without [opt_shape_param] and with names for every input, the loop
    raises only the [TypeError] of an element type. *)
Lemma add_inputs_loop_raises (dyn : bool) (names : list string)
    (inputs : list (tensor * device)) :
  ∀ i calls s ex calls' s',
    (∀ j, j < length inputs → is_Some (names !! (i + j))) →
    add_inputs_loop dyn names None i inputs calls s = (Some ex, calls', s') →
    ex = PyTypeError
    ∧ ∃ pre t dev post,
        inputs = pre ++ (t, dev) :: post
        ∧ torch_dtype_to_trt (dtype t) = inl PyTypeError
        ∧ trt_attr s' !! tid t = None
        ∧ ∀ t' dev', In (t', dev') pre → is_Some (trt_attr s' !! tid t').
Proof.
  induction inputs as [|[t dev] rest IH]; intros i calls s ex calls' s' Hnames H;
    simpl in H; [done|].
  assert (Hnames' : ∀ j, j < length rest → is_Some (names !! (S i + j))).
  { intros j Hj. replace (S i + j) with (i + S j) by lia.
    apply Hnames. simpl. lia. }
  destruct (trt_attr s !! tid t) as [h|] eqn:Eh.
  - pose proof H as Hspec.
    apply add_inputs_loop_spec in Hspec as (_ & _ & _ & Hkeep & _).
    apply IH in H as (-> & pre & t' & dev' & post & -> & Hd & Hnone & Hpre);
      [|done].
    split; [done|]. exists ((t, dev) :: pre), t', dev', post.
    repeat split; try done.
    intros t0 dev0 [E|Hin]; [|by eapply Hpre].
    inversion E; subst. exists h. by apply Hkeep.
  - assert (Hshape : ∃ sh, input_shape_of dyn None i t = inr sh).
    { unfold input_shape_of. destruct dyn; by eexists. }
    destruct Hshape as (sh & Es). rewrite Es in H.
    destruct (Hnames 0) as (name & En); [simpl; lia|].
    rewrite Nat.add_0_r in En. rewrite En in H.
    destruct (torch_dtype_to_trt (dtype t)) as [e0|dt] eqn:Ed.
    + inversion H; subst.
      assert (ex = PyTypeError) as ->.
      { revert Ed. unfold torch_dtype_to_trt.
        destruct (dtype t); congruence. }
      split; [done|]. exists [], t, dev, rest.
      repeat split; try done; intros ? ? [].
    + pose proof H as Hspec.
      apply add_inputs_loop_spec in Hspec as (_ & _ & _ & Hkeep & _).
      apply IH in H as (-> & pre & t' & dev' & post & -> & Hd & Hnone & Hpre);
        [|done].
      split; [done|]. exists ((t, dev) :: pre), t', dev', post.
      repeat split; try done.
      intros t0 dev0 [E|Hin]; [|by eapply Hpre].
      inversion E; subst. eexists. apply Hkeep. simpl.
      by rewrite lookup_insert_eq.
Qed.

(** X29.  When [add_inputs] returns, every input tensor has a [_trt]; the
    [_trt] attributes that existed are unchanged; the network has grown by
    exactly one input layer per call of [add_input], in order; each call
    was made for an input that had no [_trt] before, under the name at the
    position of that input, with its element type and location, and its
    result, the output of the new layer, is that input's [_trt]; the shape
    passed is the host shape in dynamic mode and the host shape without its
    first dimension otherwise, except that with [opt_shape_param] in
    dynamic mode a dimension keeps its size only where minimum, optimum and
    maximum agree and is -1 elsewhere; a valid state stays valid. *)
Theorem add_inputs_binds (dyn : bool) (inputs : list (tensor * device))
    (names : option (list string)) (opt : option (list (list (list Z))))
    (s : state) (input_names : list string) (calls : list add_input_call)
    (s' : state) :
  add_inputs dyn inputs names opt s = (input_names, (None, calls, s')) →
  input_names = default (default_names (length inputs)) names
  ∧ (∀ t dev, In (t, dev) inputs → is_Some (trt_attr s' !! tid t))
  ∧ keeps_attrs s s'
  ∧ network s' = network s ++ map (fun c => LInput (call_shape c)) calls
  ∧ (wf_state s → wf_state s')
  ∧ ∀ n c, calls !! n = Some c →
      ∃ j t dev,
        inputs !! j = Some (t, dev)
        ∧ trt_attr s !! tid t = None
        ∧ input_names !! j = Some (call_name c)
        ∧ torch_dtype_to_trt (dtype t) = inr (call_dtype c)
        ∧ call_location c = torch_device_to_trt dev
        ∧ trt_attr s' !! tid t
          = Some (TrtTensor (length (network s) + n) (call_shape c))
        ∧ match dyn, opt with
          | true, Some p =>
              length (call_shape c) = length (shape t)
              ∧ ∀ idx d, shape t !! idx = Some d →
                  ∃ a b,
                    opt_shape_at p j 0 idx = Some a
                    ∧ opt_shape_at p j 1 idx = Some b
                    ∧ ((a = b
                        ∧ ∃ m, opt_shape_at p j 2 idx = Some m
                               ∧ call_shape c !! idx
                                 = Some (if decide (b = m) then d
                                         else (-1)%Z))
                       ∨ (a ≠ b ∧ call_shape c !! idx = Some (-1)%Z))
          | true, None => call_shape c = shape t
          | false, _ => call_shape c = drop 1 (shape t)
          end.
Proof.
  unfold add_inputs. intros H. injection H as Hnames Hloop.
  subst input_names.
  apply add_inputs_loop_spec in Hloop
    as (new & Hcalls & Hnet & Hkeep & Hwf & Hnew & Hall).
  simpl in Hcalls. subst new.
  split; [by destruct names|].
  split; [by apply Hall|]. split; [done|]. split; [done|]. split; [done|].
  intros n c Hn.
  destruct (Hnew n c Hn)
    as (j & t & dev & Hj & Hnone & Hname & Hsh & Hdt & Hloc & Hb).
  exists j, t, dev. simpl in Hname, Hsh.
  repeat split; try done.
  unfold input_shape_of in Hsh. destruct dyn; [|congruence].
  destruct opt as [p|]; [|congruence].
  apply opt_input_shape_spec in Hsh as (new & Hr & Hlen & Hdims).
  simpl in Hr. subst new. split; [done|].
  intros idx d Hd. destruct (Hdims idx d Hd) as (a & b & Ha & Hb' & Hcase).
  by exists a, b.
Qed.

Lemma add_inputs_binds_witness :
  ∃ calls,
    add_inputs true
      [(Tensor 0 [1; 3; 4]%Z float32, Device cuda None);
       (Tensor 1 [1; 5]%Z int32, Device cpu None)]
      None (Some [[[1; 3; 4]; [1; 3; 4]; [1; 3; 4]];
                  [[1; 2]; [1; 5]; [1; 8]]]%Z)
      (State [] ∅)
    = (["input_0"; "input_1"],
       (None, calls,
        State [LInput [1; 3; 4]%Z; LInput [1; -1]%Z]
          (<[1 := TrtTensor 1 [1; -1]%Z]>
             (<[0 := TrtTensor 0 [1; 3; 4]%Z]> ∅))))
    ∧ map call_shape calls = [[1; 3; 4]; [1; -1]]%Z
    ∧ network
        (State [LInput [1; 3; 4]%Z; LInput [1; -1]%Z]
          (<[1 := TrtTensor 1 [1; -1]%Z]>
             (<[0 := TrtTensor 0 [1; 3; 4]%Z]> ∅)))
      = [] ++ map (fun c => LInput (call_shape c)) calls.
Proof.
  eexists. split; [vm_compute; reflexivity|]. split; [reflexivity|].
  eapply (add_inputs_binds true
    [(Tensor 0 [1; 3; 4]%Z float32, Device cuda None);
     (Tensor 1 [1; 5]%Z int32, Device cpu None)]
    None (Some [[[1; 3; 4]; [1; 3; 4]; [1; 3; 4]];
                [[1; 2]; [1; 5]; [1; 8]]]%Z)
    (State [] ∅)).
  vm_compute. reflexivity.
Defined.

(** X30.  With the default names and no [opt_shape_param], [add_inputs]
    returns when every input has an element type TensorRT has, and the only
    exception it raises is [TypeError]: at an input that has no [_trt] and
    whose element type is [long], [double] or another type without a
    TensorRT counterpart.  The inputs before that one keep the [_trt] they
    were given, and their input layers stay in the network. *)
Theorem add_inputs_default_raises (dyn : bool)
    (inputs : list (tensor * device)) (s : state)
    (input_names : list string) (e : option py_exn)
    (calls : list add_input_call) (s' : state) :
  add_inputs dyn inputs None None s = (input_names, (e, calls, s')) →
  ((∀ t dev, In (t, dev) inputs →
      ∃ dt, torch_dtype_to_trt (dtype t) = inr dt) → e = None)
  ∧ (∀ ex, e = Some ex →
       ex = PyTypeError
       ∧ network s' = network s ++ map (fun c => LInput (call_shape c)) calls
       ∧ ∃ pre t dev post,
           inputs = pre ++ (t, dev) :: post
           ∧ torch_dtype_to_trt (dtype t) = inl PyTypeError
           ∧ trt_attr s' !! tid t = None
           ∧ ∀ t' dev', In (t', dev') pre →
               is_Some (trt_attr s' !! tid t')).
Proof.
  unfold add_inputs. intros H. injection H as Hnames Hloop.
  assert (Hraise : ∀ ex, e = Some ex →
    ex = PyTypeError
    ∧ network s' = network s ++ map (fun c => LInput (call_shape c)) calls
    ∧ ∃ pre t dev post,
        inputs = pre ++ (t, dev) :: post
        ∧ torch_dtype_to_trt (dtype t) = inl PyTypeError
        ∧ trt_attr s' !! tid t = None
        ∧ ∀ t' dev', In (t', dev') pre → is_Some (trt_attr s' !! tid t')).
  { intros ex ->. pose proof Hloop as Hspec.
    apply add_inputs_loop_spec in Hspec as (new & Hcalls & Hnet & _).
    simpl in Hcalls. subst new.
    apply add_inputs_loop_raises in Hloop as (-> & Hsplit).
    - done.
    - intros j Hj. simpl. rewrite default_names_lookup by done. by eexists. }
  split; [|done].
  intros Hall. destruct e as [ex|]; [|done].
  destruct (Hraise ex eq_refl) as (_ & _ & pre & t & dev & post & -> & Hd & _).
  destruct (Hall t dev) as (dt & Hdt).
  - apply in_or_app. right. by left.
  - congruence.
Qed.

Lemma add_inputs_default_raises_witness :
  ∃ pre t dev post,
    [(Tensor 0 [1; 3]%Z float32, Device cuda None);
     (Tensor 1 [1; 5]%Z int64, Device cuda None);
     (Tensor 2 [1; 7]%Z float32, Device cuda None)]
    = pre ++ (t, dev) :: post
    ∧ torch_dtype_to_trt (dtype t) = inl PyTypeError
    ∧ trt_attr (State [LInput [1; 3]%Z] (<[0 := TrtTensor 0 [1; 3]%Z]> ∅))
        !! tid t = None
    ∧ ∀ t' dev', In (t', dev') pre →
        is_Some
          (trt_attr (State [LInput [1; 3]%Z] (<[0 := TrtTensor 0 [1; 3]%Z]> ∅))
             !! tid t').
Proof.
  edestruct (add_inputs_default_raises true
    [(Tensor 0 [1; 3]%Z float32, Device cuda None);
     (Tensor 1 [1; 5]%Z int64, Device cuda None);
     (Tensor 2 [1; 7]%Z float32, Device cuda None)]
    (State [] ∅)) as [_ Hraise].
  - vm_compute. reflexivity.
  - destruct (Hraise PyTypeError eq_refl) as (_ & _ & Hsplit). exact Hsplit.
Defined.

End AddInputsFacts.
